(** * hooks/pre_code_generation.py: the antiHall pre-write validation hook

    A shallow embedding of the three functions of the hook

      - [extract_code_patterns]   three regular-expression scans of a text,
      - [validate_with_antihall]  the call of the external checker,
      - [main]                    the dispatcher on a tool-invocation record,

    and the properties of them that the specification states.  The
    functions are given twice: first in a world where the test of the
    tool directory and [print] return, then, in [Faulty], in a world
    where they may raise; [calm_main] relates the two.

    The module also imports [validate_code_pattern] from
    [utils.fibreflow_validators]; none of the three functions calls it. *)

From Stdlib Require Import String Ascii NArith ZArith Lia.
From stdpp Require Import base decidable option list countable gmap.

Open Scope list_scope.

Set Warnings "-register-all".

(* ===================================================================== *)
(** * Text *)
(* ===================================================================== *)

(** A Python [str] is a sequence of Unicode code points.  The program reads
    two properties of a character from the Unicode character database:
    whether it is alphanumeric ([\w] of [re], which is [str.isalnum] or an
    underscore) and whether it is white space ([\s] of [re] and
    [str.strip], both [str.isspace]).  The database is not part of the
    program, so a character of the model is a code point together with its
    entry for these two properties. *)
Record char : Type := Char {
  code    : N;
  isalnum : bool;
  isspace : bool
}.

Definition str : Type := list char.

#[global] Instance char_eq_dec : EqDecision char.
Proof. solve_decision. Defined.

#[global] Instance char_countable : Countable char.
Proof.
  refine (inj_countable' (fun c => (code c, isalnum c, isspace c))
                         (fun t => Char t.1.1 t.1.2 t.2) _).
  by intros [].
Defined.

(** The database entries of the code points below 128: the digits and the
    letters are alphanumeric; tab, line feed, vertical tab, form feed,
    carriage return, the four separators 28..31 and the blank are white
    space. *)
Definition ascii_isalnum (n : N) : bool :=
  ((48 <=? n) && (n <=? 57) || (65 <=? n) && (n <=? 90)
   || (97 <=? n) && (n <=? 122))%N.

Definition ascii_isspace (n : N) : bool :=
  ((9 <=? n) && (n <=? 13) || (28 <=? n) && (n <=? 32))%N.

Definition chr (a : ascii) : char :=
  let n := N_of_ascii a in Char n (ascii_isalnum n) (ascii_isspace n).

(** [txt] reads a literal of the source; all of them but the two markers of
    the warning block are made of code points below 128. *)
Fixpoint txt (s : string) : str :=
  match s with
  | EmptyString => []
  | String a s' => chr a :: txt s'
  end.

(** The double quote and the line feed, which a literal here cannot hold. *)
Definition dquote : char := chr (ascii_of_N 34).

Definition newline : char := chr (ascii_of_N 10).

(** [name in tuple_or_list] for a character. *)
Definition char_in (c : char) (l : str) : bool := bool_decide (c ∈ l).

(** [s == t] on two [str]. *)
Definition str_eqb (s t : str) : bool := bool_decide (s = t).

(** [s.startswith(p)]. *)
Fixpoint startswith (s p : str) {struct p} : bool :=
  match p, s with
  | [], _ => true
  | _ :: _, [] => false
  | a :: p', b :: s' => bool_decide (b = a) && startswith s' p'
  end.

(** [s.endswith(suffix)]: the last [len(suffix)] characters of [s] are
    compared with [suffix]. *)
Definition endswith (s suffix : str) : bool :=
  (length suffix <=? length s)
  && str_eqb (drop (length s - length suffix) s) suffix.

(** [s.endswith(tuple)]: true when [s] ends with one of the members. *)
Definition endswith_any (s : str) (suffixes : list str) : bool :=
  existsb (endswith s) suffixes.

(** [sub in s]. *)
Fixpoint contains (s sub : str) : bool :=
  startswith s sub
  || match s with
     | [] => false
     | _ :: s' => contains s' sub
     end.

(** [s.strip()]: leading and trailing white space removed. *)
Fixpoint lstrip (s : str) : str :=
  match s with
  | c :: s' => if isspace c then lstrip s' else s
  | [] => []
  end.

Definition rstrip (s : str) : str := rev (lstrip (rev s)).

Definition strip (s : str) : str := rstrip (lstrip s).

(** [s.split(sep)] for a separator of one character: the pieces between
    the separators, empty ones included. *)
Fixpoint str_split (sep : char) (s : str) : list str :=
  match s with
  | [] => [[]]
  | c :: s' =>
      if bool_decide (c = sep) then [] :: str_split sep s'
      else match str_split sep s' with
           | piece :: pieces => (c :: piece) :: pieces
           | [] => [[c]]
           end
  end.

(** [sep.join(pieces)]. *)
Fixpoint str_join (sep : str) (pieces : list str) : str :=
  match pieces with
  | [] => []
  | [p] => p
  | p :: ps => p ++ sep ++ str_join sep ps
  end.

(* ===================================================================== *)
(** * Regular expressions *)
(* ===================================================================== *)

(** The fragment of [re] the three patterns are written in: literal
    characters, the classes [\w], [\s], [[...]] and [[^...]], the greedy
    repetitions [*] and [+] of one class, sequence, and capture groups that
    are not nested. *)
Module Re.

Inductive cls : Type :=
  | Lit (c : char)           (* one literal character *)
  | Word                     (* \w *)
  | Space                    (* \s *)
  | OneOf (l : str)          (* [...] *)
  | NoneOf (l : str).        (* [^...] *)

Definition accepts (k : cls) (c : char) : bool :=
  match k with
  | Lit a => bool_decide (c = a)
  | Word => isalnum c || bool_decide (c = chr "_")
  | Space => isspace c
  | OneOf l => char_in c l
  | NoneOf l => negb (char_in c l)
  end.

Inductive regex : Type :=
  | Eps
  | One (k : cls)
  | Rep (min : nat) (k : cls)     (* k* is [Rep 0 k], k+ is [Rep 1 k] *)
  | Seq (r1 r2 : regex)
  | Group (r : regex).

Fixpoint lit (s : str) : regex :=
  match s with
  | [] => Eps
  | c :: s' => Seq (One (Lit c)) (lit s')
  end.

(** The matcher is the backtracking one of [re]: a greedy repetition takes
    as many characters as the class accepts and gives them back one at a
    time while what follows the repetition fails.  [s] is the text from
    the current position [pos] on, counted from the start of the match;
    [cont] is what follows. *)
Fixpoint rep {A} (k : cls) (min : nat) (s : str) (pos : nat)
    (cont : str -> nat -> option A) : option A :=
  let stop := match min with O => cont s pos | S _ => None end in
  match s with
  | c :: s' =>
      if accepts k c then
        match rep k (pred min) s' (S pos) cont with
        | Some r => Some r
        | None => stop
        end
      else stop
  | [] => stop
  end.

(** [marks] are the positions where the groups closed so far start and
    end. *)
Fixpoint exec {A} (r : regex) (s : str) (pos : nat) (marks : list (nat * nat))
    (cont : str -> nat -> list (nat * nat) -> option A) : option A :=
  match r with
  | Eps => cont s pos marks
  | One k =>
      match s with
      | c :: s' => if accepts k c then cont s' (S pos) marks else None
      | [] => None
      end
  | Rep min k => rep k min s pos (fun s' pos' => cont s' pos' marks)
  | Seq r1 r2 =>
      exec r1 s pos marks (fun s1 pos1 marks1 => exec r2 s1 pos1 marks1 cont)
  | Group r1 =>
      exec r1 s pos marks
        (fun s1 pos1 marks1 => cont s1 pos1 (marks1 ++ [(pos, pos1)]))
  end.

(** [s[a:b]] *)
Definition slice (s : str) (a b : nat) : str := take (b - a) (drop a s).

(** A match object: the text matched (group 0) and the groups. *)
Record mtch : Type := Match { whole : str; groups : list str }.

(** [pattern.match(s)]: the match that starts at the head of [s]. *)
Definition match_at (r : regex) (s : str) : option mtch :=
  exec r s 0 []
    (fun _ pos marks =>
       Some (Match (take pos s) ((fun m => slice s m.1 m.2) <$> marks))).

(** [re.finditer]: the text is scanned from the left; a match found at a
    position is kept and the scan goes on where it ends (one character
    further when it is empty); without a match the scan moves one
    character.  [skip] counts the characters still inside the last match;
    after the last character the empty text is tried as well. *)
Fixpoint scan (r : regex) (s : str) (skip : nat) : list mtch :=
  match skip with
  | S n =>
      match s with
      | _ :: s' => scan r s' n
      | [] => []
      end
  | O =>
      match match_at r s with
      | Some m =>
          m :: match s with
               | _ :: s' => scan r s' (pred (length (whole m)))
               | [] => []
               end
      | None =>
          match s with
          | _ :: s' => scan r s' 0
          | [] => []
          end
      end
  end.

Definition finditer (r : regex) (s : str) : list mtch := scan r s 0.

End Re.

(* ===================================================================== *)
(** * extract_code_patterns *)
(* ===================================================================== *)

(** [r1 r2 ... rn] *)
Definition cat (rs : list Re.regex) : Re.regex := foldr Re.Seq Re.Eps rs.

(** [r'this\.(\w+Service)\.(\w+)\('] *)
Definition service_re : Re.regex :=
  cat [ Re.lit (txt "this"); Re.One (Re.Lit (chr "."));
        Re.Group (cat [Re.Rep 1 Re.Word; Re.lit (txt "Service")]);
        Re.One (Re.Lit (chr "."));
        Re.Group (Re.Rep 1 Re.Word);
        Re.One (Re.Lit (chr "(")) ].

(** [import\s*{([^}]+)}\s*from\s*[Q]([^Q]+)[Q]], where [Q] stands for the
    two characters of the class: the single and the double quote. *)
Definition import_re : Re.regex :=
  cat [ Re.lit (txt "import"); Re.Rep 0 Re.Space;
        Re.One (Re.Lit (chr "{"));
        Re.Group (Re.Rep 1 (Re.NoneOf [chr "}"]));
        Re.One (Re.Lit (chr "}")); Re.Rep 0 Re.Space;
        Re.lit (txt "from"); Re.Rep 0 Re.Space;
        Re.One (Re.OneOf [chr "'"; dquote]);
        Re.Group (Re.Rep 1 (Re.NoneOf [chr "'"; dquote]));
        Re.One (Re.OneOf [chr "'"; dquote]) ].

(** [r'@Component\({[^}]+}\)'], compiled with [re.DOTALL]; the flag changes
    what a dot matches and the pattern has none. *)
Definition component_re : Re.regex :=
  cat [ Re.lit (txt "@Component"); Re.One (Re.Lit (chr "("));
        Re.One (Re.Lit (chr "{"));
        Re.Rep 1 (Re.NoneOf [chr "}"]);
        Re.One (Re.Lit (chr "}")); Re.One (Re.Lit (chr ")")) ].

(** [m.group(i)] for [i >= 1]; a group that took no part is the empty
    text in the result of [re.findall]. *)
Definition group (m : Re.mtch) (i : nat) : str :=
  default [] (Re.groups m !! pred i).

(** [re.findall] of a pattern without a group: the texts matched. *)
Definition findall0 (r : Re.regex) (s : str) : list str :=
  Re.whole <$> Re.finditer r s.

(** [re.findall] of a pattern with two groups: the pairs of the groups. *)
Definition findall2 (r : Re.regex) (s : str) : list (str * str) :=
  (fun m => (group m 1, group m 2)) <$> Re.finditer r s.

(** The dictionaries that [extract_code_patterns] builds; the constructor
    is the value under ['type']. *)
Inductive pattern : Type :=
  | ServiceMethod (service method full : str)   (* 'service_method' *)
  | Import (items : list str) (path : str)      (* 'import' *)
  | Component (issue code : str).               (* 'component' *)

#[global] Instance pattern_eq_dec : EqDecision pattern.
Proof. solve_decision. Defined.

Definition service_pattern (sm : str * str) : pattern :=
  let '(service, method) := sm in
  ServiceMethod service method
    (txt "this." ++ service ++ txt "." ++ method ++ txt "()").

Definition import_pattern (ip : str * str) : pattern :=
  let '(imported, path) := ip in
  Import (strip <$> str_split (chr ",") imported) path.

Definition component_patterns (comp : str) : list pattern :=
  if negb (contains comp (txt "standalone: true"))
  then [Component (txt "missing_standalone") (take 50 comp ++ txt "...")]
  else [].

Definition extract_code_patterns (content : str) : list pattern :=
  let service_calls := findall2 service_re content in
  let imports := findall2 import_re content in
  let components := findall0 component_re content in
  (service_pattern <$> service_calls)
  ++ (import_pattern <$> imports)
  ++ (components ≫= component_patterns).

(* ===================================================================== *)
(** * Values, the world and the effects *)
(* ===================================================================== *)

(** The values a tool-invocation record is made of.  A dictionary is a
    finite map; the order of its keys, which the hook never reads, is not
    kept. *)
Inductive value : Type :=
  | VNone
  | VBool (b : bool)
  | VInt (z : Z)
  | VFloat (significand exponent : Z)   (* a finite float, m * 2^e *)
  | VStr (s : str)
  | VList (l : list value)
  | VDict (d : gmap str value).

Abbreviation dict := (gmap str value).

(** [bool(v)] *)
Definition truthy (v : value) : bool :=
  match v with
  | VNone => false
  | VBool b => b
  | VInt z => negb (z =? 0)%Z
  | VFloat m _ => negb (m =? 0)%Z
  | VStr s => negb (bool_decide (s = []))
  | VList l => match l with [] => false | _ => true end
  | VDict d => match map_to_list d with [] => false | _ => true end
  end.

(** [v == 'literal'] *)
Definition value_is (v : value) (s : str) : bool :=
  match v with
  | VStr t => str_eqb t s
  | _ => false
  end.

(** [v in ['a', 'b', ...]] *)
Definition value_in (v : value) (l : list str) : bool :=
  existsb (value_is v) l.

(** The exceptions: of a value of the wrong type (a method that the value
    does not have, an operation that its type does not support), and of
    the world (a path that may not be looked at, a line that stdout
    cannot encode). *)
Inductive exn : Type :=
  | AttributeError
  | TypeError
  | PermissionError          (* an OSError of Path.exists() *)
  | UnicodeEncodeError.      (* of print *)

Inductive outcome (A : Type) : Type :=
  | Return (a : A)
  | Raise (e : exn).
Arguments Return {A} a.
Arguments Raise {A} e.

(** What the hook does to the world, in order. *)
Inductive event : Type :=
  | Spawn (args : list str) (cwd : str) (timeout : Z)   (* subprocess.run *)
  | Printed (line : str).                               (* print *)

(** What [subprocess.run] comes back with: the two captured streams, or an
    exception [e] (the process did not start, the timeout expired, ...),
    of which [description] is [str(e)]. *)
Inductive run_result : Type :=
  | Completed (stdout stderr : str)
  | Failed (description : str).

(** The world outside the hook: whether a path exists and what a process
    does, both of which may depend on all that happened before. *)
Record env : Type := Env {
  path_exists    : list event -> str -> bool;
  subprocess_run : list event -> list str -> str -> Z -> run_result
}.

(** A computation reads and extends the log of events and returns a value
    or raises. *)
Definition io (A : Type) : Type := list event -> outcome A * list event.

Definition ret {A} (a : A) : io A := fun log => (Return a, log).

Definition raise {A} (e : exn) : io A := fun log => (Raise e, log).

Definition bind {A B} (m : io A) (f : A -> io B) : io B :=
  fun log =>
    match m log with
    | (Return a, log') => f a log'
    | (Raise e, log') => (Raise e, log')
    end.

Notation "'let*' x ':=' m 'in' k" := (bind m (fun x => k))
  (at level 10, x pattern, m at level 100, k at level 200, only parsing).

(** [print(line)] on a stdout that takes the line; the stdout that
    refuses it is in [Faulty.print]. *)
Definition print (line : str) : io unit :=
  fun log => (Return tt, log ++ [Printed line]).

Fixpoint for_each {A B} (f : A -> io B) (l : list A) : io (list B) :=
  match l with
  | [] => ret []
  | x :: l' =>
      let* y := f x in
      let* ys := for_each f l' in
      ret (y :: ys)
  end.

(* ===================================================================== *)
(** * validate_with_antihall *)
(* ===================================================================== *)

Definition antihall_dir : str := txt "/home/ldp/VF/Apps/FibreFlow/antiHall".

(** [antihall_dir.exists()] where the look at the path returns; the look
    that raises is in [Faulty.exists_]. *)
Definition exists_ (e : env) (path : str) : io bool :=
  fun log => (Return (path_exists e log path), log).

(** [subprocess.run(args, cwd=cwd, capture_output=True, text=True,
    timeout=timeout)]: the launch is logged, the world answers. *)
Definition run (e : env) (args : list str) (cwd : str) (timeout : Z)
  : io run_result :=
  fun log =>
    (Return (subprocess_run e log args cwd timeout),
     log ++ [Spawn args cwd timeout]).

(** The pair returned is (stdout or [None], stderr or the reason). *)
Definition validate_with_antihall (e : env) (code_snippet : str)
  : io (option str * str) :=
  let* found := exists_ e antihall_dir in
  if negb found then ret (None, txt "antiHall directory not found") else
  let* result :=
    run e [txt "npm"; txt "run"; txt "check"; code_snippet] antihall_dir 10 in
  match result with
  | Completed stdout stderr => ret (Some stdout, stderr)
  | Failed description => ret (None, description)        (* except Exception *)
  end.

(* ===================================================================== *)
(** * main *)
(* ===================================================================== *)

(** [d.get(key, default)] on a dictionary. *)
Definition dict_get (d : dict) (key : str) (dflt : value) : value :=
  match d !! key with
  | Some v => v
  | None => dflt
  end.

(** [v.get(key, default)] on a value: only a dictionary has the method. *)
Definition get (v : value) (key : str) (dflt : value) : io value :=
  match v with
  | VDict d => ret (dict_get d key dflt)
  | _ => raise AttributeError
  end.

(** [v.endswith(tuple)]: only a text has the method. *)
Definition value_endswith (v : value) (suffixes : list str) : io bool :=
  match v with
  | VStr s => ret (endswith_any s suffixes)
  | _ => raise AttributeError
  end.

(** [for e in v]: the members of a list, the characters of a text, the
    keys of a dictionary (here in the order of the map, not of insertion:
    every key is a text, on which the loop body of [main] raises). *)
Definition iterate (v : value) : io (list value) :=
  match v with
  | VList l => ret l
  | VStr s => ret ((fun c => VStr [c]) <$> s)
  | VDict d => ret ((fun kv => VStr kv.1) <$> map_to_list d)
  | _ => raise TypeError
  end.

(** [sep.join(values)]: every member has to be a text. *)
Fixpoint texts (vs : list value) : option (list str) :=
  match vs with
  | [] => Some []
  | VStr s :: vs' => cons s <$> texts vs'
  | _ :: _ => None
  end.

Definition join_values (sep : str) (vs : list value) : io value :=
  match texts vs with
  | Some pieces => ret (VStr (str_join sep pieces))
  | None => raise TypeError
  end.

(** A validation issue, and the dictionary it is in the record. *)
Record issue : Type := Issue {
  issue_type : str;
  message    : str;
  suggestion : str
}.

Definition issue_value (i : issue) : value :=
  VDict (<[txt "type" := VStr (issue_type i)]>
         (<[txt "message" := VStr (message i)]>
          (<[txt "suggestion" := VStr (suggestion i)]> ∅))).

(** The tools that write a file, and the suffixes of the files checked. *)
Definition write_tools : list str := [txt "Write"; txt "Edit"; txt "MultiEdit"].

Definition ts_suffixes : list str :=
  [txt ".ts"; txt ".component.ts"; txt ".service.ts"].

(** Lines 91-98: the text to validate. *)
Definition resolve_content (tool_name params : value) : io value :=
  if value_is tool_name (txt "Write") then
    get params (txt "content") (VStr [])
  else if value_is tool_name (txt "Edit") then
    get params (txt "new_string") (VStr [])
  else if value_is tool_name (txt "MultiEdit") then
    let* edits := get params (txt "edits") (VList []) in
    let* members := iterate edits in
    let* new_strings :=
      for_each (fun e => get e (txt "new_string") (VStr [])) members in
    join_values [newline] new_strings
  else ret (VStr []).

(** Lines 108-122: the body of the loop over the patterns. *)
Definition check_pattern (e : env) (p : pattern) : io (list issue) :=
  match p with
  | ServiceMethod service method full =>
      let* (stdout, stderr) := validate_with_antihall e full in
      match stdout with
      | Some out =>
          if negb (bool_decide (out = []))
             && contains out (txt "does not exist")
          then ret [Issue (txt "hallucination")
                      (txt "Method '" ++ method ++ txt "' not found in "
                       ++ service)
                      (txt "Check available methods with antiHall")]
          else ret []
      | None => ret []
      end
  | Component iss code =>
      if str_eqb iss (txt "missing_standalone")
      then ret [Issue (txt "pattern_violation")
                  (txt "Component must use standalone: true")
                  (txt "All FibreFlow components must be standalone")]
      else ret []
  | Import items path => ret []
  end.

(** Lines 105-122: the issues of all the patterns, in their order. *)
Definition collect_issues (e : env) (patterns : list pattern)
  : io (list issue) :=
  let* found := for_each (check_pattern e) patterns in
  ret (concat found).

(** The two markers of the warning block, as they stand in the source. *)
Definition warning_mark : str :=
  [Char 8218 false false; Char 246 true false; Char 8224 false false;
   Char 212 true false; Char 8719 false false; Char 232 true false].

Definition hint_mark : str :=
  [Char 63743 false false; Char 252 true false; Char 237 true false;
   Char 176 false false].

(** Lines 128-134: the warning block. *)
Definition print_issue (i : issue) : io unit :=
  let* _ := print (txt "  - " ++ message i) in
  if negb (bool_decide (suggestion i = []))
  then print (txt "    " ++ hint_mark ++ txt " " ++ suggestion i)
  else ret tt.

Definition log_warnings (validation_issues : list issue) : io unit :=
  let* _ := print ([newline] ++ warning_mark
                   ++ txt " antiHall Validation Warnings:") in
  let* _ := for_each print_issue validation_issues in
  print [].

(** Lines 100-136: what [main] does with the text once the gates on the
    tool and on the file are passed. *)
Definition validate (e : env) (hook_data : dict) (content : value) : io dict :=
  if negb (truthy content) then ret hook_data else
  let* patterns :=
    match content with
    | VStr c => ret (extract_code_patterns c)
    | _ => raise TypeError               (* re.findall on what is no text *)
    end in
  let* validation_issues := collect_issues e patterns in
  match validation_issues with
  | _ :: _ =>
      let hook_data :=
        <[txt "validation_warnings" := VList (issue_value <$> validation_issues)]>
          hook_data in
      let* _ := log_warnings validation_issues in
      ret hook_data
  | [] => ret hook_data
  end.

Definition main (e : env) (hook_data : dict) : io dict :=
  let tool_name := dict_get hook_data (txt "tool_name") (VStr []) in
  if negb (value_in tool_name write_tools) then ret hook_data else
  let params := dict_get hook_data (txt "params") (VDict ∅) in
  let* file_path := get params (txt "file_path") (VStr []) in
  let* is_ts := value_endswith file_path ts_suffixes in
  if negb is_ts then ret hook_data else
  let* content := resolve_content tool_name params in
  validate e hook_data content.

(* ===================================================================== *)
(** * The faults of the world *)
(* ===================================================================== *)

(** The definitions above are the hook in a world where [Path.exists()]
    and [print] return.  Both can raise.  [antihall_dir.exists()] stands
    outside the [try] of [validate_with_antihall], and on the versions of
    Python where [Path.exists] passes on an [OSError] that does not say
    that the path is missing, [PermissionError] for one, the exception
    leaves [validate_with_antihall] and [main].  [print] raises when
    stdout cannot take the line: the two markers of the warning block are
    not ASCII.  A [world] adds the faults to the answers of an [env]; like
    the answers they may depend on all that happened before. *)
Record world : Type := World {
  answers      : env;
  exists_fault : list event -> str -> option exn;
  print_fault  : list event -> str -> option exn
}.

Module Faulty.

(** [antihall_dir.exists()] *)
Definition exists_ (w : world) (path : str) : io bool :=
  fun log =>
    match exists_fault w log path with
    | Some x => (Raise x, log)
    | None => (Return (path_exists (answers w) log path), log)
    end.

(** [print(line)]: a line that stdout refuses is not written. *)
Definition print (w : world) (line : str) : io unit :=
  fun log =>
    match print_fault w log line with
    | Some x => (Raise x, log)
    | None => (Return tt, log ++ [Printed line])
    end.

(** Lines 53-72; the existence test is not under the [try]. *)
Definition validate_with_antihall (w : world) (code_snippet : str)
  : io (option str * str) :=
  let* found := exists_ w antihall_dir in
  if negb found then ret (None, txt "antiHall directory not found") else
  let* result :=
    run (answers w) [txt "npm"; txt "run"; txt "check"; code_snippet]
      antihall_dir 10 in
  match result with
  | Completed stdout stderr => ret (Some stdout, stderr)
  | Failed description => ret (None, description)        (* except Exception *)
  end.

(** Lines 108-122. *)
Definition check_pattern (w : world) (p : pattern) : io (list issue) :=
  match p with
  | ServiceMethod service method full =>
      let* (stdout, stderr) := validate_with_antihall w full in
      match stdout with
      | Some out =>
          if negb (bool_decide (out = []))
             && contains out (txt "does not exist")
          then ret [Issue (txt "hallucination")
                      (txt "Method '" ++ method ++ txt "' not found in "
                       ++ service)
                      (txt "Check available methods with antiHall")]
          else ret []
      | None => ret []
      end
  | Component iss code =>
      if str_eqb iss (txt "missing_standalone")
      then ret [Issue (txt "pattern_violation")
                  (txt "Component must use standalone: true")
                  (txt "All FibreFlow components must be standalone")]
      else ret []
  | Import items path => ret []
  end.

(** Lines 105-122. *)
Definition collect_issues (w : world) (patterns : list pattern)
  : io (list issue) :=
  let* found := for_each (check_pattern w) patterns in
  ret (concat found).

(** Lines 128-134. *)
Definition print_issue (w : world) (i : issue) : io unit :=
  let* _ := print w (txt "  - " ++ message i) in
  if negb (bool_decide (suggestion i = []))
  then print w (txt "    " ++ hint_mark ++ txt " " ++ suggestion i)
  else ret tt.

Definition log_warnings (w : world) (validation_issues : list issue)
  : io unit :=
  let* _ := print w ([newline] ++ warning_mark
                     ++ txt " antiHall Validation Warnings:") in
  let* _ := for_each (print_issue w) validation_issues in
  print w [].

(** What a call of [main] leaves behind.  The record is the dictionary of
    the caller: [main] changes it in place and returns it, and when [main]
    raises the caller holds it as the call left it. *)
Inductive result : Type :=
  | Returned (record : dict)
  | Raised (x : exn) (record : dict).

(** A step of [main] that may raise, while the record is [hook_data]. *)
Definition step {A : Type} (hook_data : dict) (m : io A)
    (k : A -> list event -> result * list event)
  : list event -> result * list event :=
  fun log =>
    match m log with
    | (Return a, log') => k a log'
    | (Raise x, log') => (Raised x hook_data, log')
    end.

Definition return_ (hook_data : dict) : list event -> result * list event :=
  fun log => (Returned hook_data, log).

(** Lines 100-136: line 126 sets [validation_warnings] before line 129
    prints. *)
Definition validate (w : world) (hook_data : dict) (content : value)
  : list event -> result * list event :=
  if negb (truthy content) then return_ hook_data else
  step hook_data
    match content with
    | VStr c => ret (extract_code_patterns c)
    | _ => raise TypeError               (* re.findall on what is no text *)
    end (fun patterns =>
  step hook_data (collect_issues w patterns) (fun validation_issues =>
  match validation_issues with
  | _ :: _ =>
      let hook_data :=
        <[txt "validation_warnings" := VList (issue_value <$> validation_issues)]>
          hook_data in
      step hook_data (log_warnings w validation_issues) (fun _ =>
      return_ hook_data)
  | [] => return_ hook_data
  end)).

Definition main (w : world) (hook_data : dict)
  : list event -> result * list event :=
  let tool_name := dict_get hook_data (txt "tool_name") (VStr []) in
  if negb (value_in tool_name write_tools) then return_ hook_data else
  let params := dict_get hook_data (txt "params") (VDict ∅) in
  step hook_data (get params (txt "file_path") (VStr [])) (fun file_path =>
  step hook_data (value_endswith file_path ts_suffixes) (fun is_ts =>
  if negb is_ts then return_ hook_data else
  step hook_data (resolve_content tool_name params) (fun content =>
  validate w hook_data content))).

End Faulty.

(* ===================================================================== *)
(** * What the statements are written with *)
(* ===================================================================== *)

(** [sub] occurs in [s]. *)
Definition occurs_in (sub s : str) : Prop :=
  exists pre post, s = pre ++ sub ++ post.

(** The record of the scenario of the specification, which is the test
    record at the end of the source as well. *)
Definition scenario_record : dict :=
  <[txt "tool_name" := VStr (txt "Write")]>
  (<[txt "params" :=
       VDict (<[txt "file_path" := VStr (txt "test.service.ts")]>
              (<[txt "content" :=
                   VStr (txt "this.authService.loginWithMagicLink()")]> ∅))]>
   ∅).

(** A gate of [main] fails on a record: the tool is not one that writes,
    the path does not end with a suffix of the list, or the text to
    validate is empty.  The fields are read as [main] reads them, with its
    defaults for the keys that are missing. *)
Inductive gated (hook_data : dict) : Prop :=
  | gated_tool :
      value_in (dict_get hook_data (txt "tool_name") (VStr [])) write_tools
      = false ->
      gated hook_data
  | gated_file (params : dict) (file_path : str) :
      dict_get hook_data (txt "params") (VDict ∅) = VDict params ->
      dict_get params (txt "file_path") (VStr []) = VStr file_path ->
      endswith_any file_path ts_suffixes = false ->
      gated hook_data
  | gated_content (params : dict) (file_path : str) (content : value) :
      dict_get hook_data (txt "params") (VDict ∅) = VDict params ->
      dict_get params (txt "file_path") (VStr []) = VStr file_path ->
      (forall log,
         resolve_content (dict_get hook_data (txt "tool_name") (VStr []))
           (VDict params) log = (Return content, log)) ->
      truthy content = false ->
      gated hook_data.

(** The key of [params] that holds the text, for each tool. *)
Definition content_key (tool_name : value) : option str :=
  if value_is tool_name (txt "Write") then Some (txt "content")
  else if value_is tool_name (txt "Edit") then Some (txt "new_string")
  else if value_is tool_name (txt "MultiEdit") then Some (txt "edits")
  else None.

(** A key that [main] reads is missing from a record that is otherwise of
    the shape [main] expects. *)
Inductive lacks_key (hook_data : dict) : Prop :=
  | lacks_tool_name :
      hook_data !! txt "tool_name" = None ->
      lacks_key hook_data
  | lacks_params :
      hook_data !! txt "params" = None ->
      lacks_key hook_data
  | lacks_file_path (params : dict) :
      hook_data !! txt "params" = Some (VDict params) ->
      params !! txt "file_path" = None ->
      lacks_key hook_data
  | lacks_content (params : dict) (file_path key : str) :
      hook_data !! txt "params" = Some (VDict params) ->
      params !! txt "file_path" = Some (VStr file_path) ->
      content_key (dict_get hook_data (txt "tool_name") (VStr [])) = Some key ->
      params !! key = None ->
      lacks_key hook_data.

(** The shape of an invocation record: [params], when present, is a
    dictionary in which [file_path], [content] and [new_string], when
    present, are texts and [edits], when present, is a list of
    dictionaries whose [new_string], when present, is a text. *)
Definition text_or_absent (o : option value) : Prop :=
  match o with
  | Some (VStr _) | None => True
  | Some _ => False
  end.

Definition edit_shaped (v : value) : Prop :=
  match v with
  | VDict d => text_or_absent (d !! txt "new_string")
  | _ => False
  end.

Definition params_shaped (params : dict) : Prop :=
  text_or_absent (params !! txt "file_path")
  /\ text_or_absent (params !! txt "content")
  /\ text_or_absent (params !! txt "new_string")
  /\ match params !! txt "edits" with
     | Some (VList edits) => Forall edit_shaped edits
     | None => True
     | Some _ => False
     end.

Definition well_shaped (hook_data : dict) : Prop :=
  match hook_data !! txt "params" with
  | Some (VDict params) => params_shaped params
  | None => True
  | Some _ => False
  end.

(** The gates of [main] let the record through, with [content] as the text
    that is validated. *)
Definition validates (hook_data : dict) (content : str) : Prop :=
  exists params file_path,
    value_in (dict_get hook_data (txt "tool_name") (VStr [])) write_tools
    = true
    /\ dict_get hook_data (txt "params") (VDict ∅) = VDict params
    /\ dict_get params (txt "file_path") (VStr []) = VStr file_path
    /\ endswith_any file_path ts_suffixes = true
    /\ (forall log,
          resolve_content (dict_get hook_data (txt "tool_name") (VStr []))
            (VDict params) log = (Return (VStr content), log))
    /\ content <> [].

(** The validation issues that a call of [main] collects. *)
Definition collects (e : env) (hook_data : dict) (log : list event)
    (issues : list issue) : Prop :=
  exists content log',
    validates hook_data content
    /\ collect_issues e (extract_code_patterns content) log
       = (Return issues, log').

(** [e.get('new_string', '')] for a member of [edits] of the shape above. *)
Definition new_string_of (edit : value) : option str :=
  match edit with
  | VDict d =>
      match dict_get d (txt "new_string") (VStr []) with
      | VStr s => Some s
      | _ => None
      end
  | _ => None
  end.

(** A computation that leaves the log as it is, and whose result does not
    depend on it. *)
Definition effect_free {A} (m : io A) : Prop :=
  forall log, m log = ((m []).1, log).

(** A [Write] of a file that is no TypeScript source. *)
Definition foo_txt_record : dict :=
  <[txt "tool_name" := VStr (txt "Write")]>
  (<[txt "params" :=
       VDict (<[txt "file_path" := VStr (txt "foo.txt")]>
              (<[txt "content" :=
                   VStr (txt "this.authService.loginWithMagicLink()")]> ∅))]>
   ∅).

(** A world without the directory of the tool, and one in which the tool
    answers every call with [stdout]. *)
Definition no_tool : env :=
  Env (fun _ _ => false) (fun _ _ _ _ => Failed []).

Definition tool_answers (stdout : str) : env :=
  Env (fun _ _ => true) (fun _ _ _ _ => Completed stdout []).

(** The number of the places of [s] at which [sub] starts. *)
Fixpoint occurrences (sub s : str) : nat :=
  (if startswith s sub then 1 else 0)
  + match s with
    | [] => 0
    | _ :: s' => occurrences sub s'
    end.

(** A component-decorator block with the body [body]. *)
Definition component_block (body : str) : str :=
  txt "@Component({" ++ body ++ txt "})".

(** The import line of the specification, and a text in which it stands
    after an import whose path is not closed. *)
Definition import_line : str := txt "import { A, B } from 'x/y'".

Definition unclosed_import : str :=
  txt "import {X} from '" ++ [newline] ++ import_line.

(** The record as lines 125-126 leave it: the issues are attached when there
    is at least one. *)
Definition attach_warnings (issues : list issue) (hook_data : dict) : dict :=
  match issues with
  | [] => hook_data
  | _ :: _ =>
      <[txt "validation_warnings" := VList (issue_value <$> issues)]> hook_data
  end.

(** The launch of the checker on a snippet, as an event. *)
Definition launch (code_snippet : str) : event :=
  Spawn [txt "npm"; txt "run"; txt "check"; code_snippet] antihall_dir 10.

(** The [full] fields of the service-call patterns of a list, in order. *)
Definition service_fulls (patterns : list pattern) : list str :=
  patterns ≫= (fun p => match p with
                        | ServiceMethod _ _ full => [full]
                        | _ => []
                        end).

(** The two issues that [main] can raise. *)
Definition hallucination (service method : str) : issue :=
  Issue (txt "hallucination")
    (txt "Method '" ++ method ++ txt "' not found in " ++ service)
    (txt "Check available methods with antiHall").

Definition violation : issue :=
  Issue (txt "pattern_violation")
    (txt "Component must use standalone: true")
    (txt "All FibreFlow components must be standalone").

(** The issues of the component patterns of a list, in order. *)
Definition violations (patterns : list pattern) : list issue :=
  patterns ≫= (fun p => match p with
                        | Component iss _ =>
                            if str_eqb iss (txt "missing_standalone")
                            then [violation] else []
                        | _ => []
                        end).

(** The lines that [main] prints for an issue, and the warning block. *)
Definition issue_lines (i : issue) : list event :=
  Printed (txt "  - " ++ message i)
  :: (if negb (bool_decide (suggestion i = []))
      then [Printed (txt "    " ++ hint_mark ++ txt " " ++ suggestion i)]
      else []).

Definition warning_block (issues : list issue) : list event :=
  Printed ([newline] ++ warning_mark ++ txt " antiHall Validation Warnings:")
  :: (issues ≫= issue_lines) ++ [Printed []].

Definition printed_for (issues : list issue) : list event :=
  match issues with
  | [] => []
  | _ :: _ => warning_block issues
  end.

(** A text of word characters, and the launch of the checker on a call
    [this.<w>Service.<method>()] made of two words. *)
Definition word_text (w : str) : Prop :=
  Forall (fun c => Re.accepts Re.Word c = true) w.

Definition checked_call (ev : event) : Prop :=
  exists w method,
    ev = launch (txt "this." ++ (w ++ txt "Service") ++ txt "." ++ method
                 ++ txt "()")
    /\ word_text w /\ w <> [] /\ word_text method /\ method <> [].

(** A [Write] of a component without the standalone marker, the third
    scenario of the specification. *)
Definition component_record : dict :=
  <[txt "tool_name" := VStr (txt "Write")]>
  (<[txt "params" :=
       VDict (<[txt "file_path" := VStr (txt "x.component.ts")]>
              (<[txt "content" :=
                   VStr (component_block (txt "selector: 'x'"))]> ∅))]>
   ∅).

(** The two quote characters, a text of white space, and an import
    statement as the import pattern reads it: between the parts any white
    space, line feeds as well, or none; the quote that closes need not be
    the one that opens. *)
Definition quotes : str := [chr "'"; dquote].

Definition space_text (s : str) : Prop :=
  Forall (fun c => isspace c = true) s.

Definition import_statement
    (ws1 imported ws2 ws3 : str) (q1 : char) (path : str) (q2 : char) : str :=
  txt "import" ++ ws1 ++ txt "{" ++ imported ++ txt "}" ++ ws2 ++ txt "from"
  ++ ws3 ++ [q1] ++ path ++ [q2].

(** A world whose answers do not depend on what happened before. *)
Definition history_free (e : env) : Prop :=
  (forall log path, path_exists e log path = path_exists e [] path)
  /\ forall log args cwd timeout,
       subprocess_run e log args cwd timeout
       = subprocess_run e [] args cwd timeout.

(** What [main] hears of an answer of the checker: whether its stdout
    holds [does not exist].  An exception of the launch counts as
    silence. *)
Definition reports_missing (r : run_result) : bool :=
  match r with
  | Completed stdout _ => contains stdout (txt "does not exist")
  | Failed _ => false
  end.

(** A world in which every launch of the checker fails, as when [npm] is
    not installed or the timeout expires. *)
Definition tool_fails (description : str) : env :=
  Env (fun _ _ => true) (fun _ _ _ _ => Failed description).

(** An [Edit] that puts the import line of the specification into a
    TypeScript file. *)
Definition import_edit_record : dict :=
  <[txt "tool_name" := VStr (txt "Edit")]>
  (<[txt "params" :=
       VDict (<[txt "file_path" := VStr (txt "app.ts")]>
              (<[txt "old_string" := VStr (txt "// imports")]>
               (<[txt "new_string" := VStr import_line]> ∅)))]>
   ∅).

(** The text of a [MultiEdit] in the words of the specification: the
    replacement texts in the order of the list, with a line feed between
    each two neighbours.  It is written without [str_join]: every text is
    put behind a line feed, and the line feed before the first is taken
    off. *)
Definition joined_with_newlines (new_strings : list str) : str :=
  drop 1 (new_strings ≫= (fun s => newline :: s)).

(** A [MultiEdit] whose replacement texts make a component block only
    when they are joined; the second edit has no [new_string]. *)
Definition multiedit_component_record : dict :=
  <[txt "tool_name" := VStr (txt "MultiEdit")]>
  (<[txt "params" :=
       VDict (<[txt "file_path" := VStr (txt "app.component.ts")]>
              (<[txt "edits" :=
                   VList [VDict (<[txt "new_string" :=
                                     VStr (txt "@Component({")]> ∅);
                          VDict (<[txt "old_string" := VStr (txt "x")]> ∅);
                          VDict (<[txt "new_string" :=
                                     VStr (txt "selector: 'x'})")]> ∅)]]>
               ∅))]>
   ∅).



Definition ascii_stdout (e : env) : world :=
  World e (fun _ _ => None)
    (fun _ line =>
       if forallb (fun c => (code c <? 128)%N) line then None
       else Some UnicodeEncodeError).

(** What a call in the world without faults leaves, as a [Faulty.result]:
    a call that raises there has not changed the record. *)
Definition left_by (hook_data : dict) (o : outcome dict) : Faulty.result :=
  match o with
  | Return record => Faulty.Returned record
  | Raise x => Faulty.Raised x hook_data
  end.

(* ===================================================================== *)
(** * Texts *)
(* ===================================================================== *)

Section text_facts.
Implicit Types s t p sub : str.

Lemma str_eqb_eq s t : str_eqb s t = true <-> s = t.
Proof. unfold str_eqb. by rewrite bool_decide_eq_true. Qed.

Lemma startswith_prefix s p : startswith s p = true <-> p `prefix_of` s.
Proof.
  revert s. induction p as [|a p IH]; intros s; simpl.
  - split; [intros _; apply prefix_nil | done].
  - destruct s as [|b s]; simpl.
    + split; [done | intros H; by apply prefix_nil_inv in H].
    + rewrite andb_true_iff, bool_decide_eq_true, IH. split.
      * intros [-> H]. by apply prefix_cons.
      * intros H. split; [symmetry; by eapply prefix_cons_inv_1
                         | by eapply prefix_cons_inv_2].
Qed.

Lemma startswith_app s p : startswith (p ++ s) p = true.
Proof. apply startswith_prefix. by apply prefix_app_r. Qed.

Lemma endswith_suffix s p : endswith s p = true <-> p `suffix_of` s.
Proof.
  unfold endswith. rewrite andb_true_iff, Nat.leb_le, str_eqb_eq. split.
  - intros [_ H]. exists (take (length s - length p) s).
    by rewrite <- H at 2; rewrite take_drop.
  - intros [k ->]. rewrite length_app. split; [lia |].
    replace (length k + length p - length p) with (length k) by lia.
    by rewrite drop_app_length.
Qed.

Lemma contains_occurs s sub : contains s sub = true <-> occurs_in sub s.
Proof.
  induction s as [|c s IH]; simpl.
  - rewrite orb_false_r, startswith_prefix. split.
    + intros ->%prefix_nil_inv. by exists [], [].
    + intros (pre & post & H). symmetry in H.
      apply app_eq_nil in H as [-> [-> _]%app_eq_nil]. done.
  - rewrite orb_true_iff, startswith_prefix, IH. split.
    + intros [[k ->] | (pre & post & ->)].
      * by exists [], k.
      * by exists (c :: pre), post.
    + intros (pre & post & H). destruct pre as [|c' pre]; simpl in H.
      * left. by exists post.
      * right. injection H as _ ->. by exists pre, post.
Qed.

Lemma contains_occurs_false s sub :
  contains s sub = false <-> ~ occurs_in sub s.
Proof.
  rewrite <- contains_occurs. destruct (contains s sub); split; done.
Qed.

Lemma occurs_in_trans s t u : occurs_in s t -> occurs_in t u -> occurs_in s u.
Proof.
  intros (a & b & ->) (c & d & ->). exists (c ++ a), (b ++ d).
  by rewrite <- !(assoc_L (++)).
Qed.
End text_facts.

(* ===================================================================== *)
(** * The gate on the file *)
(* ===================================================================== *)

(** C10.  The test [file_path.endswith(('.ts', '.component.ts',
    '.service.ts'))] of [main] is the test [file_path.endswith('.ts')]: a
    path ends with one of the three suffixes exactly when it ends with
    [.ts], so the two longer suffixes add nothing and every [.ts] file
    passes the gate. *)
Theorem ts_gate_is_one_suffix (file_path : str) :
  endswith_any file_path ts_suffixes = endswith file_path (txt ".ts").
Proof.
  unfold endswith_any, ts_suffixes. cbn [existsb].
  destruct (endswith file_path (txt ".ts")) eqn:Hts; [done |].
  rewrite orb_false_r. cbn [orb].
  assert (Hno : forall longer, txt ".ts" `suffix_of` longer ->
                               endswith file_path longer = false).
  { intros longer Hsuf. destruct (endswith file_path longer) eqn:H; [|done].
    apply endswith_suffix in H.
    assert (Hlt : endswith file_path (txt ".ts") = true)
      by (apply endswith_suffix; by etrans).
    congruence. }
  rewrite !Hno; [done | by exists (txt ".service") | by exists (txt ".component")].
Qed.

(* ===================================================================== *)
(** * The external checker *)
(* ===================================================================== *)




(* ===================================================================== *)
(** * Reading the record *)
(* ===================================================================== *)

Lemma effect_free_ret {A} (a : A) : effect_free (ret a).
Proof. done. Qed.

Lemma effect_free_bind {A B} (m : io A) (f : A -> io B) :
  effect_free m -> (forall a, effect_free (f a)) -> effect_free (bind m f).
Proof.
  intros Hm Hf log. unfold bind. rewrite (Hm log).
  destruct (m []) as [[a|x] log0]; simpl; [|done].
  by rewrite (Hf a log), (Hf a log0).
Qed.

Lemma effect_free_get v key dflt : effect_free (get v key dflt).
Proof. destruct v; done. Qed.

Lemma effect_free_iterate v : effect_free (iterate v).
Proof. destruct v; done. Qed.

Lemma effect_free_join_values sep vs : effect_free (join_values sep vs).
Proof. unfold join_values. destruct (texts vs); done. Qed.

Lemma effect_free_for_each {A B} (f : A -> io B) (l : list A) :
  (forall a, effect_free (f a)) -> effect_free (for_each f l).
Proof.
  intros Hf. induction l as [|a l IH]; [done |].
  apply effect_free_bind; [done | intros b].
  apply effect_free_bind; [done | intros bs]. apply effect_free_ret.
Qed.

Lemma effect_free_resolve_content tool_name params :
  effect_free (resolve_content tool_name params).
Proof.
  unfold resolve_content.
  repeat case_match; auto using effect_free_get, effect_free_ret.
  apply effect_free_bind; [apply effect_free_get | intros edits].
  apply effect_free_bind; [apply effect_free_iterate | intros members].
  apply effect_free_bind; [| intros ?; apply effect_free_join_values].
  apply effect_free_for_each. intros ?. apply effect_free_get.
Qed.

(** [main] up to the text: the two gates passed, it resolves the text and
    validates it. *)
Lemma main_past_gates e hook_data params file_path log :
  value_in (dict_get hook_data (txt "tool_name") (VStr [])) write_tools = true ->
  dict_get hook_data (txt "params") (VDict ∅) = VDict params ->
  dict_get params (txt "file_path") (VStr []) = VStr file_path ->
  endswith_any file_path ts_suffixes = true ->
  main e hook_data log
  = bind (resolve_content (dict_get hook_data (txt "tool_name") (VStr []))
            (VDict params))
         (validate e hook_data) log.
Proof.
  intros Htool Hparams Hpath Hts. unfold main.
  rewrite Htool, Hparams. cbn [negb get]. unfold bind at 1, ret at 1.
  rewrite Hpath. cbn [value_endswith]. unfold bind at 1, ret at 1.
  by rewrite Hts.
Qed.

Lemma main_gated_tool e hook_data log :
  value_in (dict_get hook_data (txt "tool_name") (VStr [])) write_tools = false ->
  main e hook_data log = (Return hook_data, log).
Proof. intros H. unfold main. by rewrite H. Qed.

Lemma main_gated_file e hook_data params file_path log :
  dict_get hook_data (txt "params") (VDict ∅) = VDict params ->
  dict_get params (txt "file_path") (VStr []) = VStr file_path ->
  endswith_any file_path ts_suffixes = false ->
  main e hook_data log = (Return hook_data, log).
Proof.
  intros Hparams Hpath Hts. unfold main.
  destruct (value_in _ write_tools); [|done].
  rewrite Hparams. cbn [negb get]. unfold bind at 1, ret at 1.
  rewrite Hpath. cbn [value_endswith]. unfold bind at 1, ret at 1.
  by rewrite Hts.
Qed.

Lemma main_gated_content e hook_data params file_path content log :
  dict_get hook_data (txt "params") (VDict ∅) = VDict params ->
  dict_get params (txt "file_path") (VStr []) = VStr file_path ->
  (forall log,
     resolve_content (dict_get hook_data (txt "tool_name") (VStr []))
       (VDict params) log = (Return content, log)) ->
  truthy content = false ->
  main e hook_data log = (Return hook_data, log).
Proof.
  intros Hparams Hpath Hcontent Hfalsy.
  destruct (value_in (dict_get hook_data (txt "tool_name") (VStr []))
              write_tools) eqn:Htool;
    [|by apply main_gated_tool].
  destruct (endswith_any file_path ts_suffixes) eqn:Hts;
    [|by eapply main_gated_file].
  erewrite main_past_gates by done. unfold bind. rewrite Hcontent.
  unfold validate. by rewrite Hfalsy.
Qed.

Lemma dict_get_absent (d : dict) key dflt :
  d !! key = None -> dict_get d key dflt = dflt.
Proof. unfold dict_get. by intros ->. Qed.

Lemma dict_get_present (d : dict) key dflt v :
  d !! key = Some v -> dict_get d key dflt = v.
Proof. unfold dict_get. by intros ->. Qed.

Lemma resolve_content_absent tool_name params key log :
  content_key tool_name = Some key ->
  params !! key = None ->
  resolve_content tool_name (VDict params) log = (Return (VStr []), log).
Proof.
  unfold content_key, resolve_content. intros Hkey Hnone.
  repeat case_match; try done; injection Hkey as <-;
    cbn [get]; rewrite (dict_get_absent _ _ _ Hnone); done.
Qed.

Lemma lacks_key_gated hook_data : lacks_key hook_data -> gated hook_data.
Proof.
  intros [Htool | Hparams | params Hparams Hpath
          | params file_path key Hparams Hpath Hkey Hnone].
  - apply gated_tool. by rewrite (dict_get_absent _ _ _ Htool).
  - eapply (gated_file _ ∅ []); [by apply dict_get_absent | done | done].
  - eapply (gated_file _ params []);
      [by apply dict_get_present | by apply dict_get_absent | done].
  - eapply (gated_content _ params file_path (VStr []));
      [by apply dict_get_present | by apply dict_get_present | | done].
    intros log. by eapply resolve_content_absent.
Qed.

(* ===================================================================== *)
(** * The gates of main *)
(* ===================================================================== *)

(** C5.  [main] returns the record it was given, with the same fields and
    no [validation_warnings] added, and does nothing else (no process is
    launched, nothing is printed), whenever a gate fails: the tool is not
    [Write], [Edit] or [MultiEdit]; the path does not end with a suffix of
    the list; the text resolved is empty; or a key that [main] reads
    ([tool_name], [params], [file_path], the key of the text) is missing,
    in which case its default makes one of the gates fail. *)
Theorem main_returns_unchanged_when_gated
    (e : env) (hook_data : dict) (log : list event) :
  gated hook_data \/ lacks_key hook_data ->
  main e hook_data log = (Return hook_data, log).
Proof.
  intros [H | H%lacks_key_gated];
    destruct H as [Htool | params file_path Hparams Hpath Hts
                   | params file_path content Hparams Hpath Hcontent Hfalsy].
  all: eauto using main_gated_tool, main_gated_file, main_gated_content.
Qed.

Lemma main_returns_unchanged_when_gated_witness :
  main no_tool foo_txt_record [] = (Return foo_txt_record, []).
Proof.
  apply main_returns_unchanged_when_gated. left.
  apply (gated_file foo_txt_record
           (<[txt "file_path" := VStr (txt "foo.txt")]>
            (<[txt "content" :=
                 VStr (txt "this.authService.loginWithMagicLink()")]> ∅))
           (txt "foo.txt")); vm_compute; reflexivity.
Defined.

(* ===================================================================== *)
(** * The ways through main *)
(* ===================================================================== *)

Lemma validates_unique hook_data c1 c2 :
  validates hook_data c1 -> validates hook_data c2 -> c1 = c2.
Proof.
  intros (p1 & f1 & _ & Hp1 & _ & _ & Hc1 & _)
         (p2 & f2 & _ & Hp2 & _ & _ & Hc2 & _).
  rewrite Hp1 in Hp2. injection Hp2 as <-.
  specialize (Hc1 []). rewrite (Hc2 []) in Hc1. congruence.
Qed.

(** A call of [main] stops at a gate, raises before the text is resolved,
    or goes on to validate a text that is not empty. *)
Lemma main_cases e hook_data log :
  (main e hook_data log = (Return hook_data, log)
   /\ forall content, ~ validates hook_data content)
  \/ (exists x, main e hook_data log = (Raise x, log))
  \/ (exists content,
        validates hook_data content
        /\ main e hook_data log = validate e hook_data (VStr content) log).
Proof.
  destruct (value_in (dict_get hook_data (txt "tool_name") (VStr []))
              write_tools) eqn:Htool.
  2:{ left. split; [by apply main_gated_tool |].
      intros c (p & f & Ht & _). congruence. }
  destruct (dict_get hook_data (txt "params") (VDict ∅)) as [| | | | |l|params]
    eqn:Hparams.
  1-6: right; left; exists AttributeError; unfold main;
       rewrite Htool, Hparams; reflexivity.
  destruct (dict_get params (txt "file_path") (VStr [])) as [| | | |file_path| |]
    eqn:Hpath.
  1-4, 6-7: right; left; exists AttributeError; unfold main;
       rewrite Htool, Hparams; cbn [negb get]; unfold bind at 1, ret at 1;
       rewrite Hpath; reflexivity.
  destruct (endswith_any file_path ts_suffixes) eqn:Hts.
  2:{ left. split; [by eapply main_gated_file |].
      intros c (p & f & _ & Hp & Hf & Hs & _).
      rewrite Hparams in Hp. injection Hp as <-.
      rewrite Hpath in Hf. injection Hf as <-. congruence. }
  pose proof (effect_free_resolve_content
                (dict_get hook_data (txt "tool_name") (VStr []))
                (VDict params)) as Hfree.
  destruct (resolve_content (dict_get hook_data (txt "tool_name") (VStr []))
              (VDict params) []) as [[content|x] log0] eqn:Hres.
  2:{ right; left. exists x. erewrite main_past_gates by done.
      unfold bind. rewrite Hfree, Hres. reflexivity. }
  assert (Hcontent : forall log,
             resolve_content (dict_get hook_data (txt "tool_name") (VStr []))
               (VDict params) log = (Return content, log)).
  { intros log1. by rewrite Hfree, Hres. }
  destruct (truthy content) eqn:Htruthy.
  2:{ left. split; [by eapply main_gated_content |].
      intros c (p & f & _ & Hp & _ & _ & Hc & Hne).
      rewrite Hparams in Hp. injection Hp as <-.
      specialize (Hc []). rewrite (Hcontent []) in Hc.
      injection Hc as ->. simpl in Htruthy.
      by rewrite bool_decide_eq_false_2 in Htruthy. }
  destruct content as [| | | |c| |].
  1-4, 6-7: right; left; exists TypeError;
       erewrite main_past_gates by done; unfold bind at 1;
       rewrite Hcontent; unfold validate; rewrite Htruthy; reflexivity.
  right; right. exists c. split.
  - exists params, file_path. repeat split; try done.
    intros ->. done.
  - erewrite main_past_gates by done. unfold bind. by rewrite Hcontent.
Qed.

Lemma print_returns line log : print line log = (Return tt, log ++ [Printed line]).
Proof. done. Qed.

Lemma print_issue_returns i log :
  exists log', print_issue i log = (Return tt, log').
Proof.
  unfold print_issue, bind. rewrite print_returns.
  destruct (negb _); by eauto.
Qed.

Lemma for_each_returns {A B} (f : A -> io B) (l : list A) log :
  (forall a log, exists b log', f a log = (Return b, log')) ->
  exists bs log', for_each f l log = (Return bs, log').
Proof.
  intros Hf. revert log. induction l as [|a l IH]; intros log.
  - by exists [], log.
  - cbn [for_each]. unfold bind at 1.
    destruct (Hf a log) as (b & log1 & ->).
    unfold bind at 1. destruct (IH log1) as (bs & log2 & ->). by eauto.
Qed.

Lemma log_warnings_returns issues log :
  exists log', log_warnings issues log = (Return tt, log').
Proof.
  unfold log_warnings. unfold bind at 1. rewrite print_returns.
  unfold bind at 1.
  destruct (for_each_returns print_issue issues
              (log ++ [Printed ([newline] ++ warning_mark
                                ++ txt " antiHall Validation Warnings:")]))
    as (us & log1 & ->);
    [intros i l; destruct (print_issue_returns i l) as (l' & ->); by eauto |].
  rewrite print_returns. by eauto.
Qed.

Lemma validate_with_antihall_returns e snippet log :
  exists r log', validate_with_antihall e snippet log = (Return r, log').
Proof.
  unfold validate_with_antihall, bind, exists_, run, ret.
  destruct (path_exists e log antihall_dir); cbn [negb]; [|by eauto].
  destruct (subprocess_run _ _ _ _ _); by eauto.
Qed.

Lemma check_pattern_returns e p log :
  exists found log', check_pattern e p log = (Return found, log').
Proof.
  destruct p as [service method full | items path | iss code];
    cbn [check_pattern].
  - unfold bind.
    destruct (validate_with_antihall_returns e full log)
      as ([[out|] err] & log1 & ->); [|by eauto].
    destruct (_ && _); by eauto.
  - by eauto.
  - destruct (str_eqb _ _); by eauto.
Qed.

Lemma collect_issues_returns e patterns log :
  exists issues log', collect_issues e patterns log = (Return issues, log').
Proof.
  unfold collect_issues, bind.
  destruct (for_each_returns (check_pattern e) patterns log)
    as (found & log1 & ->); [apply check_pattern_returns |].
  by eauto.
Qed.

Lemma bind_ret {A B} (a : A) (f : A -> io B) log :
  bind (ret a) f log = f a log.
Proof. done. Qed.

Lemma bind_return {A B} (m : io A) (f : A -> io B) log a log1 :
  m log = (Return a, log1) -> bind m f log = f a log1.
Proof. unfold bind. by intros ->. Qed.

(** What [validate] does with a text that is not empty. *)
Lemma validate_text e hook_data content log issues log1 :
  content <> [] ->
  collect_issues e (extract_code_patterns content) log = (Return issues, log1) ->
  (issues = [] /\ validate e hook_data (VStr content) log = (Return hook_data, log1))
  \/ (issues <> []
      /\ exists log2,
           validate e hook_data (VStr content) log
           = (Return (<[txt "validation_warnings" :=
                          VList (issue_value <$> issues)]> hook_data), log2)).
Proof.
  intros Hne Hcollect. unfold validate. cbn [truthy].
  rewrite bool_decide_eq_false_2 by done. cbn [negb].
  rewrite bind_ret, (bind_return _ _ _ _ _ Hcollect).
  destruct issues as [|i issues].
  - by left.
  - right. split; [done |]. cbv zeta.
    destruct (log_warnings_returns (i :: issues) log1) as (log2 & Hlog).
    rewrite (bind_return _ _ _ _ _ Hlog). by eauto.
Qed.

Lemma text_or_absent_get (d : dict) key :
  text_or_absent (d !! key) -> exists s, dict_get d key (VStr []) = VStr s.
Proof.
  unfold dict_get. destruct (d !! key) as [[]|]; simpl; try done; by eauto.
Qed.

Lemma for_each_new_string edits log :
  Forall edit_shaped edits ->
  exists pieces,
    for_each (fun e => get e (txt "new_string") (VStr [])) edits log
    = (Return (VStr <$> pieces), log).
Proof.
  induction 1 as [|edit edits Hedit _ (pieces & IH)].
  - by exists [].
  - destruct edit as [| | | | | |d]; try done.
    destruct (text_or_absent_get d _ Hedit) as (s & Hs).
    exists (s :: pieces). cbn [for_each get].
    rewrite bind_ret, Hs. rewrite (bind_return _ _ _ _ _ IH). done.
Qed.

Lemma texts_strs pieces : texts (VStr <$> pieces) = Some pieces.
Proof.
  induction pieces as [|s pieces IH]; [done |].
  rewrite fmap_cons. cbn [texts]. by rewrite IH.
Qed.

Lemma value_in_write_tools tool_name :
  value_in tool_name write_tools = true ->
  tool_name = VStr (txt "Write") \/ tool_name = VStr (txt "Edit")
  \/ tool_name = VStr (txt "MultiEdit").
Proof.
  unfold value_in, write_tools. cbn [existsb].
  destruct tool_name; cbn [value_is]; try done.
  rewrite !orb_true_iff, !str_eqb_eq.
  intros [-> | [-> | [-> | ?]]]; auto; done.
Qed.

Lemma resolve_content_shaped tool_name params log :
  value_in tool_name write_tools = true ->
  params_shaped params ->
  exists s, resolve_content tool_name (VDict params) log = (Return (VStr s), log).
Proof.
  intros Htool (_ & Hcontent & Hnew & Hedits).
  apply value_in_write_tools in Htool as [-> | [-> | ->]].
  - destruct (text_or_absent_get _ _ Hcontent) as (s & Hs). exists s.
    unfold resolve_content. cbn [value_is]. unfold str_eqb.
    rewrite bool_decide_eq_true_2 by done. cbn [get]. by rewrite Hs.
  - destruct (text_or_absent_get _ _ Hnew) as (s & Hs). exists s.
    unfold resolve_content. cbn [value_is]. unfold str_eqb.
    rewrite bool_decide_eq_false_2 by done.
    rewrite bool_decide_eq_true_2 by done. cbn [get]. by rewrite Hs.
  - unfold resolve_content. cbn [value_is]. unfold str_eqb.
    rewrite !bool_decide_eq_false_2 by done.
    rewrite bool_decide_eq_true_2 by done. cbn [get]. unfold dict_get.
    destruct (params !! txt "edits") as [[| | | | |edits|]|]; try done.
    + destruct (for_each_new_string edits log Hedits) as (pieces & Hp).
      eexists. rewrite bind_ret. cbn [iterate]. rewrite bind_ret.
      rewrite (bind_return _ _ _ _ _ Hp). unfold join_values.
      rewrite texts_strs. reflexivity.
    + eexists. rewrite bind_ret. cbn [iterate]. rewrite bind_ret.
      cbn [for_each]. rewrite bind_ret. reflexivity.
Qed.

Lemma well_shaped_params hook_data :
  well_shaped hook_data ->
  exists params,
    dict_get hook_data (txt "params") (VDict ∅) = VDict params
    /\ params_shaped params.
Proof.
  unfold well_shaped, dict_get.
  destruct (hook_data !! txt "params") as [[| | | | | |params]|]; try done.
  - by exists params.
  - intros _. exists ∅. split; [done |]. unfold params_shaped.
    by rewrite !lookup_empty.
Qed.

Lemma main_returns e hook_data log :
  well_shaped hook_data ->
  exists r log', main e hook_data log = (Return r, log').
Proof.
  intros (params & Hparams & Hshape)%well_shaped_params.
  destruct (value_in (dict_get hook_data (txt "tool_name") (VStr []))
              write_tools) eqn:Htool.
  2:{ rewrite main_gated_tool by done. by eauto. }
  pose proof Hshape as (Hpath & _).
  destruct (text_or_absent_get _ _ Hpath) as (file_path & Hfile).
  destruct (endswith_any file_path ts_suffixes) eqn:Hts.
  2:{ erewrite main_gated_file by done. by eauto. }
  destruct (resolve_content_shaped _ params log Htool Hshape) as (s & Hs).
  erewrite main_past_gates, bind_return by done.
  destruct (decide (s = [])) as [-> | Hne]; [by eauto |].
  destruct (collect_issues_returns e (extract_code_patterns s) log)
    as (issues & log1 & Hc).
  destruct (validate_text e hook_data s log issues log1 Hne Hc)
    as [[_ ->] | [_ (log2 & ->)]]; by eauto.
Qed.

(* ===================================================================== *)
(** * main on the scenario of the specification *)
(* ===================================================================== *)

Lemma extract_scenario :
  extract_code_patterns (txt "this.authService.loginWithMagicLink()")
  = [ServiceMethod (txt "authService") (txt "loginWithMagicLink")
       (txt "this.authService.loginWithMagicLink()")].
Proof. vm_compute. reflexivity. Qed.

Lemma occurs_in_nonempty sub s : sub <> [] -> occurs_in sub s -> s <> [].
Proof.
  intros Hsub (pre & post & ->) H.
  apply app_eq_nil in H as [_ [H _]%app_eq_nil]. done.
Qed.

(** The record of the scenario passes the gates of [main]. *)
Lemma main_scenario_gates (e : env) (log : list event) :
  main e scenario_record log
  = validate e scenario_record
      (VStr (txt "this.authService.loginWithMagicLink()")) log.
Proof.
  erewrite (main_past_gates e scenario_record
              (<[txt "file_path" := VStr (txt "test.service.ts")]>
               (<[txt "content" :=
                    VStr (txt "this.authService.loginWithMagicLink()")]> ∅))
              (txt "test.service.ts"));
    [| vm_compute; reflexivity ..].
  rewrite (bind_return _ _ log
             (VStr (txt "this.authService.loginWithMagicLink()")) log);
    [done |].
  rewrite effect_free_resolve_content. vm_compute. reflexivity.
Qed.

(** The validation of its text, in a world where the checker reports that
    the method does not exist. *)
Lemma validate_scenario
    (e : env) (log log1 : list event) (stdout stderr : str) :
  validate_with_antihall e (txt "this.authService.loginWithMagicLink()") log
  = (Return (Some stdout, stderr), log1) ->
  occurs_in (txt "Method loginWithMagicLink does not exist") stdout ->
  validate e scenario_record
    (VStr (txt "this.authService.loginWithMagicLink()")) log
  = (Return
       (<[txt "validation_warnings" :=
            VList [VDict
                     (<[txt "type" := VStr (txt "hallucination")]>
                      (<[txt "message" :=
                           VStr (txt "Method 'loginWithMagicLink' not found in authService")]>
                       (<[txt "suggestion" :=
                            VStr (txt "Check available methods with antiHall")]>
                        ∅)))]]>
          scenario_record),
     log1
     ++ [Printed ([newline] ++ warning_mark
                  ++ txt " antiHall Validation Warnings:");
         Printed (txt "  - Method 'loginWithMagicLink' not found in authService");
         Printed (txt "    " ++ hint_mark
                  ++ txt " Check available methods with antiHall");
         Printed []]).
Proof.
  intros Hcheck Hout.
  assert (Hcontains : contains stdout (txt "does not exist") = true).
  { apply contains_occurs. eapply occurs_in_trans; [|exact Hout].
    exists (txt "Method loginWithMagicLink "), []. reflexivity. }
  assert (Hne : stdout <> []).
  { eapply occurs_in_nonempty; [|exact Hout]. done. }
  unfold validate.
  change (truthy (VStr (txt "this.authService.loginWithMagicLink()")))
    with true.
  cbn [negb]. rewrite bind_ret, extract_scenario.
  unfold collect_issues. cbn [for_each check_pattern].
  set (found := Issue (txt "hallucination")
                  (txt "Method '" ++ txt "loginWithMagicLink"
                   ++ txt "' not found in " ++ txt "authService")
                  (txt "Check available methods with antiHall")).
  rewrite (bind_return _ _ log [found] log1).
  2:{ rewrite (bind_return _ _ log [[found]] log1); [reflexivity |].
      rewrite (bind_return _ _ log [found] log1); [reflexivity |].
      rewrite (bind_return _ _ _ _ _ Hcheck).
      rewrite bool_decide_eq_false_2 by done. by rewrite Hcontains. }
  unfold log_warnings, print_issue, print, bind, ret. cbn.
  rewrite <- !(assoc_L (++)). reflexivity.
Qed.

(* ===================================================================== *)
(** * What main changes *)
(* ===================================================================== *)

(** C6.  A record that [main] returns differs from the one it was given in
    the field [validation_warnings] at most: every other field, [params]
    among them, is as it was.  The field is set, whatever it held, to the
    list of the issues exactly when the call collected at least one
    issue; otherwise the record is returned as it was.  On every record of
    the shape of an invocation record [main] does return. *)
Theorem main_changes_only_validation_warnings
    (e : env) (hook_data : dict) (log : list event) :
  (well_shaped hook_data ->
   exists r log', main e hook_data log = (Return r, log'))
  /\ forall r log',
       main e hook_data log = (Return r, log') ->
       (forall key, key <> txt "validation_warnings" ->
                    r !! key = hook_data !! key)
       /\ r !! txt "params" = hook_data !! txt "params"
       /\ ((exists issues,
              issues <> [] /\ collects e hook_data log issues
              /\ r = <[txt "validation_warnings" :=
                         VList (issue_value <$> issues)]> hook_data)
           \/ (r = hook_data
               /\ forall issues, collects e hook_data log issues ->
                                 issues = [])).
Proof.
  split; [apply main_returns |]. intros r log' Hmain.
  assert (Hwhich :
    (exists issues,
       issues <> [] /\ collects e hook_data log issues
       /\ r = <[txt "validation_warnings" :=
                  VList (issue_value <$> issues)]> hook_data)
    \/ (r = hook_data
        /\ forall issues, collects e hook_data log issues -> issues = [])).
  { destruct (main_cases e hook_data log)
      as [[Hm Hnone] | [(x & Hx) | (content & Hv & Hm)]].
    - right. split; [congruence |].
      intros issues (content & log1 & Hv & _). by destruct (Hnone content).
    - congruence.
    - pose proof Hv as (params & file_path & _ & _ & _ & _ & _ & Hne).
      destruct (collect_issues_returns e (extract_code_patterns content) log)
        as (issues & log1 & Hc).
      destruct (validate_text e hook_data content log issues log1 Hne Hc)
        as [[-> Hval] | [Hsome (log2 & Hval)]].
      + right. split; [congruence |].
        intros issues (content' & log1' & Hv' & Hc').
        rewrite (validates_unique _ _ _ Hv' Hv) in Hc'. congruence.
      + left. exists issues. split; [done |]. split; [|congruence].
        by exists content, log1. }
  split; [|split; [|done]].
  - intros key Hkey.
    destruct Hwhich as [(issues & _ & _ & ->) | [-> _]]; [|done].
    by rewrite lookup_insert_ne.
  - destruct Hwhich as [(issues & _ & _ & ->) | [-> _]]; [|done].
    by rewrite lookup_insert_ne.
Qed.

Lemma main_changes_only_validation_warnings_witness :
  (exists r log', main no_tool scenario_record [] = (Return r, log'))
  /\ (<[txt "validation_warnings" :=
          VList [VDict
                   (<[txt "type" := VStr (txt "hallucination")]>
                    (<[txt "message" :=
                         VStr (txt "Method 'loginWithMagicLink' not found in authService")]>
                     (<[txt "suggestion" :=
                          VStr (txt "Check available methods with antiHall")]>
                      ∅)))]]>
        scenario_record) !! txt "params"
     = scenario_record !! txt "params".
Proof.
  split.
  - apply (proj1 (main_changes_only_validation_warnings
                    no_tool scenario_record [])).
    vm_compute. tauto.
  - refine (proj1 (proj2 (proj2 (main_changes_only_validation_warnings
              (tool_answers (txt "Method loginWithMagicLink does not exist"))
              scenario_record []) _ _ _))).
    rewrite main_scenario_gates.
    apply (validate_scenario
             (tool_answers (txt "Method loginWithMagicLink does not exist"))
             []
             [Spawn [txt "npm"; txt "run"; txt "check";
                     txt "this.authService.loginWithMagicLink()"]
                antihall_dir 10]
             (txt "Method loginWithMagicLink does not exist") []).
    + reflexivity.
    + exists [], []. reflexivity.
Defined.

(* ===================================================================== *)
(** * The text of a MultiEdit *)
(* ===================================================================== *)

Lemma for_each_new_string_of edits new_strings log :
  mapM new_string_of edits = Some new_strings ->
  for_each (fun e => get e (txt "new_string") (VStr [])) edits log
  = (Return (VStr <$> new_strings), log).
Proof.
  revert new_strings. induction edits as [|edit edits IH]; intros new_strings.
  - intros [= <-]. done.
  - cbn [mapM]. intros H. apply bind_Some in H as (s & Hs & H).
    apply bind_Some in H as (ss & Hss & [= <-]).
    destruct edit as [| | | | | |d]; try done. cbn [new_string_of] in Hs.
    cbn [for_each get]. rewrite bind_ret.
    destruct (dict_get d (txt "new_string") (VStr [])); try done.
    injection Hs as ->. rewrite (bind_return _ _ _ _ _ (IH ss Hss)). done.
Qed.

Lemma str_join_cons (sep p : str) (pieces : list str) :
  str_join sep (p :: pieces) = p ++ (pieces ≫= (fun q => sep ++ q)).
Proof.
  revert p. induction pieces as [|q pieces IH]; intros p.
  - cbn [str_join]. csimpl. by rewrite app_nil_r.
  - change (str_join sep (p :: q :: pieces))
      with (p ++ sep ++ str_join sep (q :: pieces)).
    rewrite (IH q). csimpl. by rewrite <- (assoc_L (++)).
Qed.

(** The join of the code is the text of the specification. *)
Lemma str_join_newlines (pieces : list str) :
  str_join [newline] pieces = joined_with_newlines pieces.
Proof.
  unfold joined_with_newlines. destruct pieces as [|p pieces]; [done |].
  rewrite str_join_cons. csimpl. by rewrite drop_0.
Qed.

Lemma str_split_whole (sep : char) (p : str) :
  sep ∉ p -> str_split sep p = [p].
Proof.
  induction p as [|c p IH]; [done |]. intros Hp.
  apply not_elem_of_cons in Hp as [Hc Hp]. cbn [str_split].
  rewrite bool_decide_eq_false_2 by done. by rewrite IH.
Qed.

Lemma str_split_at (sep : char) (p rest : str) :
  sep ∉ p -> str_split sep (p ++ sep :: rest) = p :: str_split sep rest.
Proof.
  induction p as [|c p IH]; intros Hp.
  - cbn [app str_split]. by rewrite bool_decide_eq_true_2.
  - apply not_elem_of_cons in Hp as [Hc Hp]. cbn [app str_split].
    rewrite bool_decide_eq_false_2 by done. by rewrite IH.
Qed.

(** Splitting the joined text at the line feeds gives the texts back. *)
Lemma str_split_joined (pieces : list str) :
  pieces <> [] -> Forall (fun s => newline ∉ s) pieces ->
  str_split newline (joined_with_newlines pieces) = pieces.
Proof.
  unfold joined_with_newlines. destruct pieces as [|p pieces]; [done |].
  intros _ Hall. csimpl. rewrite drop_0. revert p Hall.
  induction pieces as [|q pieces IH]; intros p Hall.
  - csimpl. rewrite app_nil_r. apply str_split_whole.
    by apply Forall_cons_1 in Hall as [? _].
  - apply Forall_cons_1 in Hall as [Hp Hall]. csimpl.
    rewrite str_split_at by done. f_equal. by apply IH.
Qed.

(** C7.  For a [MultiEdit] of a TypeScript file whose [edits] is a list
    of dictionaries, the text that [main] validates is the [new_string] of
    every edit, in the order of the list, with a line feed between each
    two neighbours and none at the ends; an edit without a [new_string]
    contributes the empty text.  When no [new_string] holds a line feed,
    the lines of the text validated are the [new_string]s. *)
Theorem multiedit_validates_joined_new_strings
    (e : env) (hook_data params : dict) (file_path : str)
    (edits : list value) (new_strings : list str) (log : list event) :
  dict_get hook_data (txt "tool_name") (VStr []) = VStr (txt "MultiEdit") ->
  dict_get hook_data (txt "params") (VDict ∅) = VDict params ->
  dict_get params (txt "file_path") (VStr []) = VStr file_path ->
  endswith_any file_path ts_suffixes = true ->
  dict_get params (txt "edits") (VList []) = VList edits ->
  mapM new_string_of edits = Some new_strings ->
  resolve_content (VStr (txt "MultiEdit")) (VDict params) log
  = (Return (VStr (joined_with_newlines new_strings)), log)
  /\ main e hook_data log
     = validate e hook_data (VStr (joined_with_newlines new_strings)) log
  /\ (new_strings <> [] ->
      Forall (fun s => newline ∉ s) new_strings ->
      str_split newline (joined_with_newlines new_strings) = new_strings).
Proof.
  intros Htool Hparams Hpath Hts Hedits Hnew.
  assert (Hres : forall log,
    resolve_content (VStr (txt "MultiEdit")) (VDict params) log
    = (Return (VStr (joined_with_newlines new_strings)), log)).
  { intros log1. unfold resolve_content. cbn [value_is]. unfold str_eqb.
    rewrite !bool_decide_eq_false_2 by done.
    rewrite bool_decide_eq_true_2 by done. cbn [get].
    rewrite bind_ret, Hedits. cbn [iterate]. rewrite bind_ret.
    rewrite (bind_return _ _ _ _ _ (for_each_new_string_of _ _ _ Hnew)).
    unfold join_values. by rewrite texts_strs, str_join_newlines. }
  split; [done |]. split; [|apply str_split_joined].
  erewrite main_past_gates; [| by rewrite Htool | done..].
  rewrite Htool. by rewrite (bind_return _ _ _ _ _ (Hres log)).
Qed.

(* ===================================================================== *)
(** * The scenario of the specification *)
(* ===================================================================== *)

(** C3.  [main] on the record [{tool_name: "Write", params: {file_path:
    "test.service.ts", content: "this.authService.loginWithMagicLink()"}}],
    in a world where the checker, asked about the call found, returns a
    stdout in which [Method loginWithMagicLink does not exist] occurs,
    returns the record with [validation_warnings] set to the list of the
    one issue [{type: "hallucination", message: "Method
    'loginWithMagicLink' not found in authService", suggestion: "Check
    available methods with antiHall"}], and prints the warning block. *)
Theorem scenario_reports_hallucination
    (e : env) (log log1 : list event) (stdout stderr : str) :
  validate_with_antihall e (txt "this.authService.loginWithMagicLink()") log
  = (Return (Some stdout, stderr), log1) ->
  occurs_in (txt "Method loginWithMagicLink does not exist") stdout ->
  main e scenario_record log
  = (Return
       (<[txt "validation_warnings" :=
            VList [VDict
                     (<[txt "type" := VStr (txt "hallucination")]>
                      (<[txt "message" :=
                           VStr (txt "Method 'loginWithMagicLink' not found in authService")]>
                       (<[txt "suggestion" :=
                            VStr (txt "Check available methods with antiHall")]>
                        ∅)))]]>
          scenario_record),
     log1
     ++ [Printed ([newline] ++ warning_mark
                  ++ txt " antiHall Validation Warnings:");
         Printed (txt "  - Method 'loginWithMagicLink' not found in authService");
         Printed (txt "    " ++ hint_mark
                  ++ txt " Check available methods with antiHall");
         Printed []]).
Proof.
  intros Hcheck Hout. rewrite main_scenario_gates.
  exact (validate_scenario e log log1 stdout stderr Hcheck Hout).
Qed.

Lemma scenario_reports_hallucination_witness :
  (main (tool_answers (txt "Error: Method loginWithMagicLink does not exist"))
     scenario_record []).1
  = Return
      (<[txt "validation_warnings" :=
           VList [VDict
                    (<[txt "type" := VStr (txt "hallucination")]>
                     (<[txt "message" :=
                          VStr (txt "Method 'loginWithMagicLink' not found in authService")]>
                      (<[txt "suggestion" :=
                           VStr (txt "Check available methods with antiHall")]>
                       ∅)))]]>
         scenario_record).
Proof.
  rewrite (scenario_reports_hallucination
             (tool_answers
                (txt "Error: Method loginWithMagicLink does not exist"))
             []
             [Spawn [txt "npm"; txt "run"; txt "check";
                     txt "this.authService.loginWithMagicLink()"]
                antihall_dir 10]
             (txt "Error: Method loginWithMagicLink does not exist") []).
  - reflexivity.
  - reflexivity.
  - exists (txt "Error: "), []. reflexivity.
Defined.

(* ===================================================================== *)
(** * The matcher *)
(* ===================================================================== *)

Import Re.

(** What a repetition that succeeds has taken. *)
Lemma rep_sound {A} k min s pos (cont : str -> nat -> option A) a :
  rep k min s pos cont = Some a ->
  exists taken rest,
    s = taken ++ rest
    /\ Forall (fun c => accepts k c = true) taken
    /\ min <= length taken
    /\ cont rest (pos + length taken) = Some a.
Proof.
  revert min pos. induction s as [|c s IH]; intros min pos; cbn [rep].
  - destruct min; [|done]. intros H. exists [], [].
    rewrite Nat.add_0_r. by repeat split.
  - assert (Hstop : match min with 0 => cont (c :: s) pos | S _ => None end
                    = Some a ->
            exists taken rest,
              c :: s = taken ++ rest
              /\ Forall (fun c => accepts k c = true) taken
              /\ min <= length taken
              /\ cont rest (pos + length taken) = Some a).
    { destruct min; [|done]. intros H. exists [], (c :: s).
      rewrite Nat.add_0_r. by repeat split. }
    destruct (accepts k c) eqn:Hc; [|done].
    destruct (rep k (pred min) s (S pos) cont) as [r|] eqn:Hrep; [|done].
    intros [= ->]. apply IH in Hrep as (taken & rest & -> & Hall & Hmin & Hk).
    exists (c :: taken), rest. cbn [length]. repeat split.
    + by constructor.
    + lia.
    + by rewrite <- Nat.add_succ_comm.
Qed.

(** A repetition takes all the characters it can when what follows
    succeeds after them. *)
Lemma rep_greedy {A} k min taken rest pos (cont : str -> nat -> option A) a :
  Forall (fun c => accepts k c = true) taken ->
  min <= length taken ->
  cont rest (pos + length taken) = Some a ->
  match rest with c :: _ => accepts k c = false | [] => True end ->
  rep k min (taken ++ rest) pos cont = Some a.
Proof.
  intros Hall. revert min pos.
  induction Hall as [|c taken Hc Hall IH]; intros min pos Hmin Hk Hrest.
  - cbn [length] in *. assert (min = 0) as -> by lia.
    rewrite Nat.add_0_r in Hk. cbn [app].
    destruct rest as [|c rest]; cbn [rep]; [done |]. by rewrite Hrest.
  - cbn [app rep length] in *. rewrite Hc.
    rewrite (IH (pred min) (S pos)); [done | lia | | done].
    by rewrite Nat.add_succ_comm.
Qed.

(** A literal text matches when the text starts with it. *)
Lemma exec_lit {A} p s pos marks (cont : str -> nat -> list (nat * nat) -> option A) :
  exec (lit p) s pos marks cont
  = if startswith s p then cont (drop (length p) s) (pos + length p) marks
    else None.
Proof.
  revert s pos. induction p as [|c p IH]; intros s pos.
  - cbn. by rewrite Nat.add_0_r.
  - cbn [lit exec startswith length]. destruct s as [|b s]; [done |].
    cbn [accepts drop]. destruct (bool_decide (b = c)); [|done].
    cbn [andb]. rewrite IH. by rewrite Nat.add_succ_comm.
Qed.

Lemma exec_lit_app {A} p rest pos marks
    (cont : str -> nat -> list (nat * nat) -> option A) :
  exec (lit p) (p ++ rest) pos marks cont = cont rest (pos + length p) marks.
Proof. by rewrite exec_lit, startswith_app, drop_app_length. Qed.

Lemma exec_lit_sound {A} p s pos marks
    (cont : str -> nat -> list (nat * nat) -> option A) a :
  exec (lit p) s pos marks cont = Some a ->
  exists rest, s = p ++ rest /\ cont rest (pos + length p) marks = Some a.
Proof.
  rewrite exec_lit. destruct (startswith s p) eqn:Hp; [|done].
  apply startswith_prefix in Hp as [rest ->]. rewrite drop_app_length.
  by exists rest.
Qed.

(** [s[a:b]] of a text put together from three parts. *)
Lemma slice_app (x y z : str) :
  slice (x ++ y ++ z) (length x) (length x + length y) = y.
Proof.
  unfold slice. rewrite drop_app_length.
  replace (length x + length y - length x) with (length y) by lia.
  by rewrite take_app_length.
Qed.

(** The matches of a scan are matches at positions of the text. *)
Lemma scan_match r s skip m :
  m ∈ scan r s skip ->
  exists pre post, s = pre ++ post /\ match_at r post = Some m.
Proof.
  revert skip. induction s as [|c s IH]; intros skip.
  - destruct skip; cbn [scan]; [|by intros ?%elem_of_nil].
    destruct (match_at r []) as [m'|] eqn:Hm; [|by intros ?%elem_of_nil].
    intros ->%list_elem_of_singleton. by exists [], [].
  - destruct skip as [|n]; cbn [scan].
    + destruct (match_at r (c :: s)) as [m'|] eqn:Hm.
      * intros [-> | Hin]%elem_of_cons; [by exists [], (c :: s) |].
        apply IH in Hin as (pre & post & -> & H). by exists (c :: pre), post.
      * intros (pre & post & -> & H)%IH. by exists (c :: pre), post.
    + intros (pre & post & -> & H)%IH. by exists (c :: pre), post.
Qed.

(** Where the pattern matches nowhere the scan finds nothing. *)
Lemma scan_nothing r s skip :
  (forall pre post, s = pre ++ post -> match_at r post = None) ->
  scan r s skip = [].
Proof.
  revert skip. induction s as [|c s IH]; intros skip Hno.
  - destruct skip; cbn [scan]; [|done]. by rewrite (Hno [] []).
  - assert (Hs : forall pre post, s = pre ++ post -> match_at r post = None).
    { intros pre post ->. by apply (Hno (c :: pre)). }
    destruct skip; cbn [scan]; [|by apply IH].
    rewrite (Hno [] (c :: s)) by done. by apply IH.
Qed.

(* ===================================================================== *)
(** * The service-call pattern *)
(* ===================================================================== *)

Lemma accepts_lit c d : accepts (Lit d) c = true -> c = d.
Proof. cbn. by intros ?%bool_decide_eq_true. Qed.

Lemma match_service_head post :
  match_at service_re (txt "this.fooService.bar(" ++ post)
  = Some (Match (txt "this.fooService.bar(") [txt "fooService"; txt "bar"]).
Proof. vm_compute. reflexivity. Qed.

Lemma slice_at (x y z : str) a b :
  a = length x -> b = length x + length y -> slice (x ++ y ++ z) a b = y.
Proof. intros -> ->. apply slice_app. Qed.

Lemma take_prefix (x z : str) n : n = length x -> take n (x ++ z) = x.
Proof. intros ->. apply take_app_length. Qed.

(** A match of the pattern is [this.<w>Service.<method>(] with two
    words that are not empty. *)
Lemma match_service_shape s m :
  match_at service_re s = Some m ->
  exists w method rest,
    s = txt "this." ++ (w ++ txt "Service") ++ txt "." ++ method ++ txt "("
        ++ rest
    /\ Forall (fun c => accepts Word c = true) w /\ w <> []
    /\ Forall (fun c => accepts Word c = true) method /\ method <> []
    /\ m = Match (txt "this." ++ (w ++ txt "Service") ++ txt "." ++ method
                  ++ txt "(")
                 [w ++ txt "Service"; method].
Proof.
  unfold match_at, service_re, cat. cbn [foldr exec]. intros H.
  apply exec_lit_sound in H as (r1 & Hs & H). cbv beta in H.
  destruct r1 as [|c1 r1]; [done |].
  destruct (accepts (Lit (chr ".")) c1) eqn:Hc1; [|done].
  apply accepts_lit in Hc1 as ->.
  apply rep_sound in H as (w & r2 & -> & Hw & Hwlen & H).
  apply exec_lit_sound in H as (r3 & -> & H). cbv beta in H.
  destruct r3 as [|c3 r3]; [done |].
  destruct (accepts (Lit (chr ".")) c3) eqn:Hc3; [|done].
  apply accepts_lit in Hc3 as ->.
  apply rep_sound in H as (method & r4 & -> & Hm & Hmlen & H).
  destruct r4 as [|c4 r4]; [done |].
  destruct (accepts (Lit (chr "(")) c4) eqn:Hc4; [|done].
  apply accepts_lit in Hc4 as ->.
  injection H as <-.
  exists w, method, r4.
  assert (Hs' : s = txt "this." ++ (w ++ txt "Service") ++ txt "." ++ method
                    ++ txt "(" ++ r4).
  { rewrite Hs. cbn. by rewrite <- !(assoc_L (++)). }
  split; [done |]. split; [done |].
  split; [by intros ->; cbn in Hwlen; lia |]. split; [done |].
  split; [by intros ->; cbn in Hmlen; lia |].
  clear Hs. subst s. f_equal; [|f_equal; [|f_equal]].
  - rewrite !(assoc_L (++)). apply take_prefix.
    rewrite !length_app. cbn. lia.
  - apply (slice_at (txt "this.") (w ++ txt "Service")).
    + cbn. lia.
    + rewrite !length_app. cbn. lia.
  - rewrite (assoc_L (++) (txt "this.")), (assoc_L (++) _ (txt ".")).
    apply slice_at; rewrite !length_app; cbn; lia.
Qed.

(** Two texts that end with the same delimiter, which occurs nowhere else in
    them, and of which one starts inside the other, end together. *)
Lemma inner_occurrence_ends_together (d : char) (W F rest post : str) j :
  d ∉ W -> d ∉ F -> j <= length W ->
  drop j (W ++ d :: rest) = F ++ d :: post ->
  W = take j W ++ F.
Proof.
  intros HW HF Hj Hdrop.
  assert (Hlook : forall i, (W ++ d :: rest) !! (j + i) = (F ++ d :: post) !! i).
  { intros i. by rewrite <- Hdrop, lookup_drop. }
  assert (Hlen : j + length F = length W).
  { destruct (Nat.lt_trichotomy (j + length F) (length W)) as [Hlt | [? | Hgt]];
      [exfalso | done | exfalso].
    - specialize (Hlook (length F)).
      rewrite lookup_app_l in Hlook by done.
      rewrite list_lookup_middle in Hlook by done.
      apply HW. by eapply list_elem_of_lookup_2.
    - specialize (Hlook (length W - j)).
      replace (j + (length W - j)) with (length W) in Hlook by lia.
      rewrite list_lookup_middle in Hlook by done.
      rewrite lookup_app_l in Hlook by lia.
      apply HF. by eapply list_elem_of_lookup_2. }
  rewrite drop_app_le in Hdrop by done.
  apply app_inj_1 in Hdrop as [Hdrop _]; [|rewrite length_drop; lia].
  by rewrite <- Hdrop, take_drop.
Qed.

(** A text is split in one way at the first character that is not of a
    class. *)
Lemma span_unique (P : char -> Prop) (x y a b : str) (d : char) :
  Forall P x -> Forall P y -> ~ P d ->
  x ++ d :: a = y ++ d :: b -> x = y /\ a = b.
Proof.
  intros Hx. revert y. induction Hx as [|c x Hc Hx IH]; intros y Hy Hd.
  - destruct Hy as [|c' y Hc' Hy]; cbn; [by intros [= ->] |].
    intros [= <- _]. done.
  - destruct Hy as [|c' y Hc' Hy]; cbn.
    + intros [= -> _]. done.
    + intros [= -> H]. apply IH in H as [-> ->]; done.
Qed.

(** The same from the right: at the last such character. *)
Lemma span_unique_r (P : char -> Prop) (x y a b : str) (d : char) :
  Forall P x -> Forall P y -> ~ P d ->
  a ++ d :: x = b ++ d :: y -> a = b /\ x = y.
Proof.
  intros Hx Hy Hd H. apply (f_equal reverse) in H.
  rewrite !reverse_app, !reverse_cons, <- !(assoc_L (++)) in H. cbn in H.
  apply (span_unique P) in H as [H1 H2];
    [| by apply Forall_reverse | by apply Forall_reverse | done].
  split; [by apply (inj reverse) | by apply (inj reverse)].
Qed.

Lemma not_in_by_compute (c : char) (l : str) : char_in c l = false -> c ∉ l.
Proof. unfold char_in. by intros ?%bool_decide_eq_false. Qed.

Lemma not_in_word (c : char) (l : str) :
  accepts Word c = false -> Forall (fun c => accepts Word c = true) l -> c ∉ l.
Proof.
  intros Hc Hl Hin. eapply Forall_forall in Hl; [|done]. congruence.
Qed.

Lemma word_service w :
  Forall (fun c => accepts Word c = true) w ->
  Forall (fun c => accepts Word c = true) (w ++ txt "Service").
Proof. intros H. apply Forall_app. split; [done |]. by repeat constructor. Qed.

(** No call [this.fooService.bar(] starts inside a match of the pattern. *)
Lemma service_no_inner_occurrence s m j :
  match_at service_re s = Some m ->
  0 < j < length (whole m) ->
  startswith (drop j s) (txt "this.fooService.bar(") = false.
Proof.
  intros (w & method & rest & -> & Hw%word_service & _ & Hm & _ & ->)
    %match_service_shape. cbn [whole]. intros Hj.
  destruct (startswith _ _) eqn:Hstart; [exfalso | done].
  apply startswith_prefix in Hstart as [post Hpost].
  set (S := w ++ txt "Service") in *.
  set (W := txt "this." ++ S ++ txt "." ++ method).
  assert (HW : W = take j W ++ txt "this.fooService.bar").
  { apply (inner_occurrence_ends_together (chr "(") W _ rest post).
    - unfold W. rewrite !not_elem_of_app. repeat split.
      + by apply not_in_by_compute.
      + by apply not_in_word.
      + by apply not_in_by_compute.
      + by apply not_in_word.
    - by apply not_in_by_compute.
    - revert Hj. unfold W. rewrite !length_app. cbn. lia.
    - change (txt "this.fooService.bar" ++ chr "(" :: post)
        with (txt "this.fooService.bar(" ++ post).
      rewrite <- Hpost. unfold W. f_equal.
      rewrite <- !(assoc_L (++)). done. }
  assert (Hjlen : length (take j W) = j).
  { apply length_take_le. revert Hj. unfold W. rewrite !length_app. cbn. lia. }
  revert HW. generalize (take j W) Hjlen. intros X HX. unfold W.
  change (txt "this." ++ S ++ txt "." ++ method)
    with ((txt "this" ++ chr "." :: S) ++ chr "." :: method) .
  change (X ++ txt "this.fooService.bar")
    with (X ++ (txt "this" ++ chr "." :: txt "fooService")
            ++ chr "." :: txt "bar").
  rewrite <- !(assoc_L (++)).
  rewrite (assoc_L (++) X (txt "this")), !(assoc_L (++) _ _ (_ :: _)).
  intros H.
  apply (span_unique_r (fun c => accepts Word c = true)) in H as [H _];
    [| done | by repeat constructor | done].
  apply (span_unique_r (fun c => accepts Word c = true)) in H as [H _];
    [| done | by repeat constructor | done].
  apply (f_equal length) in H. rewrite length_app in H. cbn in H. lia.
Qed.

Lemma match_service_foo_bar s m :
  match_at service_re s = Some m ->
  (group m 1 = txt "fooService" /\ group m 2 = txt "bar")
  <-> startswith s (txt "this.fooService.bar(") = true.
Proof.
  intros Hm. split.
  - apply match_service_shape in Hm
      as (w & method & rest & -> & _ & _ & _ & _ & ->).
    unfold group. cbn. intros [-> ->]. by vm_compute.
  - intros [post ->]%startswith_prefix.
    rewrite match_service_head in Hm. by injection Hm as <-.
Qed.

Lemma service_pattern_foo_bar service method :
  service_pattern (service, method)
  = ServiceMethod (txt "fooService") (txt "bar") (txt "this.fooService.bar()")
  <-> service = txt "fooService" /\ method = txt "bar".
Proof.
  cbn [service_pattern]. split; [by intros [= -> ->] | by intros [-> ->]].
Qed.

(** The scan of a text finds every call [this.fooService.bar(] once. *)
Lemma scan_service_count s skip :
  (forall i, i < skip ->
             startswith (drop i s) (txt "this.fooService.bar(") = false) ->
  length (filter
            (fun p => p = ServiceMethod (txt "fooService") (txt "bar")
                            (txt "this.fooService.bar()"))
            (service_pattern
               <$> ((fun m => (group m 1, group m 2))
                      <$> scan service_re s skip)))
  = occurrences (txt "this.fooService.bar(") s.
Proof.
  revert skip. induction s as [|c s IH]; intros skip Hskip.
  - destruct skip; cbn [scan]; [|done].
    by replace (match_at service_re []) with (@None mtch)
      by (by vm_compute).
  - cbn [occurrences]. destruct skip as [|n]; cbn [scan].
    + destruct (match_at service_re (c :: s)) as [m|] eqn:Hm.
      * rewrite !fmap_cons, filter_cons.
        rewrite <- (IH (pred (length (whole m)))).
        2:{ intros i Hi. change (drop i s) with (drop (S i) (c :: s)).
            eapply service_no_inner_occurrence; [done | lia]. }
        pose proof (match_service_foo_bar _ _ Hm) as Hiff.
        rewrite <- service_pattern_foo_bar in Hiff.
        destruct (startswith (c :: s) _).
        -- rewrite decide_True by (by apply Hiff). done.
        -- rewrite decide_False; [done |]. intros H%Hiff. done.
      * destruct (startswith (c :: s) _) eqn:Hstart.
        -- apply startswith_prefix in Hstart as [post Hpost].
           rewrite Hpost, match_service_head in Hm. done.
        -- by rewrite (IH 0) by (intros; lia).
    + pose proof (Hskip 0 ltac:(lia)) as H0. cbn [drop] in H0. rewrite H0.
      apply IH. intros i Hi.
      apply (Hskip (S i)). lia.
Qed.

Lemma filter_none {A} (P : A -> Prop) `{!forall x, Decision (P x)} (l : list A) :
  Forall (fun x => ~ P x) l -> filter P l = [].
Proof.
  induction 1 as [|x l Hx _ IH]; [done |].
  by rewrite filter_cons, decide_False, IH.
Qed.

Lemma component_patterns_are_components comp p :
  p ∈ component_patterns comp -> exists iss code, p = Component iss code.
Proof.
  unfold component_patterns. destruct (negb _).
  - intros ->%list_elem_of_singleton. by eauto.
  - by intros ?%elem_of_nil.
Qed.

(** A pattern of the service kind comes from a match of the service
    pattern. *)
Lemma service_pattern_origin content service method full :
  ServiceMethod service method full ∈ extract_code_patterns content ->
  exists m,
    m ∈ finditer service_re content
    /\ service = group m 1 /\ method = group m 2
    /\ full = txt "this." ++ service ++ txt "." ++ method ++ txt "()".
Proof.
  unfold extract_code_patterns, findall2, findall0.
  rewrite !elem_of_app. intros [H | [H | H]].
  - apply list_elem_of_fmap in H as ([s1 m1] & Heq & H).
    apply list_elem_of_fmap in H as (m & [= -> ->] & H).
    cbn [service_pattern] in Heq. injection Heq as -> -> ->.
    by exists m.
  - apply list_elem_of_fmap in H as ([imported path] & Heq & _). done.
  - apply list_elem_of_bind in H as (comp & H & _).
    apply component_patterns_are_components in H as (? & ? & ?). done.
Qed.

(** The launch of [validate_with_antihall] where the directory exists. *)
Lemma validate_with_antihall_launches e code_snippet log :
  path_exists e log antihall_dir = true ->
  exists r,
    validate_with_antihall e code_snippet log
    = (Return r,
       log ++ [Spawn [txt "npm"; txt "run"; txt "check"; code_snippet]
                 antihall_dir 10]).
Proof.
  intros Hdir. unfold validate_with_antihall, bind, exists_, run, ret.
  rewrite Hdir. cbn [negb]. destruct (subprocess_run _ _ _ _ _); by eauto.
Qed.

(* ===================================================================== *)
(** * The calls of service methods *)
(* ===================================================================== *)

(** C1, as the specification states it, fails: the [full] field of the
    record for [this.fooService.bar(] is [this.fooService.bar()], with
    both parentheses, and not the text matched. *)
Lemma service_call_full_is_not_the_match :
  extract_code_patterns (txt "this.fooService.bar(")
  = [ServiceMethod (txt "fooService") (txt "bar")
       (txt "this.fooService.bar()")]
  /\ ServiceMethod (txt "fooService") (txt "bar") (txt "this.fooService.bar(")
     ∉ extract_code_patterns (txt "this.fooService.bar(").
Proof.
  assert (H : extract_code_patterns (txt "this.fooService.bar(")
              = [ServiceMethod (txt "fooService") (txt "bar")
                   (txt "this.fooService.bar()")])
    by (vm_compute; reflexivity).
  split; [done |]. rewrite H. by intros [=]%list_elem_of_singleton.
Qed.

(** C1, amended.  For every text, the records with [service =
    "fooService"], [method = "bar"] and [full = "this.fooService.bar()"]
    are as many as the places of the text where [this.fooService.bar(]
    starts: one record for each occurrence.  In general the [full] field
    of a service-call record is [this.<service>.<method>()], the text
    matched with a closing parenthesis added, the text matched
    [this.<service>.<method>(] occurs in the text, and it is [full] that
    [main] hands to the checker as the last argument of [npm run
    check]. *)
Theorem service_calls_extracted (content : str) :
  length (filter
            (fun p => p = ServiceMethod (txt "fooService") (txt "bar")
                            (txt "this.fooService.bar()"))
            (extract_code_patterns content))
  = occurrences (txt "this.fooService.bar(") content
  /\ (forall service method full,
        ServiceMethod service method full ∈ extract_code_patterns content ->
        full = txt "this." ++ service ++ txt "." ++ method ++ txt "()"
        /\ occurs_in (txt "this." ++ service ++ txt "." ++ method ++ txt "(")
             content)
  /\ (forall e log service method full,
        path_exists e log antihall_dir = true ->
        exists found,
          check_pattern e (ServiceMethod service method full) log
          = (Return found,
             log ++ [Spawn [txt "npm"; txt "run"; txt "check"; full]
                       antihall_dir 10])).
Proof.
  split; [|split].
  - unfold extract_code_patterns, findall2, findall0.
    rewrite !filter_app, !length_app.
    rewrite (filter_none _ (import_pattern <$> _)).
    2:{ apply Forall_fmap, Forall_forall. by intros [imported path] _. }
    rewrite (filter_none _ (_ ≫= component_patterns)).
    2:{ apply Forall_forall. intros p (comp & H & _)%list_elem_of_bind.
        apply component_patterns_are_components in H as (? & ? & ->). done. }
    cbn [length]. rewrite !Nat.add_0_r.
    apply scan_service_count. intros i Hi. lia.
  - intros service method full (m & Hm & -> & -> & ->)%service_pattern_origin.
    split; [done |].
    apply scan_match in Hm as (pre & post & -> & Hm).
    apply match_service_shape in Hm
      as (w & method & rest & -> & _ & _ & _ & _ & ->).
    unfold group. cbn [groups pred lookup list_lookup default from_option id].
    exists pre, rest. by rewrite <- !(assoc_L (++)).
  - intros e log service method full Hdir. cbn [check_pattern].
    destruct (validate_with_antihall_launches e full log Hdir)
      as ([stdout stderr] & Hv).
    rewrite (bind_return _ _ _ _ _ Hv).
    destruct stdout as [out|]; [|by eauto]. destruct (_ && _); by eauto.
Qed.

Lemma service_calls_extracted_witness :
  txt "this.userService.load()"
  = txt "this." ++ txt "userService" ++ txt "." ++ txt "load" ++ txt "()"
  /\ occurs_in (txt "this." ++ txt "userService" ++ txt "." ++ txt "load"
                ++ txt "(")
       (txt "x = this.userService.load(1);")
  /\ exists found,
       check_pattern (tool_answers (txt "ok"))
         (ServiceMethod (txt "userService") (txt "load")
            (txt "this.userService.load()")) []
       = (Return found,
          [] ++ [Spawn [txt "npm"; txt "run"; txt "check";
                        txt "this.userService.load()"] antihall_dir 10]).
Proof.
  pose proof (service_calls_extracted (txt "x = this.userService.load(1);"))
    as (_ & Hfull & Hcheck).
  destruct (Hfull (txt "userService") (txt "load")
              (txt "this.userService.load()")) as [H1 H2].
  { vm_compute. apply list_elem_of_here. }
  split; [exact H1 | split; [exact H2 | apply Hcheck; reflexivity]].
Defined.

(* ===================================================================== *)
(** * Scanning up to a place *)
(* ===================================================================== *)

(** When no match that starts in [pre] goes beyond it, the scan of
    [pre ++ rest] comes to [rest] as if it started there. *)
Lemma scan_reaches r pre rest skip :
  (forall i m, i < length pre ->
               match_at r (drop i pre ++ rest) = Some m ->
               i + length (whole m) <= length pre) ->
  skip <= length pre ->
  exists before, scan r (pre ++ rest) skip = before ++ scan r rest 0.
Proof.
  revert skip. induction pre as [|c pre IH]; intros skip Hin Hskip.
  - cbn [length] in Hskip. assert (skip = 0) as -> by lia. by exists [].
  - assert (Hin' : forall i m, i < length pre ->
                     match_at r (drop i pre ++ rest) = Some m ->
                     i + length (whole m) <= length pre).
    { intros i m Hi Hm. specialize (Hin (S i) m). cbn [length drop] in Hin.
      specialize (Hin ltac:(lia) Hm). lia. }
    cbn [length] in Hskip. destruct skip as [|n]; cbn [app scan].
    + destruct (match_at r (c :: pre ++ rest)) as [m|] eqn:Hm.
      * specialize (Hin 0 m). cbn [length drop app] in Hin.
        specialize (Hin ltac:(lia) Hm).
        destruct (IH (pred (length (whole m))) Hin' ltac:(lia))
          as (before & ->).
        by exists (m :: before).
      * by apply IH; [|lia].
    + by apply IH; [|lia].
Qed.

(** A keyword that the pattern starts with, that does not occur in [pre]
    and that no proper end of it starts, cannot start in [pre]. *)
Lemma keyword_not_before (kw pre rest : str) i :
  ~ occurs_in kw pre ->
  startswith rest kw = true ->
  (forall k, 0 < k < length kw -> startswith kw (drop k kw) = false) ->
  i < length pre ->
  startswith (drop i pre ++ rest) kw = false.
Proof.
  intros Hpre Hrest Hborder Hi.
  destruct (startswith (drop i pre ++ rest) kw) eqn:Hstart; [exfalso | done].
  apply startswith_prefix in Hstart. apply startswith_prefix in Hrest.
  assert (Ha : drop i pre `prefix_of` drop i pre ++ rest)
    by apply prefix_app_r, reflexivity.
  destruct (prefix_weak_total _ _ _ Hstart Ha) as [[z Hz] | [y Hy]].
  - apply Hpre. exists (take i pre), z.
    by rewrite <- Hz, take_drop.
  - rewrite Hy in Hstart. apply prefix_app_inv in Hstart.
    assert (Hk : length (drop i pre) + length y = length kw)
      by (by rewrite <- length_app, <- Hy).
    rewrite length_drop in Hk.
    assert (Hy' : y = drop (length pre - i) kw).
    { by rewrite Hy, <- (length_drop pre i), drop_app_length. }
    destruct (decide (y = [])) as [-> | Hne].
    + apply Hpre. exists (take i pre), [].
      rewrite app_nil_r in Hy. by rewrite Hy, app_nil_r, take_drop.
    + assert (Hlen : 0 < length y) by (destruct y; [done | cbn; lia]).
      assert (Hyk : y `prefix_of` kw).
      { destruct (prefix_weak_total _ _ _ Hstart Hrest) as [H | H]; [done |].
        apply prefix_length in H. lia. }
      apply startswith_prefix in Hyk. rewrite Hy' in Hyk.
      rewrite Hborder in Hyk; [done | lia].
Qed.

(** Where the pattern matches at no place of [pre], the scan of
    [pre ++ rest] is the scan of [rest]. *)
Lemma scan_skips r pre rest :
  (forall i, i < length pre -> match_at r (drop i pre ++ rest) = None) ->
  scan r (pre ++ rest) 0 = scan r rest 0.
Proof.
  induction pre as [|c pre IH]; intros Hno; [done |].
  pose proof (Hno 0 ltac:(cbn; lia)) as H0. cbn [drop app] in H0.
  cbn [app scan]. rewrite H0.
  apply IH. intros i Hi. apply (Hno (S i)). cbn. lia.
Qed.

(** After a match the scan goes on behind it. *)
Lemma scan_behind r x rest : scan r (x ++ rest) (length x) = scan r rest 0.
Proof. induction x as [|c x IH]; [done | by cbn [app length scan]]. Qed.

Lemma scan_match_head r s m rest :
  match_at r s = Some m -> whole m <> [] -> s = whole m ++ rest ->
  scan r s 0 = m :: scan r rest 0.
Proof.
  intros Hm Hne Hs. destruct (whole m) as [|c x] eqn:Hw; [done |].
  rewrite Hs in *. cbn [app scan]. cbn [app] in Hm. rewrite Hm, Hw.
  cbn [length pred]. by rewrite scan_behind.
Qed.

(* ===================================================================== *)
(** * The component pattern *)
(* ===================================================================== *)

Lemma accepts_none_of l c : accepts (NoneOf l) c = true <-> c ∉ l.
Proof.
  cbn. unfold char_in. rewrite negb_true_iff. apply bool_decide_eq_false.
Qed.

(** A match of the pattern is a block whose body is not empty and holds
    no closing brace. *)
Lemma match_component_shape s m :
  match_at component_re s = Some m ->
  exists body rest,
    s = component_block body ++ rest
    /\ body <> [] /\ (chr "}" ∉ body)
    /\ m = Match (component_block body) [].
Proof.
  unfold match_at, component_re, cat. cbn [foldr exec]. intros H.
  apply exec_lit_sound in H as (r1 & Hs & H). cbv beta in H.
  destruct r1 as [|c1 r1]; [done |].
  destruct (accepts (Lit (chr "(")) c1) eqn:Hc1; [|done].
  apply accepts_lit in Hc1 as ->.
  destruct r1 as [|c2 r1]; [done |].
  destruct (accepts (Lit (chr "{")) c2) eqn:Hc2; [|done].
  apply accepts_lit in Hc2 as ->.
  apply rep_sound in H as (body & r2 & -> & Hbody & Hlen & H).
  destruct r2 as [|c3 r2]; [done |].
  destruct (accepts (Lit (chr "}")) c3) eqn:Hc3; [|done].
  apply accepts_lit in Hc3 as ->.
  destruct r2 as [|c4 r2]; [done |].
  destruct (accepts (Lit (chr ")")) c4) eqn:Hc4; [|done].
  apply accepts_lit in Hc4 as ->.
  injection H as <-. exists body, r2.
  assert (Hs' : s = component_block body ++ r2).
  { rewrite Hs. unfold component_block. cbn.
    by rewrite <- !(assoc_L (++)). }
  split; [done |]. split; [by intros ->; cbn in Hlen; lia |].
  split.
  - intros Hin. eapply Forall_forall in Hbody; [|done].
    apply accepts_none_of in Hbody. apply Hbody. by apply list_elem_of_here.
  - rewrite Hs'. f_equal. apply take_prefix.
    unfold component_block. rewrite !length_app. cbn. lia.
Qed.

(** And every such block is matched where it starts. *)
Lemma match_component_head body rest :
  body <> [] -> chr "}" ∉ body ->
  match_at component_re (component_block body ++ rest)
  = Some (Match (component_block body) []).
Proof.
  intros Hne Hbody. unfold match_at, component_re, cat. cbn [foldr exec].
  unfold component_block at 1.
  change (txt "@Component({") with (txt "@Component" ++ txt "({").
  rewrite <- !(assoc_L (++)). rewrite exec_lit_app. cbn [app txt].
  change (accepts (Lit (chr "(")) (chr "(")) with true.
  change (accepts (Lit (chr "{")) (chr "{")) with true. cbv iota.
  erewrite (rep_greedy _ _ body); [reflexivity | | | | done].
  - apply Forall_forall. intros c Hc. apply accepts_none_of.
    intros ->%list_elem_of_singleton. done.
  - destruct body; [done | cbn; lia].
  - cbn [app exec].
    change (accepts (Lit (chr "}")) (chr "}")) with true.
    change (accepts (Lit (chr ")")) (chr ")")) with true. cbv iota.
    do 2 f_equal. apply take_prefix.
    unfold component_block. rewrite !length_app. cbn. lia.
Qed.

Lemma match_component_keyword s m :
  match_at component_re s = Some m -> startswith s (txt "@Component({") = true.
Proof.
  intros (body & rest & -> & _)%match_component_shape.
  unfold component_block. rewrite <- !(assoc_L (++)). apply startswith_app.
Qed.

Lemma component_keyword_borderless k :
  0 < k < length (txt "@Component({") ->
  startswith (txt "@Component({") (drop k (txt "@Component({")) = false.
Proof.
  intros Hk. do 12 (destruct k as [|k]; [by (lia || reflexivity) |]).
  cbn in Hk. lia.
Qed.

(** A block before which no decorator starts is the first block found. *)
Lemma findall_component_block pre body post :
  body <> [] -> chr "}" ∉ body -> ~ occurs_in (txt "@Component({") pre ->
  findall0 component_re (pre ++ component_block body ++ post)
  = component_block body :: findall0 component_re post.
Proof.
  intros Hne Hbody Hpre. unfold findall0, finditer.
  rewrite scan_skips.
  - rewrite (scan_match_head _ _ (Match (component_block body) []) post);
      [done | by apply match_component_head | done | done].
  - intros i Hi.
    destruct (match_at component_re _) as [m|] eqn:Hm; [exfalso | done].
    apply match_component_keyword in Hm.
    rewrite keyword_not_before in Hm; [done | done | | | done].
    + unfold component_block. rewrite <- !(assoc_L (++)). apply startswith_app.
    + apply component_keyword_borderless.
Qed.

(* ===================================================================== *)
(** * Components without the standalone marker *)
(* ===================================================================== *)

(** C2, as the specification states it, fails.  A decorator named
    [Component] with a body between braces is taken by the scan only when
    the body is not empty and holds no closing brace before the [})] that
    ends it.  The decorator with the empty body and the one whose body
    holds a pair of braces, in neither of which [standalone: true] occurs,
    give no record; and a decorator in which [standalone: true] stands
    behind an inner [})] gives a record, the scan taking the text up to
    that [})]. *)
Lemma decorators_that_are_no_blocks :
  (~ occurs_in (txt "standalone: true") (component_block [])
   /\ extract_code_patterns (component_block []) = [])
  /\ (~ occurs_in (txt "standalone: true")
         (component_block (txt "a: {b: 1}"))
      /\ extract_code_patterns (component_block (txt "a: {b: 1}")) = [])
  /\ (occurs_in (txt "standalone: true")
        (component_block (txt "x: f({a: 1}), standalone: true"))
      /\ extract_code_patterns
           (component_block (txt "x: f({a: 1}), standalone: true"))
         = [Component (txt "missing_standalone")
              (txt "@Component({x: f({a: 1})...")]).
Proof.
  split; [|split]; split.
  - by apply contains_occurs_false.
  - vm_compute. reflexivity.
  - by apply contains_occurs_false.
  - vm_compute. reflexivity.
  - by apply contains_occurs.
  - vm_compute. reflexivity.
Qed.

(** C2, amended.  The component-decorator blocks of a text are the
    matches of the component pattern, found from the left and without
    overlap: [@Component({], a body without a closing brace that is not
    empty (it may hold line feeds), and [})]; each of them occurs in the
    text, and a block before which no [@Component({] occurs is found as
    the first one.  The component records of [extract_code_patterns] come
    from the blocks in their order, the other records being of the other
    kinds: a block in which [standalone: true] does not occur gives one
    record, with the issue [missing_standalone] and the first 50
    characters of the block followed by [...], and a block in which it
    occurs gives none. *)
Theorem component_blocks_missing_standalone (content : str) :
  let blocks := findall0 component_re content in
  (forall b, b ∈ blocks ->
     occurs_in b content
     /\ exists body, b = component_block body /\ body <> []
                     /\ (chr "}" ∉ body))
  /\ (forall pre body post,
        content = pre ++ component_block body ++ post ->
        body <> [] -> chr "}" ∉ body ->
        ~ occurs_in (txt "@Component({") pre ->
        blocks = component_block body :: findall0 component_re post)
  /\ (exists others,
        extract_code_patterns content
        = others ++ (blocks ≫= component_patterns)
        /\ forall p, p ∈ others -> forall iss code, p <> Component iss code)
  /\ (forall b,
        (~ occurs_in (txt "standalone: true") b ->
         component_patterns b
         = [Component (txt "missing_standalone") (take 50 b ++ txt "...")])
        /\ (occurs_in (txt "standalone: true") b ->
            component_patterns b = [])).
Proof.
  intros blocks. split; [|split; [|split]].
  - intros b Hb. unfold blocks, findall0 in Hb.
    apply list_elem_of_fmap in Hb as (m & -> & Hm).
    apply scan_match in Hm as (pre & post & -> & Hm).
    apply match_component_shape in Hm as (body & rest & -> & Hne & Hbody & ->).
    cbn [whole]. split; [by exists pre, rest | by exists body].
  - intros pre body post -> Hne Hbody Hpre.
    by apply findall_component_block.
  - exists ((service_pattern <$> findall2 service_re content)
            ++ (import_pattern <$> findall2 import_re content)).
    split; [unfold extract_code_patterns; by rewrite <- (assoc_L (++)) |].
    intros p [Hp | Hp]%elem_of_app iss code ->.
    + by apply list_elem_of_fmap in Hp as ([service method] & ? & _).
    + by apply list_elem_of_fmap in Hp as ([imported path] & ? & _).
  - intros b. unfold component_patterns. split.
    + intros H%contains_occurs_false. by rewrite H.
    + intros H%contains_occurs. by rewrite H.
Qed.

Lemma component_blocks_missing_standalone_witness :
  findall0 component_re
    (txt "// app" ++ component_block (txt "selector: 'x'") ++ txt " class X")
  = component_block (txt "selector: 'x'")
    :: findall0 component_re (txt " class X")
  /\ component_patterns (component_block (txt "selector: 'x'"))
     = [Component (txt "missing_standalone")
          (take 50 (component_block (txt "selector: 'x'")) ++ txt "...")]
  /\ component_patterns
       (component_block (txt "selector: 'x', standalone: true"))
     = [].
Proof.
  split; [|split].
  - apply (proj1 (proj2 (component_blocks_missing_standalone
             (txt "// app" ++ component_block (txt "selector: 'x'")
              ++ txt " class X")))
             (txt "// app") (txt "selector: 'x'") (txt " class X")).
    + reflexivity.
    + done.
    + by apply not_in_by_compute.
    + by apply contains_occurs_false.
  - apply (proj2 (proj2 (proj2 (component_blocks_missing_standalone [])))).
    by apply contains_occurs_false.
  - apply (proj2 (proj2 (proj2 (component_blocks_missing_standalone [])))).
    apply contains_occurs. reflexivity.
Defined.

(* ===================================================================== *)
(** * Splitting and stripping *)
(* ===================================================================== *)

Lemma str_split_not_nil sep s : str_split sep s <> [].
Proof.
  destruct s as [|c s]; cbn [str_split]; [done |].
  destruct (bool_decide (c = sep)); [done |].
  destruct (str_split sep s); done.
Qed.

(** Joining the pieces of a split with the separator gives the text back:
    the pieces are in the order of the text and none is dropped. *)
Lemma str_join_split sep s : str_join [sep] (str_split sep s) = s.
Proof.
  induction s as [|c s IH]; [done |]. cbn [str_split].
  pose proof (str_split_not_nil sep s) as Hne.
  destruct (str_split sep s) as [|p ps]; [done |].
  destruct (bool_decide (c = sep)) eqn:Hc.
  - apply bool_decide_eq_true in Hc as ->.
    change (str_join [sep] ([] :: p :: ps))
      with (sep :: str_join [sep] (p :: ps)). by rewrite IH.
  - destruct ps as [|q qs].
    + cbn [str_join] in *. by rewrite IH.
    + change (str_join [sep] ((c :: p) :: q :: qs))
        with (c :: str_join [sep] (p :: q :: qs)). by rewrite IH.
Qed.

(** No piece of a split holds the separator. *)
Lemma str_split_no_sep sep s piece :
  piece ∈ str_split sep s -> sep ∉ piece.
Proof.
  revert piece. induction s as [|c s IH]; intros piece; cbn [str_split].
  - intros ->%list_elem_of_singleton. by intros ?%elem_of_nil.
  - pose proof (str_split_not_nil sep s) as Hne.
    destruct (bool_decide (c = sep)) eqn:Hc.
    + intros [-> | H]%elem_of_cons; [by intros ?%elem_of_nil | by apply IH].
    + apply bool_decide_eq_false in Hc.
      destruct (str_split sep s) as [|p ps]; [done |].
      intros [-> | H]%elem_of_cons.
      * intros [-> | H]%elem_of_cons; [done |].
        revert H. apply IH. by apply list_elem_of_here.
      * apply IH. by apply list_elem_of_further.
Qed.

Lemma lstrip_spec s :
  exists l, s = l ++ lstrip s
            /\ Forall (fun c => isspace c = true) l
            /\ forall c t, lstrip s = c :: t -> isspace c = false.
Proof.
  induction s as [|c s (l & Hs & Hl & Hhead)]; cbn [lstrip].
  - by exists [].
  - destruct (isspace c) eqn:Hc.
    + exists (c :: l). split; [cbn; by rewrite <- Hs |].
      split; [by constructor | done].
    + exists []. split; [done |]. split; [done |]. by intros ? ? [= <- _].
Qed.

(** [strip] takes the white space off both ends and nothing else. *)
Lemma strip_spec s :
  exists l r,
    s = l ++ strip s ++ r
    /\ Forall (fun c => isspace c = true) l
    /\ Forall (fun c => isspace c = true) r
    /\ (forall c t, strip s = c :: t -> isspace c = false)
    /\ (forall c t, strip s = t ++ [c] -> isspace c = false).
Proof.
  unfold strip, rstrip.
  destruct (lstrip_spec s) as (l & Hs & Hl & Hhead).
  destruct (lstrip_spec (rev (lstrip s))) as (r & Hr & Hrs & Hlast).
  exists l, (rev r). split; [|split; [done |split; [by apply Forall_rev |split]]].
  - rewrite <- rev_app_distr, <- Hr, rev_involutive. done.
  - intros c t Hct.
    apply (f_equal (@rev char)) in Hr.
    rewrite rev_involutive, rev_app_distr, Hct in Hr.
    destruct (rev (lstrip (rev (lstrip s)))) eqn:E; [done |].
    injection Hct as -> ->. cbn in Hr. by eapply Hhead.
  - intros c t Hct. apply (f_equal (@rev char)) in Hct.
    rewrite rev_involutive, rev_app_distr in Hct. cbn in Hct. by eapply Hlast.
Qed.

(* ===================================================================== *)
(** * The import pattern *)
(* ===================================================================== *)

Lemma match_import_keyword s m :
  match_at import_re s = Some m -> startswith s (txt "import") = true.
Proof.
  unfold match_at, import_re, cat. cbn [foldr exec]. intros H.
  apply exec_lit_sound in H as (rest & -> & _). apply startswith_app.
Qed.

Lemma import_keyword_borderless k :
  0 < k < length (txt "import") ->
  startswith (txt "import") (drop k (txt "import")) = false.
Proof.
  intros Hk. do 6 (destruct k as [|k]; [by (lia || reflexivity) |]).
  cbn in Hk. lia.
Qed.

Lemma match_import_line post :
  match_at import_re (import_line ++ post)
  = Some (Match import_line [txt " A, B "; txt "x/y"]).
Proof. vm_compute. reflexivity. Qed.

Lemma import_pattern_line :
  import_pattern (txt " A, B ", txt "x/y")
  = Import [txt "A"; txt "B"] (txt "x/y").
Proof. vm_compute. reflexivity. Qed.

(** The import line is found when the scan comes to it. *)
Lemma findall_import_line_reached pre post :
  (forall i m, i < length pre ->
               match_at import_re (drop i pre ++ import_line ++ post) = Some m ->
               i + length (whole m) <= length pre) ->
  (txt " A, B ", txt "x/y") ∈ findall2 import_re (pre ++ import_line ++ post).
Proof.
  intros Hpre. unfold findall2, finditer.
  destruct (scan_reaches import_re pre (import_line ++ post) 0 Hpre
              ltac:(lia)) as (before & ->).
  rewrite (scan_match_head _ _ _ post (match_import_line post)); [| done..].
  rewrite fmap_app, fmap_cons. apply elem_of_app. right.
  apply list_elem_of_here.
Qed.

(** And it is the first import found when no [import] stands before it. *)
Lemma findall_import_line_first pre post :
  ~ occurs_in (txt "import") pre ->
  findall2 import_re (pre ++ import_line ++ post)
  = (txt " A, B ", txt "x/y") :: findall2 import_re post.
Proof.
  intros Hpre. unfold findall2, finditer. rewrite scan_skips.
  - by rewrite (scan_match_head _ _ _ post (match_import_line post)).
  - intros i Hi.
    destruct (match_at import_re _) as [m|] eqn:Hm; [exfalso | done].
    apply match_import_keyword in Hm.
    rewrite keyword_not_before in Hm; [done | done | done | | done].
    apply import_keyword_borderless.
Qed.

Lemma import_pattern_origin content items path :
  Import items path ∈ extract_code_patterns content ->
  exists imported,
    (imported, path) ∈ findall2 import_re content
    /\ items = strip <$> str_split (chr ",") imported.
Proof.
  unfold extract_code_patterns. rewrite !elem_of_app. intros [H | [H | H]].
  - by apply list_elem_of_fmap in H as ([service method] & ? & _).
  - apply list_elem_of_fmap in H as ([imported path'] & [= -> ->] & H).
    by exists imported.
  - apply list_elem_of_bind in H as (comp & H & _).
    apply component_patterns_are_components in H as (? & ? & ?). done.
Qed.

(* ===================================================================== *)
(** * The imports *)
(* ===================================================================== *)

(** C8, as the specification states it, fails: in the text [import {X}
    from '] followed by a line feed and the import line, the pattern
    matches from the first [import] to the quote that opens [x/y], so that
    the import line gives no record of its own. *)
Lemma import_line_inside_an_earlier_match :
  occurs_in import_line unclosed_import
  /\ extract_code_patterns unclosed_import
     = [Import [txt "X"] ([newline] ++ txt "import { A, B } from ")]
  /\ Import [txt "A"; txt "B"] (txt "x/y")
     ∉ extract_code_patterns unclosed_import.
Proof.
  assert (H : extract_code_patterns unclosed_import
              = [Import [txt "X"] ([newline] ++ txt "import { A, B } from ")])
    by (vm_compute; reflexivity).
  split; [by exists (txt "import {X} from '" ++ [newline]), [] |].
  split; [done |]. rewrite H. by intros [=]%list_elem_of_singleton.
Qed.

(** C8, amended.  For every text [pre ++ line ++ post], where [line] is
    [import { A, B } from 'x/y'], in which no match of the import pattern
    that starts before the line reaches into it, the extractor yields the
    import record with [items = ["A", "B"]] and [path = "x/y"]; when
    [import] does not occur before the line, that record is the first of
    the import records and those of [post] follow it.  In general the
    items of an import record are the pieces between the commas of the
    text in the braces, each stripped of the white space at its ends, in
    the order of the text and with the duplicates kept: a piece holds no
    comma, the pieces joined with commas are the text in the braces, and
    stripping takes off white space at the two ends and nothing else. *)
Theorem import_line_extracted (pre post : str) :
  ((forall i m, i < length pre ->
      match_at import_re (drop i pre ++ import_line ++ post) = Some m ->
      i + length (whole m) <= length pre) ->
   Import [txt "A"; txt "B"] (txt "x/y")
   ∈ extract_code_patterns (pre ++ import_line ++ post))
  /\ (~ occurs_in (txt "import") pre ->
      import_pattern <$> findall2 import_re (pre ++ import_line ++ post)
      = Import [txt "A"; txt "B"] (txt "x/y")
        :: (import_pattern <$> findall2 import_re post))
  /\ (forall items path,
        Import items path ∈ extract_code_patterns (pre ++ import_line ++ post) ->
        exists imported,
          (imported, path) ∈ findall2 import_re (pre ++ import_line ++ post)
          /\ items = strip <$> str_split (chr ",") imported
          /\ str_join [chr ","] (str_split (chr ",") imported) = imported
          /\ forall piece,
               piece ∈ str_split (chr ",") imported ->
               (chr "," ∉ piece)
               /\ exists l r,
                    piece = l ++ strip piece ++ r
                    /\ Forall (fun c => isspace c = true) l
                    /\ Forall (fun c => isspace c = true) r
                    /\ (forall c t, strip piece = c :: t -> isspace c = false)
                    /\ (forall c t, strip piece = t ++ [c] ->
                                    isspace c = false)).
Proof.
  split; [|split].
  - intros Hpre. unfold extract_code_patterns.
    apply elem_of_app. right. apply elem_of_app. left.
    rewrite <- import_pattern_line. apply list_elem_of_fmap_2.
    by apply findall_import_line_reached.
  - intros Hpre. rewrite findall_import_line_first by done.
    by rewrite fmap_cons, import_pattern_line.
  - intros items path (imported & Hin & ->)%import_pattern_origin.
    exists imported. split; [done |]. split; [done |].
    split; [apply str_join_split |]. intros piece Hpiece.
    split; [by eapply str_split_no_sep | apply strip_spec].
Qed.

Lemma import_line_extracted_witness :
  Import [txt "A"; txt "B"] (txt "x/y")
  ∈ extract_code_patterns
      (txt "import { Z } from 'z';" ++ import_line ++ txt ";")
  /\ import_pattern <$> findall2 import_re
                          (txt "// app" ++ import_line ++ txt ";")
     = Import [txt "A"; txt "B"] (txt "x/y")
       :: (import_pattern <$> findall2 import_re (txt ";")).
Proof.
  split.
  - apply (proj1 (import_line_extracted (txt "import { Z } from 'z';")
                    (txt ";"))).
    intros i m Hi Hm.
    do 22 (destruct i as [|i];
           [vm_compute in Hm;
            first [discriminate Hm | injection Hm as <-; vm_compute; lia] |]).
    cbn in Hi. lia.
  - apply (proj1 (proj2 (import_line_extracted (txt "// app") (txt ";")))).
    by apply contains_occurs_false.
Defined.

(* ===================================================================== *)
(** * Texts without a keyword *)
(* ===================================================================== *)

Lemma match_service_keyword s m :
  match_at service_re s = Some m -> startswith s (txt "this.") = true.
Proof.
  intros (w & method & rest & -> & _)%match_service_shape.
  apply startswith_app.
Qed.

(** A pattern that starts with a keyword matches nowhere in a text in
    which the keyword does not occur. *)
Lemma finditer_without_keyword r kw content :
  (forall s m, match_at r s = Some m -> startswith s kw = true) ->
  ~ occurs_in kw content ->
  finditer r content = [].
Proof.
  intros Hkw Hno. apply scan_nothing. intros pre post ->.
  destruct (match_at r post) as [m|] eqn:Hm; [exfalso | done].
  apply Hkw, startswith_prefix in Hm as [rest ->].
  apply Hno. by exists pre, rest.
Qed.

(* ===================================================================== *)
(** * The effects of main *)
(* ===================================================================== *)

Lemma main_of_validates e hook_data content log :
  validates hook_data content ->
  main e hook_data log = validate e hook_data (VStr content) log.
Proof.
  intros (params & file_path & Htool & Hparams & Hpath & Hts & Hres & _).
  erewrite main_past_gates by done. by rewrite (bind_return _ _ _ _ _ (Hres log)).
Qed.

Lemma print_issue_lines i log :
  print_issue i log = (Return tt, log ++ issue_lines i).
Proof.
  unfold print_issue, issue_lines. rewrite (bind_return _ _ _ _ _ (print_returns _ _)).
  destruct (negb _).
  - rewrite print_returns. by rewrite <- (assoc_L (++)).
  - done.
Qed.

Lemma for_each_print_issue issues log :
  exists us,
    for_each print_issue issues log = (Return us, log ++ (issues ≫= issue_lines)).
Proof.
  revert log. induction issues as [|i issues IH]; intros log.
  - exists []. cbn. by rewrite app_nil_r.
  - cbn [for_each]. rewrite (bind_return _ _ _ _ _ (print_issue_lines i log)).
    destruct (IH (log ++ issue_lines i)) as (us & Hus).
    rewrite (bind_return _ _ _ _ _ Hus). exists (tt :: us).
    by rewrite bind_cons, (assoc_L (++)).
Qed.

Lemma log_warnings_block issues log :
  log_warnings issues log = (Return tt, log ++ warning_block issues).
Proof.
  unfold log_warnings, warning_block.
  rewrite (bind_return _ _ _ _ _ (print_returns _ _)).
  destruct (for_each_print_issue issues
              (log ++ [Printed ([newline] ++ warning_mark
                                ++ txt " antiHall Validation Warnings:")]))
    as (us & Hus).
  rewrite (bind_return _ _ _ _ _ Hus), print_returns.
  by rewrite <- !(assoc_L (++)).
Qed.

(** What [validate] returns and prints once the issues are collected. *)
Lemma validate_attach e hook_data content log issues log1 :
  content <> [] ->
  collect_issues e (extract_code_patterns content) log = (Return issues, log1) ->
  validate e hook_data (VStr content) log
  = (Return (attach_warnings issues hook_data), log1 ++ printed_for issues).
Proof.
  intros Hne Hcollect. unfold validate. cbn [truthy].
  rewrite bool_decide_eq_false_2 by done. cbn [negb].
  rewrite bind_ret, (bind_return _ _ _ _ _ Hcollect).
  destruct issues as [|i issues]; cbn [attach_warnings printed_for].
  - by rewrite app_nil_r.
  - cbv zeta. by rewrite (bind_return _ _ _ _ _ (log_warnings_block _ _)).
Qed.

(* ===================================================================== *)
(** * The launches of the checker *)
(* ===================================================================== *)

Lemma check_pattern_with_tool e p log :
  (forall l, path_exists e l antihall_dir = true) ->
  exists found,
    check_pattern e p log
    = (Return found, log ++ (launch <$> service_fulls [p])).
Proof.
  intros Hdir. destruct p as [service method full | items path | iss code];
    cbn [check_pattern].
  - destruct (validate_with_antihall_launches e full log (Hdir log))
      as ([stdout stderr] & Hv).
    rewrite (bind_return _ _ _ _ _ Hv).
    destruct stdout as [out|]; [destruct (_ && _) |]; by eauto.
  - exists []. cbn. by rewrite app_nil_r.
  - destruct (str_eqb _ _); eexists; cbn; by rewrite app_nil_r.
Qed.

Lemma service_fulls_cons p ps :
  service_fulls (p :: ps) = service_fulls [p] ++ service_fulls ps.
Proof. unfold service_fulls. csimpl. by rewrite app_nil_r. Qed.

Lemma collect_issues_with_tool e patterns log :
  (forall l, path_exists e l antihall_dir = true) ->
  exists issues,
    collect_issues e patterns log
    = (Return issues, log ++ (launch <$> service_fulls patterns)).
Proof.
  intros Hdir. unfold collect_issues.
  assert (H : exists found,
             for_each (check_pattern e) patterns log
             = (Return found, log ++ (launch <$> service_fulls patterns))).
  { revert log. induction patterns as [|p ps IH]; intros log.
    - exists []. cbn. by rewrite app_nil_r.
    - cbn [for_each].
      destruct (check_pattern_with_tool e p log Hdir) as (found & Hp).
      rewrite (bind_return _ _ _ _ _ Hp).
      destruct (IH (log ++ (launch <$> service_fulls [p]))) as (rest & Hps).
      rewrite (bind_return _ _ _ _ _ Hps). exists (found :: rest).
      by rewrite (service_fulls_cons p ps), fmap_app, (assoc_L (++)). }
  destruct H as (found & H). rewrite (bind_return _ _ _ _ _ H). by eauto.
Qed.

(** X2.  In a world where the directory of the tool exists, a call of
    [main] that passes the gates launches the checker once for every
    service call found in the text, in the order of the text and with the
    [full] field as the snippet, whatever the checker answers; the warning
    block, when there is one, is printed after the last launch. *)
Theorem main_launches_once_per_service_call
    (e : env) (hook_data : dict) (content : str) (log : list event) :
  (forall l, path_exists e l antihall_dir = true) ->
  validates hook_data content ->
  exists issues,
    main e hook_data log
    = (Return (attach_warnings issues hook_data),
       log ++ (launch <$> service_fulls (extract_code_patterns content))
       ++ printed_for issues).
Proof.
  intros Hdir Hv. rewrite (main_of_validates _ _ _ _ Hv).
  destruct Hv as (_ & _ & _ & _ & _ & _ & _ & Hne).
  destruct (collect_issues_with_tool e (extract_code_patterns content) log Hdir)
    as (issues & Hc).
  exists issues. rewrite (validate_attach _ _ _ _ _ _ Hne Hc).
  by rewrite <- (assoc_L (++)).
Qed.

Lemma scenario_validates :
  validates scenario_record (txt "this.authService.loginWithMagicLink()").
Proof.
  exists (<[txt "file_path" := VStr (txt "test.service.ts")]>
          (<[txt "content" :=
               VStr (txt "this.authService.loginWithMagicLink()")]> ∅)),
         (txt "test.service.ts").
  do 4 (split; [vm_compute; reflexivity |]). split; [|done].
  intros log. rewrite effect_free_resolve_content. vm_compute. reflexivity.
Qed.

Lemma main_launches_once_per_service_call_witness :
  exists issues,
    main (tool_answers (txt "ok")) scenario_record []
    = (Return (attach_warnings issues scenario_record),
       [] ++ (launch <$> service_fulls
                (extract_code_patterns
                   (txt "this.authService.loginWithMagicLink()")))
       ++ printed_for issues).
Proof.
  apply (main_launches_once_per_service_call (tool_answers (txt "ok"))).
  - reflexivity.
  - apply scenario_validates.
Defined.

(* ===================================================================== *)
(** * Without the tool *)
(* ===================================================================== *)

Lemma validate_with_antihall_absent e code_snippet log :
  path_exists e log antihall_dir = false ->
  validate_with_antihall e code_snippet log
  = (Return (None, txt "antiHall directory not found"), log).
Proof.
  intros Hdir. unfold validate_with_antihall, bind, exists_. by rewrite Hdir.
Qed.

Lemma violations_cons p ps : violations (p :: ps) = violations [p] ++ violations ps.
Proof. unfold violations. csimpl. by rewrite app_nil_r. Qed.

Lemma collect_issues_without_tool e patterns log :
  (forall l, path_exists e l antihall_dir = false) ->
  collect_issues e patterns log = (Return (violations patterns), log).
Proof.
  intros Hdir. unfold collect_issues.
  assert (H : exists found,
             for_each (check_pattern e) patterns log = (Return found, log)
             /\ concat found = violations patterns).
  { induction patterns as [|p ps (rest & Hps & Hrest)].
    - by exists [].
    - exists (violations [p] :: rest). cbn [for_each]. split.
      + rewrite (bind_return _ _ log (violations [p]) log).
        * by rewrite (bind_return _ _ _ _ _ Hps).
        * destruct p as [service method full | items path | iss code];
            cbn [check_pattern].
          -- by rewrite (bind_return _ _ _ _ _
                           (validate_with_antihall_absent e full log (Hdir log))).
          -- done.
          -- unfold violations. cbn. destruct (str_eqb _ _); done.
      + cbn [concat]. by rewrite Hrest, (violations_cons p ps). }
  destruct H as (found & H & <-). by rewrite (bind_return _ _ _ _ _ H).
Qed.

(** X3.  In a world where the directory of the tool does not exist, no call
    of [main] launches a process, and a call that passes the gates reports
    the components without the standalone marker and nothing else: the
    issues are one [pattern_violation] for every component record, and no
    service call gives an issue. *)
Theorem main_without_the_tool
    (e : env) (hook_data : dict) (log : list event) :
  (forall l, path_exists e l antihall_dir = false) ->
  (forall content,
     validates hook_data content ->
     main e hook_data log
     = (Return (attach_warnings
                  (violations (extract_code_patterns content)) hook_data),
        log ++ printed_for (violations (extract_code_patterns content))))
  /\ (forall o log',
        main e hook_data log = (o, log') ->
        exists printed,
          log' = log ++ printed
          /\ Forall (fun ev => exists line, ev = Printed line) printed).
Proof.
  intros Hdir.
  assert (Hv : forall content,
    validates hook_data content ->
    main e hook_data log
    = (Return (attach_warnings
                 (violations (extract_code_patterns content)) hook_data),
       log ++ printed_for (violations (extract_code_patterns content)))).
  { intros content Hv. rewrite (main_of_validates _ _ _ _ Hv).
    destruct Hv as (_ & _ & _ & _ & _ & _ & _ & Hne).
    by apply validate_attach, collect_issues_without_tool. }
  split; [done |]. intros o log' Hmain.
  destruct (main_cases e hook_data log)
    as [[Hm _] | [(x' & Hm) | (content & Hval & _)]].
  - exists []. rewrite app_nil_r. split; [congruence | done].
  - exists []. rewrite app_nil_r. split; [congruence | done].
  - rewrite (Hv content Hval) in Hmain. injection Hmain as _ <-.
    eexists. split; [done |].
    destruct (violations _) as [|i issues]; cbn [printed_for]; [done |].
    unfold warning_block. apply Forall_cons_2; [by eauto |].
    apply Forall_app. split;
      [|apply Forall_cons_2; [by eauto | by apply Forall_nil_2]].
    apply Forall_bind, Forall_forall. intros j _. unfold issue_lines.
    apply Forall_cons_2; [by eauto |].
    case_match; [apply Forall_cons_2; [by eauto |] |]; by apply Forall_nil_2.
Qed.

Lemma main_without_the_tool_witness :
  main no_tool scenario_record [] = (Return scenario_record, []).
Proof.
  apply (proj1 (main_without_the_tool no_tool scenario_record []
                  ltac:(reflexivity))
           (txt "this.authService.loginWithMagicLink()")).
  apply scenario_validates.
Defined.

(* ===================================================================== *)
(** * The issues and the warning block *)
(* ===================================================================== *)

Lemma bind_inv {A B} (m : io A) (f : A -> io B) log b l :
  bind m f log = (Return b, l) ->
  exists a l1, m log = (Return a, l1) /\ f a l1 = (Return b, l).
Proof. unfold bind. destruct (m log) as [[a|x] l1]; [by eauto | done]. Qed.

Lemma contains_nonempty (s sub : str) :
  sub <> [] -> contains s sub = true -> s <> [].
Proof. intros Hsub H%contains_occurs. by eapply occurs_in_nonempty. Qed.

(** X4.  Whether a service call is reported depends on the stdout of the
    checker alone, and only on whether [does not exist] occurs in it: the
    call gives the one issue [hallucination], whose message names the
    method and the service, exactly when the checker returned a stdout in
    which the text occurs, and no issue otherwise.  The stderr plays no
    role, and the test that stdout is not empty changes nothing. *)
Theorem hallucination_iff_does_not_exist
    (e : env) (service method full : str) (log log1 : list event)
    (stdout : option str) (stderr : str) :
  validate_with_antihall e full log = (Return (stdout, stderr), log1) ->
  exists found,
    check_pattern e (ServiceMethod service method full) log
    = (Return found, log1)
    /\ (found = [hallucination service method] \/ found = [])
    /\ (found <> []
        <-> exists out, stdout = Some out
                        /\ occurs_in (txt "does not exist") out).
Proof.
  intros Hv. cbn [check_pattern]. rewrite (bind_return _ _ _ _ _ Hv).
  destruct stdout as [out|].
  - destruct (contains out (txt "does not exist")) eqn:Hc.
    + rewrite bool_decide_eq_false_2
        by (by apply (contains_nonempty _ (txt "does not exist"))).
      eexists. split; [done |]. split; [by left |]. split; [|done].
      intros _. exists out. split; [done | by apply contains_occurs].
    + rewrite andb_false_r. exists []. split; [done |]. split; [by right |].
      split; [done |]. intros (out' & [= <-] & H%contains_occurs). congruence.
  - exists []. split; [done |]. split; [by right |].
    split; [done | by intros (? & ? & _)].
Qed.

Lemma hallucination_iff_does_not_exist_witness :
  exists found,
    check_pattern (tool_answers (txt "Method load does not exist"))
      (ServiceMethod (txt "userService") (txt "load")
         (txt "this.userService.load()")) []
    = (Return found, [launch (txt "this.userService.load()")])
    /\ (found = [hallucination (txt "userService") (txt "load")] \/ found = [])
    /\ (found <> []
        <-> exists out, Some (txt "Method load does not exist") = Some out
                        /\ occurs_in (txt "does not exist") out).
Proof.
  apply (hallucination_iff_does_not_exist
           (tool_answers (txt "Method load does not exist"))
           (txt "userService") (txt "load") (txt "this.userService.load()")
           [] [launch (txt "this.userService.load()")]
           (Some (txt "Method load does not exist")) []).
  reflexivity.
Defined.


Lemma check_pattern_found e p log found l :
  check_pattern e p log = (Return found, l) ->
  length found <= 1
  /\ Forall (fun i => (exists service method, i = hallucination service method)
                      \/ i = violation) found.
Proof.
  destruct p as [service method full | items path | iss code];
    cbn [check_pattern].
  - intros ([stdout stderr] & l1 & _ & H)%bind_inv.
    destruct stdout as [out|]; [destruct (_ && _) |]; injection H as <- _.
    + split; [cbn; lia |]. apply Forall_cons_2; [|done].
      left. by exists service, method.
    + split; [cbn; lia | done].
    + split; [cbn; lia | done].
  - intros [= <- _]. split; [cbn; lia | done].
  - destruct (str_eqb _ _); intros [= <- _].
    + split; [cbn; lia |]. apply Forall_cons_2; [by right | done].
    + split; [cbn; lia | done].
Qed.

Lemma for_each_check_found e patterns log found l :
  for_each (check_pattern e) patterns log = (Return found, l) ->
  length (concat found) <= length patterns
  /\ Forall (fun i => (exists service method, i = hallucination service method)
                      \/ i = violation) (concat found).
Proof.
  revert log found l. induction patterns as [|p ps IH]; intros log found l.
  - intros [= <- _]. split; [cbn; lia | done].
  - cbn [for_each]. intros (f & l1 & Hp & H)%bind_inv.
    apply bind_inv in H as (fs & l2 & Hps & [= <- _]).
    apply check_pattern_found in Hp as [Hlen Hgood].
    apply IH in Hps as [Hlens Hgoods]. cbn [concat length].
    rewrite length_app. split; [lia | by apply Forall_app].
Qed.

(** X5.  The issues that the loop of [main] collects are at most as many
    as the patterns, and each is a [hallucination] or the one
    [pattern_violation], with its fixed suggestion; so the warning block
    printed for them is the header, for every issue in order its message
    line and its suggestion line, and an empty line at the end. *)
Theorem warning_block_of_collected_issues
    (e : env) (patterns : list pattern) (log log1 : list event)
    (issues : list issue) :
  collect_issues e patterns log = (Return issues, log1) ->
  length issues <= length patterns
  /\ Forall (fun i => (exists service method, i = hallucination service method)
                      \/ i = violation) issues
  /\ log_warnings issues log1
     = (Return tt,
        log1
        ++ Printed ([newline] ++ warning_mark
                    ++ txt " antiHall Validation Warnings:")
           :: (issues ≫= (fun i =>
                 [Printed (txt "  - " ++ message i);
                  Printed (txt "    " ++ hint_mark ++ txt " "
                           ++ suggestion i)]))
           ++ [Printed []]).
Proof.
  unfold collect_issues. intros (found & l & Hfound & [= <- <-])%bind_inv.
  apply for_each_check_found in Hfound as [Hlen Hgood].
  split; [done |]. split; [done |].
  rewrite log_warnings_block. unfold warning_block. do 4 f_equal.
  apply Forall_bind_ext. eapply Forall_impl; [exact Hgood |].
  by intros i [(service & method & ->) | ->].
Qed.

Lemma warning_block_of_collected_issues_witness :
  log_warnings [violation] []
  = (Return tt,
     [] ++ Printed ([newline] ++ warning_mark
                    ++ txt " antiHall Validation Warnings:")
           :: ([violation] ≫= (fun i =>
                 [Printed (txt "  - " ++ message i);
                  Printed (txt "    " ++ hint_mark ++ txt " "
                           ++ suggestion i)]))
           ++ [Printed []]).
Proof.
  apply (warning_block_of_collected_issues no_tool
           [Component (txt "missing_standalone") (txt "@Component({a})...")]
           [] [] [violation]).
  reflexivity.
Defined.

(* ===================================================================== *)
(** * What main may do *)
(* ===================================================================== *)

Lemma printed_for_printed issues :
  Forall (fun ev => exists line, ev = Printed line) (printed_for issues).
Proof.
  destruct issues as [|i issues]; cbn [printed_for]; [done |].
  unfold warning_block. apply Forall_cons_2; [by eauto |].
  apply Forall_app. split;
    [|apply Forall_cons_2; [by eauto | by apply Forall_nil_2]].
  apply Forall_bind, Forall_forall. intros j _. unfold issue_lines.
  apply Forall_cons_2; [by eauto |].
  case_match; [apply Forall_cons_2; [by eauto |] |]; by apply Forall_nil_2.
Qed.

(** The service-call patterns of a text are calls made of two words. *)
Lemma extracted_service_call content service method full :
  ServiceMethod service method full ∈ extract_code_patterns content ->
  exists w,
    service = w ++ txt "Service"
    /\ full = txt "this." ++ (w ++ txt "Service") ++ txt "." ++ method
              ++ txt "()"
    /\ word_text w /\ w <> [] /\ word_text method /\ method <> [].
Proof.
  intros (m & Hm & -> & -> & ->)%service_pattern_origin.
  apply scan_match in Hm as (pre & post & -> & Hm).
  apply match_service_shape in Hm
    as (w & method & rest & -> & Hw & Hwne & Hmeth & Hmne & ->).
  exists w. by repeat split.
Qed.

Lemma check_pattern_events e p log o l :
  match p with
  | ServiceMethod _ _ full => checked_call (launch full)
  | _ => True
  end ->
  check_pattern e p log = (o, l) ->
  exists evs, l = log ++ evs /\ Forall checked_call evs.
Proof.
  destruct p as [service method full | items path | iss code];
    cbn [check_pattern]; intros Hgood.
  - destruct (path_exists e log antihall_dir) eqn:Hdir.
    + destruct (validate_with_antihall_launches e full log Hdir)
        as ([stdout stderr] & Hv).
      rewrite (bind_return _ _ _ _ _ Hv).
      exists [launch full]. split; [|by apply Forall_cons_2].
      destruct stdout as [out|]; [destruct (_ && _) |]; by injection H as _ <-.
    + rewrite (bind_return _ _ _ _ _
                 (validate_with_antihall_absent e full log Hdir)).
      intros [= _ <-]. exists []. by rewrite app_nil_r.
  - intros [= _ <-]. exists []. by rewrite app_nil_r.
  - destruct (str_eqb _ _); intros [= _ <-]; exists []; by rewrite app_nil_r.
Qed.

Lemma for_each_check_events e patterns log o l :
  Forall (fun p => match p with
                   | ServiceMethod _ _ full => checked_call (launch full)
                   | _ => True
                   end) patterns ->
  for_each (check_pattern e) patterns log = (o, l) ->
  exists evs, l = log ++ evs /\ Forall checked_call evs.
Proof.
  intros Hgood. revert log o l.
  induction Hgood as [|p ps Hp _ IH]; intros log o l.
  - intros [= _ <-]. exists []. by rewrite app_nil_r.
  - cbn [for_each]. unfold bind at 1.
    destruct (check_pattern e p log) as [[found|x] l1] eqn:Hcp.
    + apply (check_pattern_events _ _ _ _ _ Hp) in Hcp as (evs1 & -> & Hevs1).
      unfold bind at 1.
      destruct (for_each (check_pattern e) ps (log ++ evs1))
        as [[founds|x] l2] eqn:Hfe;
        apply IH in Hfe as (evs2 & -> & Hevs2); intros [= _ <-];
        exists (evs1 ++ evs2); (split; [by rewrite (assoc_L (++)) |]);
        by apply Forall_app.
    + apply (check_pattern_events _ _ _ _ _ Hp) in Hcp as (evs1 & -> & Hevs1).
      intros [= _ <-]. by exists evs1.
Qed.

(** X6.  All that a call of [main] does to the world is to launch the
    checker and to print: whatever the record and the world, and whether
    it returns or raises, the events it adds to the log are launches of
    [npm run check <snippet>] in the directory of the tool with a timeout
    of 10 seconds, and lines printed.  The snippet of a launch is one
    argument of the process and always of the form
    [this.<w>Service.<method>()] with [w] and [method] made of word
    characters: no other character of the text validated reaches the
    command line. *)
Theorem main_only_checks_and_prints
    (e : env) (hook_data : dict) (log log' : list event) (o : outcome dict) :
  main e hook_data log = (o, log') ->
  exists evs,
    log' = log ++ evs
    /\ Forall (fun ev => checked_call ev \/ exists line, ev = Printed line) evs.
Proof.
  intros Hmain.
  destruct (main_cases e hook_data log)
    as [[Hm _] | [(x' & Hm) | (content & Hval & Hm)]].
  - exists []. rewrite app_nil_r. split; [congruence | done].
  - exists []. rewrite app_nil_r. split; [congruence | done].
  - pose proof Hval as (_ & _ & _ & _ & _ & _ & _ & Hne).
    destruct (collect_issues_returns e (extract_code_patterns content) log)
      as (issues & log1 & Hc).
    rewrite Hm, (validate_attach _ _ _ _ _ _ Hne Hc) in Hmain.
    injection Hmain as _ <-.
    unfold collect_issues in Hc.
    apply bind_inv in Hc as (found & l & Hfe & [= _ <-]).
    apply for_each_check_events in Hfe as (evs & -> & Hevs).
    + exists (evs ++ printed_for issues). split; [by rewrite (assoc_L (++)) |].
      apply Forall_app. split.
      * eapply Forall_impl; [exact Hevs | by left].
      * eapply Forall_impl; [apply printed_for_printed | by right].
    + apply Forall_forall. intros [service method full | |] Hp; [|done..].
      apply extracted_service_call in Hp as (w & -> & -> & ? & ? & ? & ?).
      by exists w, method.
Qed.

Lemma main_only_checks_and_prints_witness :
  exists evs,
    (main (tool_answers (txt "Method loginWithMagicLink does not exist"))
       scenario_record []).2 = [] ++ evs
    /\ Forall (fun ev => checked_call ev \/ exists line, ev = Printed line) evs.
Proof.
  apply (main_only_checks_and_prints
           (tool_answers (txt "Method loginWithMagicLink does not exist"))
           scenario_record []
           (main (tool_answers (txt "Method loginWithMagicLink does not exist"))
              scenario_record []).2
           (main (tool_answers (txt "Method loginWithMagicLink does not exist"))
              scenario_record []).1).
  by destruct (main _ _ _).
Defined.

(* ===================================================================== *)
(** * What main reads *)
(* ===================================================================== *)

(** [validate] uses the record only to attach the issues to it. *)
Lemma validate_uniform e content log :
  exists (res : outcome (list issue)) l,
    forall hook_data,
      validate e hook_data content log
      = (match res with
         | Return issues => Return (attach_warnings issues hook_data)
         | Raise x => Raise x
         end, l).
Proof.
  unfold validate. destruct (truthy content) eqn:Htruthy; cbn [negb].
  2:{ by exists (Return []), log. }
  destruct content as [| | | |c| |];
    try (by exists (Raise TypeError), log).
  destruct (collect_issues_returns e (extract_code_patterns c) log)
    as (issues & log1 & Hc).
  exists (Return issues), (log1 ++ printed_for issues). intros hook_data.
  rewrite bind_ret, (bind_return _ _ _ _ _ Hc).
  destruct issues as [|i issues]; cbn [attach_warnings printed_for].
  - by rewrite app_nil_r.
  - cbv zeta. by rewrite (bind_return _ _ _ _ _ (log_warnings_block _ _)).
Qed.

Lemma resolve_content_reads (tool_name : value) (p1 p2 : dict) :
  p1 !! txt "content" = p2 !! txt "content" ->
  p1 !! txt "new_string" = p2 !! txt "new_string" ->
  p1 !! txt "edits" = p2 !! txt "edits" ->
  resolve_content tool_name (VDict p1) = resolve_content tool_name (VDict p2).
Proof.
  intros Hc Hn He. unfold resolve_content, get, dict_get.
  by rewrite Hc, Hn, He.
Qed.

(** X7.  [main] reads [tool_name], and of [params] the keys [file_path],
    [content], [new_string] and [edits], and nothing else: on two records
    that agree on these, it raises the same exception, or returns each
    record with the same issues attached (or each as it was), and does the
    same to the world.  The other fields of the record and the other keys
    of [params] (the [old_string] of an Edit among them) have no
    influence. *)
Theorem main_reads_only_the_text_fields
    (e : env) (d1 d2 p1 p2 : dict) (log : list event) :
  d1 !! txt "tool_name" = d2 !! txt "tool_name" ->
  d1 !! txt "params" = Some (VDict p1) ->
  d2 !! txt "params" = Some (VDict p2) ->
  (forall key,
     key ∈ [txt "file_path"; txt "content"; txt "new_string"; txt "edits"] ->
     p1 !! key = p2 !! key) ->
  exists (res : outcome (list issue)) l,
    main e d1 log
    = (match res with
       | Return issues => Return (attach_warnings issues d1)
       | Raise x => Raise x
       end, l)
    /\ main e d2 log
       = (match res with
          | Return issues => Return (attach_warnings issues d2)
          | Raise x => Raise x
          end, l).
Proof.
  intros Htool Hp1 Hp2 Hkeys.
  assert (Hres : resolve_content (dict_get d1 (txt "tool_name") (VStr []))
                   (VDict p2)
                 = resolve_content (dict_get d1 (txt "tool_name") (VStr []))
                     (VDict p1)).
  { apply resolve_content_reads; symmetry; apply Hkeys; set_solver. }
  unfold main.
  replace (dict_get d2 (txt "tool_name") (VStr []))
    with (dict_get d1 (txt "tool_name") (VStr []))
    by (unfold dict_get; by rewrite Htool).
  rewrite (dict_get_present d1 _ _ _ Hp1), (dict_get_present d2 _ _ _ Hp2).
  destruct (value_in _ write_tools); cbn [negb].
  2:{ by exists (Return []), log. }
  cbn [get]. rewrite !bind_ret.
  replace (dict_get p2 (txt "file_path") (VStr []))
    with (dict_get p1 (txt "file_path") (VStr []))
    by (unfold dict_get; rewrite (Hkeys (txt "file_path")); [done | set_solver]).
  rewrite Hres.
  destruct (dict_get p1 (txt "file_path") (VStr [])) as [| | | |file_path| |];
    try (by exists (Raise AttributeError), log).
  cbn [value_endswith]. rewrite !bind_ret.
  destruct (endswith_any file_path ts_suffixes); cbn [negb].
  2:{ by exists (Return []), log. }
  destruct (resolve_content (dict_get d1 (txt "tool_name") (VStr []))
              (VDict p1) log) as [[content|x] l0] eqn:Hcontent.
  - rewrite !(bind_return _ _ _ _ _ Hcontent).
    destruct (validate_uniform e content l0) as (res & l & Hv).
    exists res, l. by rewrite !Hv.
  - exists (Raise x), l0. unfold bind. by rewrite Hcontent.
Qed.

Lemma main_reads_only_the_text_fields_witness :
  exists (res : outcome (list issue)) l,
    main no_tool scenario_record []
    = (match res with
       | Return issues => Return (attach_warnings issues scenario_record)
       | Raise x => Raise x
       end, l)
    /\ main no_tool (<[txt "session" := VInt 7]> scenario_record) []
       = (match res with
          | Return issues =>
              Return (attach_warnings issues
                        (<[txt "session" := VInt 7]> scenario_record))
          | Raise x => Raise x
          end, l).
Proof.
  apply (main_reads_only_the_text_fields no_tool
           scenario_record (<[txt "session" := VInt 7]> scenario_record)
           (<[txt "file_path" := VStr (txt "test.service.ts")]>
            (<[txt "content" :=
                 VStr (txt "this.authService.loginWithMagicLink()")]> ∅))
           (<[txt "file_path" := VStr (txt "test.service.ts")]>
            (<[txt "content" :=
                 VStr (txt "this.authService.loginWithMagicLink()")]> ∅))
           []).
  - vm_compute. reflexivity.
  - vm_compute. reflexivity.
  - vm_compute. reflexivity.
  - done.
Defined.

(* ===================================================================== *)
(** * A component without the marker *)
(* ===================================================================== *)

Lemma violations_app ps qs : violations (ps ++ qs) = violations ps ++ violations qs.
Proof. unfold violations. apply bind_app. Qed.

Lemma violations_imports (l : list (str * str)) :
  violations (import_pattern <$> l) = [].
Proof.
  induction l as [|[imported path] l IH]; [done |].
  rewrite fmap_cons, (violations_cons _ _), IH. done.
Qed.

(** Without a service call among the patterns the checker is not asked. *)
Lemma collect_issues_no_service e patterns log :
  Forall (fun p => forall service method full,
                     p <> ServiceMethod service method full) patterns ->
  collect_issues e patterns log = (Return (violations patterns), log).
Proof.
  intros Hno. unfold collect_issues.
  assert (H : exists found,
             for_each (check_pattern e) patterns log = (Return found, log)
             /\ concat found = violations patterns).
  { induction Hno as [|p ps Hp _ (rest & Hps & Hrest)].
    - by exists [].
    - exists (violations [p] :: rest). cbn [for_each]. split.
      + rewrite (bind_return _ _ log (violations [p]) log).
        * by rewrite (bind_return _ _ _ _ _ Hps).
        * destruct p as [service method full | items path | iss code];
            cbn [check_pattern].
          -- by destruct (Hp service method full).
          -- done.
          -- unfold violations. cbn. destruct (str_eqb _ _); done.
      + cbn [concat]. by rewrite Hrest, (violations_cons p ps). }
  destruct H as (found & H & <-). by rewrite (bind_return _ _ _ _ _ H).
Qed.

(** X8.  A text that holds one component-decorator block [@Component({]
    [body] [})], with a body that is not empty and holds no closing brace,
    in which [standalone: true] does not occur, and that holds no other
    [@Component({] and no [this.], is answered in every world, with or
    without the tool, by the one issue [pattern_violation]: [main] returns
    the record with [validation_warnings] set to that issue, prints the
    warning block for it and launches nothing. *)
Theorem component_without_standalone_is_warned
    (e : env) (hook_data : dict) (pre body post : str) (log : list event) :
  validates hook_data (pre ++ component_block body ++ post) ->
  body <> [] -> chr "}" ∉ body ->
  ~ occurs_in (txt "standalone: true") (component_block body) ->
  ~ occurs_in (txt "this.") (pre ++ component_block body ++ post) ->
  ~ occurs_in (txt "@Component({") pre ->
  ~ occurs_in (txt "@Component({") post ->
  main e hook_data log
  = (Return (<[txt "validation_warnings" := VList [issue_value violation]]>
               hook_data),
     log ++ warning_block [violation]).
Proof.
  intros Hv Hne Hbody Hmarker Hthis Hpre Hpost.
  rewrite (main_of_validates _ _ _ _ Hv).
  destruct Hv as (_ & _ & _ & _ & _ & _ & _ & Hcontent).
  apply (validate_attach e hook_data _ log [violation] log Hcontent).
  assert (Hextract :
    extract_code_patterns (pre ++ component_block body ++ post)
    = (import_pattern <$> findall2 import_re
                            (pre ++ component_block body ++ post))
      ++ [Component (txt "missing_standalone")
            (take 50 (component_block body) ++ txt "...")]).
  { unfold extract_code_patterns, findall2 at 1.
    rewrite (finditer_without_keyword _ _ _ match_service_keyword Hthis).
    rewrite findall_component_block by done.
    unfold findall0.
    rewrite (finditer_without_keyword _ _ _ match_component_keyword Hpost).
    cbn [fmap list_fmap app]. f_equal. csimpl. unfold component_patterns.
    apply contains_occurs_false in Hmarker. by rewrite Hmarker. }
  rewrite Hextract, collect_issues_no_service.
  - by rewrite violations_app, violations_imports.
  - apply Forall_app. split; [|by repeat constructor].
    apply Forall_fmap, Forall_forall. by intros [imported path] _.
Qed.

Lemma component_validates :
  validates component_record ([] ++ component_block (txt "selector: 'x'") ++ []).
Proof.
  exists (<[txt "file_path" := VStr (txt "x.component.ts")]>
          (<[txt "content" :=
               VStr (component_block (txt "selector: 'x'"))]> ∅)),
         (txt "x.component.ts").
  do 4 (split; [vm_compute; reflexivity |]). split; [|done].
  intros log. rewrite effect_free_resolve_content. vm_compute. reflexivity.
Qed.

Lemma component_without_standalone_is_warned_witness :
  main (tool_answers (txt "ok")) component_record []
  = (Return (<[txt "validation_warnings" := VList [issue_value violation]]>
               component_record),
     [] ++ warning_block [violation]).
Proof.
  apply (component_without_standalone_is_warned (tool_answers (txt "ok"))
           component_record [] (txt "selector: 'x'") [] []).
  - apply component_validates.
  - done.
  - by apply not_in_by_compute.
  - by apply contains_occurs_false.
  - by apply contains_occurs_false.
  - by apply contains_occurs_false.
  - by apply contains_occurs_false.
Defined.

(** The replacement texts of [multiedit_component_record] make a component
    block only when joined: the text validated is the three texts with
    two line feeds between them, and the block found in it is
    reported. *)
Lemma multiedit_validates_joined_new_strings_witness :
  main no_tool multiedit_component_record []
  = validate no_tool multiedit_component_record
      (VStr (txt "@Component({" ++ [newline] ++ [] ++ [newline]
             ++ txt "selector: 'x'})")) []
  /\ validate no_tool multiedit_component_record
       (VStr (txt "@Component({" ++ [newline] ++ [] ++ [newline]
              ++ txt "selector: 'x'})")) []
     = (Return (attach_warnings [violation] multiedit_component_record),
        [] ++ printed_for [violation]).
Proof.
  split.
  - refine (proj1 (proj2 (multiedit_validates_joined_new_strings no_tool
             multiedit_component_record
             (<[txt "file_path" := VStr (txt "app.component.ts")]>
              (<[txt "edits" :=
                   VList [VDict (<[txt "new_string" :=
                                     VStr (txt "@Component({")]> ∅);
                          VDict (<[txt "old_string" := VStr (txt "x")]> ∅);
                          VDict (<[txt "new_string" :=
                                     VStr (txt "selector: 'x'})")]> ∅)]]>
               ∅))
             (txt "app.component.ts")
             [VDict (<[txt "new_string" := VStr (txt "@Component({")]> ∅);
              VDict (<[txt "old_string" := VStr (txt "x")]> ∅);
              VDict (<[txt "new_string" := VStr (txt "selector: 'x'})")]> ∅)]
             [txt "@Component({"; []; txt "selector: 'x'})"] [] _ _ _ _ _ _)));
      vm_compute; reflexivity.
  - apply validate_attach; [done |].
    replace (extract_code_patterns _)
      with [Component (txt "missing_standalone")
              (take 50 (txt "@Component({" ++ [newline] ++ [] ++ [newline]
                        ++ txt "selector: 'x'})") ++ txt "...")]
      by (vm_compute; reflexivity).
    apply collect_issues_no_service. by repeat constructor.
Defined.

(* ===================================================================== *)
(** * Giving characters back *)
(* ===================================================================== *)

(** A repetition fails when what follows it fails after every number of
    characters it can take. *)
Lemma rep_fail {A} k min extra rest pos (cont : str -> nat -> option A) :
  Forall (fun c => accepts k c = true) extra ->
  match rest with c :: _ => accepts k c = false | [] => True end ->
  (forall e1 e2, extra = e1 ++ e2 ->
                 cont (e2 ++ rest) (pos + length e1) = None) ->
  rep k min (extra ++ rest) pos cont = None.
Proof.
  intros Hextra Hrest. revert min pos.
  induction Hextra as [|c extra Hc _ IH]; intros min pos Hcont.
  - pose proof (Hcont [] [] eq_refl) as H0. cbn in H0.
    rewrite Nat.add_0_r in H0. cbn [app].
    destruct rest as [|c rest]; cbn [rep].
    + by destruct min.
    + rewrite Hrest. by destruct min.
  - cbn [app rep]. rewrite Hc. rewrite IH.
    + pose proof (Hcont [] (c :: extra) eq_refl) as H0. cbn in H0.
      rewrite Nat.add_0_r in H0. by destruct min.
    + intros e1 e2 ->. specialize (Hcont (c :: e1) e2 eq_refl).
      cbn [length] in Hcont. by rewrite Nat.add_succ_comm.
Qed.

(** A repetition gives back the characters [extra] when what follows
    succeeds before them and fails after every part of them. *)
Lemma rep_backtrack {A} k min taken extra rest pos
    (cont : str -> nat -> option A) a :
  Forall (fun c => accepts k c = true) taken ->
  Forall (fun c => accepts k c = true) extra ->
  match rest with c :: _ => accepts k c = false | [] => True end ->
  min <= length taken ->
  cont (extra ++ rest) (pos + length taken) = Some a ->
  (forall e1 e2, extra = e1 ++ e2 -> e1 <> [] ->
                 cont (e2 ++ rest) (pos + length taken + length e1) = None) ->
  rep k min (taken ++ extra ++ rest) pos cont = Some a.
Proof.
  intros Htaken Hextra Hrest. revert min pos.
  induction Htaken as [|c taken Hc _ IH]; intros min pos Hmin Hsome Hnone.
  - cbn [length] in *. assert (min = 0) as -> by lia.
    rewrite Nat.add_0_r in Hsome. cbn [app].
    destruct Hextra as [|c extra Hc Hextra].
    + cbn [app] in *. destruct rest as [|c rest]; cbn [rep]; [done |].
      by rewrite Hrest.
    + cbn [app rep]. rewrite Hc. cbn [pred]. rewrite rep_fail; [done.. |].
      intros e1 e2 ->. specialize (Hnone (c :: e1) e2 eq_refl ltac:(done)).
      cbn [length] in Hnone. rewrite Nat.add_0_r in Hnone.
      by rewrite Nat.add_succ_comm.
  - cbn [app rep length] in *. rewrite Hc. rewrite (IH (pred min) (S pos)).
    + done.
    + lia.
    + by rewrite Nat.add_succ_comm.
    + intros e1 e2 He Hne. specialize (Hnone e1 e2 He Hne).
      by rewrite Nat.add_succ_comm.
Qed.

(* ===================================================================== *)
(** * Every call of a service method *)
(* ===================================================================== *)

Lemma service_keeps_its_end (e1 e2 rest : str) :
  txt "Service" = e1 ++ e2 -> e1 <> [] ->
  startswith (e2 ++ chr "." :: rest) (txt "Service") = false.
Proof.
  intros H Hne. destruct e1 as [|c1 e1]; [done |]. clear Hne.
  cbn in H. injection H as _ H.
  do 7 (destruct e1 as [|? e1];
        [cbn in H; subst e2; reflexivity
        | cbn in H; first [discriminate H | injection H as _ H]]).
Qed.


(** The match at a call of a method of a service: the first word goes up
    to the last [Service] before the dot. *)
Lemma match_service_call (w method post : str) :
  word_text w -> w <> [] -> word_text method -> method <> [] ->
  match_at service_re
    (txt "this." ++ (w ++ txt "Service") ++ txt "." ++ method ++ txt "("
     ++ post)
  = Some (Match (txt "this." ++ (w ++ txt "Service") ++ txt "." ++ method
                 ++ txt "(")
            [w ++ txt "Service"; method]).
Proof.
  intros Hw Hwne Hm Hmne.
  assert (Hwlen : 1 <= length w) by (destruct w; [done | cbn; lia]).
  assert (Hmlen : 1 <= length method) by (destruct method; [done | cbn; lia]).
  unfold match_at, service_re, cat. cbn [foldr exec].
  change (txt "this." ++ (w ++ txt "Service") ++ txt "." ++ method ++ txt "("
          ++ post)
    with (txt "this" ++ chr "." :: (w ++ txt "Service") ++ chr "." :: method
          ++ chr "(" :: post).
  rewrite exec_lit_app. cbv beta. cbn [accepts].
  rewrite bool_decide_eq_true_2 by done.
  rewrite <- (assoc_L (++) w).
  apply rep_backtrack; [done | by repeat constructor | done | done | |].
  - rewrite exec_lit_app. cbv beta. rewrite bool_decide_eq_true_2 by done.
    apply rep_greedy; [done | done | | done].
    rewrite bool_decide_eq_true_2 by done. f_equal.
    f_equal; [|cbn [fmap list_fmap app fst snd]; f_equal; [|f_equal]].
    + change (txt "this" ++ chr "." :: w ++ txt "Service" ++ chr "." :: method
              ++ chr "(" :: post)
        with (txt "this." ++ w ++ txt "Service" ++ txt "." ++ method
              ++ txt "(" ++ post).
      rewrite <- (assoc_L (++) w), !(assoc_L (++)). apply take_prefix.
      rewrite !length_app. cbn. lia.
    + change (txt "this" ++ chr "." :: w ++ txt "Service" ++ chr "." :: method
              ++ chr "(" :: post)
        with (txt "this." ++ w ++ txt "Service" ++ txt "." ++ method
              ++ txt "(" ++ post).
      rewrite (assoc_L (++) w).
      apply (slice_at (txt "this.") (w ++ txt "Service")).
      * cbn. lia.
      * rewrite !length_app. cbn. lia.
    + change (txt "this" ++ chr "." :: w ++ txt "Service" ++ chr "." :: method
              ++ chr "(" :: post)
        with (txt "this." ++ w ++ txt "Service" ++ txt "." ++ method
              ++ txt "(" ++ post).
      rewrite (assoc_L (++) w).
      rewrite (assoc_L (++) (txt "this.")), (assoc_L (++) _ (txt ".")).
      apply slice_at; rewrite !length_app; cbn; lia.
  - intros e1 e2 He Hne. rewrite exec_lit.
    by rewrite (service_keeps_its_end e1 e2).
Qed.

(** No call of a method of a service starts inside a match of the
    pattern. *)
Lemma service_no_inner_call (w method s : str) m j :
  word_text w -> word_text method ->
  match_at service_re s = Some m ->
  0 < j < length (whole m) ->
  startswith (drop j s)
    (txt "this." ++ (w ++ txt "Service") ++ txt "." ++ method ++ txt "(")
  = false.
Proof.
  intros Hw0%word_service Hm0.
  intros (w' & method' & rest & -> & Hw%word_service & _ & Hm & _ & ->)
    %match_service_shape. cbn [whole]. intros Hj.
  destruct (startswith _ _) eqn:Hstart; [exfalso | done].
  apply startswith_prefix in Hstart as [post Hpost].
  set (S0 := w ++ txt "Service") in *.
  set (S := w' ++ txt "Service") in *.
  set (W := txt "this." ++ S ++ txt "." ++ method').
  assert (HW : W = take j W ++ txt "this." ++ S0 ++ txt "." ++ method).
  { apply (inner_occurrence_ends_together (chr "(") W _ rest post).
    - unfold W. rewrite !not_elem_of_app. repeat split.
      + by apply not_in_by_compute.
      + by apply not_in_word.
      + by apply not_in_by_compute.
      + by apply not_in_word.
    - rewrite !not_elem_of_app. repeat split.
      + by apply not_in_by_compute.
      + by apply not_in_word.
      + by apply not_in_by_compute.
      + by apply not_in_word.
    - revert Hj. unfold W. rewrite !length_app. cbn. lia.
    - etrans; [|etrans; [exact Hpost |]].
      + f_equal. unfold W. by rewrite <- !(assoc_L (++)).
      + by rewrite <- !(assoc_L (++)). }
  assert (Hjlen : length (take j W) = j).
  { apply length_take_le. revert Hj. unfold W. rewrite !length_app. cbn. lia. }
  revert HW. generalize (take j W) Hjlen. intros X HX. unfold W.
  change (txt "this." ++ S ++ txt "." ++ method')
    with ((txt "this" ++ chr "." :: S) ++ chr "." :: method') .
  change (X ++ txt "this." ++ S0 ++ txt "." ++ method)
    with (X ++ (txt "this" ++ chr "." :: S0) ++ chr "." :: method).
  rewrite <- !(assoc_L (++)).
  rewrite (assoc_L (++) X (txt "this")), !(assoc_L (++) _ _ (_ :: _)).
  intros H.
  apply (span_unique_r (fun c => accepts Word c = true)) in H as [H _];
    [| done | done | done].
  apply (span_unique_r (fun c => accepts Word c = true)) in H as [H _];
    [| done | done | done].
  apply (f_equal length) in H. rewrite length_app in H. cbn in H. lia.
Qed.

(** A match has the groups of a call where the text starts with the
    call. *)
Lemma match_service_groups (w method s : str) m :
  word_text w -> w <> [] -> word_text method -> method <> [] ->
  match_at service_re s = Some m ->
  (group m 1 = w ++ txt "Service" /\ group m 2 = method)
  <-> startswith s
        (txt "this." ++ (w ++ txt "Service") ++ txt "." ++ method ++ txt "(")
      = true.
Proof.
  intros Hw Hwne Hmeth Hmne Hm. split.
  - apply match_service_shape in Hm
      as (w' & method' & rest & -> & _ & _ & _ & _ & ->).
    unfold group. cbn [groups pred lookup list_lookup default from_option id].
    intros [-> ->]. apply startswith_prefix. exists rest.
    by rewrite <- !(assoc_L (++)).
  - intros [post ->]%startswith_prefix.
    rewrite <- !(assoc_L (++)) in Hm.
    rewrite (assoc_L (++) w) in Hm.
    rewrite match_service_call in Hm by done. by injection Hm as <-.
Qed.

Lemma service_pattern_call (w method service method' : str) :
  service_pattern (service, method')
  = ServiceMethod (w ++ txt "Service") method
      (txt "this." ++ (w ++ txt "Service") ++ txt "." ++ method ++ txt "()")
  <-> service = w ++ txt "Service" /\ method' = method.
Proof.
  cbn [service_pattern]. split; [by intros [= -> ->] | by intros [-> ->]].
Qed.

(** The scan of a text finds every call of a method of a service once. *)
Lemma scan_service_calls (w method s : str) skip :
  word_text w -> w <> [] -> word_text method -> method <> [] ->
  (forall i, i < skip ->
     startswith (drop i s)
       (txt "this." ++ (w ++ txt "Service") ++ txt "." ++ method ++ txt "(")
     = false) ->
  length (filter
            (fun p => p = ServiceMethod (w ++ txt "Service") method
                            (txt "this." ++ (w ++ txt "Service") ++ txt "."
                             ++ method ++ txt "()"))
            (service_pattern
               <$> ((fun m => (group m 1, group m 2))
                      <$> scan service_re s skip)))
  = occurrences
      (txt "this." ++ (w ++ txt "Service") ++ txt "." ++ method ++ txt "(") s.
Proof.
  intros Hw Hwne Hmeth Hmne.
  revert skip. induction s as [|c s IH]; intros skip Hskip.
  - destruct skip; cbn [scan]; [|done].
    by replace (match_at service_re []) with (@None mtch)
      by (by vm_compute).
  - cbn [occurrences]. destruct skip as [|n]; cbn [scan].
    + destruct (match_at service_re (c :: s)) as [m|] eqn:Hm.
      * rewrite !fmap_cons, filter_cons.
        rewrite <- (IH (pred (length (whole m)))).
        2:{ intros i Hi. change (drop i s) with (drop (S i) (c :: s)).
            eapply service_no_inner_call; [done | done | done | lia]. }
        pose proof (match_service_groups w method _ _ Hw Hwne Hmeth Hmne Hm)
          as Hiff.
        rewrite <- service_pattern_call in Hiff.
        destruct (startswith (c :: s) _).
        -- rewrite decide_True by (by apply Hiff). done.
        -- rewrite decide_False; [done |]. intros H%Hiff. done.
      * destruct (startswith (c :: s) _) eqn:Hstart.
        -- apply startswith_prefix in Hstart as [post Hpost].
           rewrite Hpost in Hm. rewrite <- !(assoc_L (++)) in Hm.
           rewrite (assoc_L (++) w) in Hm.
           rewrite match_service_call in Hm by done. done.
        -- by rewrite (IH 0) by (intros; lia).
    + pose proof (Hskip 0 ltac:(lia)) as H0. cbn [drop] in H0. rewrite H0.
      apply IH. intros i Hi.
      apply (Hskip (S i)). lia.
Qed.

(** X9.  Every call of a method of a service is extracted once, whatever
    the names: for a word [w] and a word [method], both not empty, the
    records with [service = <w>Service], [method] and
    [full = this.<w>Service.<method>()] are as many as the places of the
    text where [this.<w>Service.<method>(] starts.  The first word of the
    pattern gives back the characters of [Service], and no call starts
    inside the match of another. *)
Theorem every_service_call_extracted_once (w method content : str) :
  word_text w -> w <> [] -> word_text method -> method <> [] ->
  length (filter
            (fun p => p = ServiceMethod (w ++ txt "Service") method
                            (txt "this." ++ (w ++ txt "Service") ++ txt "."
                             ++ method ++ txt "()"))
            (extract_code_patterns content))
  = occurrences
      (txt "this." ++ (w ++ txt "Service") ++ txt "." ++ method ++ txt "(")
      content.
Proof.
  intros Hw Hwne Hmeth Hmne.
  unfold extract_code_patterns, findall2, findall0.
  rewrite !filter_app, !length_app.
  rewrite (filter_none _ (import_pattern <$> _)).
  2:{ apply Forall_fmap, Forall_forall. by intros [imported path] _. }
  rewrite (filter_none _ (_ ≫= component_patterns)).
  2:{ apply Forall_forall. intros p (comp & H & _)%list_elem_of_bind.
      apply component_patterns_are_components in H as (? & ? & ->). done. }
  cbn [length]. rewrite !Nat.add_0_r.
  apply scan_service_calls; [done.. |]. intros i Hi. lia.
Qed.

Lemma every_service_call_extracted_once_witness :
  length (filter
            (fun p => p = ServiceMethod (txt "userService" ++ txt "Service")
                            (txt "load")
                            (txt "this." ++ (txt "userService" ++ txt "Service")
                             ++ txt "." ++ txt "load" ++ txt "()"))
            (extract_code_patterns
               (txt "this.userServiceService.load(this.userService.load())")))
  = occurrences
      (txt "this." ++ (txt "userService" ++ txt "Service") ++ txt "."
       ++ txt "load" ++ txt "(")
      (txt "this.userServiceService.load(this.userService.load())").
Proof.
  apply (every_service_call_extracted_once (txt "userService") (txt "load")).
  - unfold word_text. repeat constructor.
  - done.
  - unfold word_text. repeat constructor.
  - done.
Defined.


(* ===================================================================== *)
(** * Import statements *)
(* ===================================================================== *)

Lemma accepts_one_of l c : accepts (OneOf l) c = true <-> c ∈ l.
Proof. cbn. unfold char_in. apply bool_decide_eq_true. Qed.

Lemma quote_no_space q : q ∈ quotes -> isspace q = false.
Proof.
  intros [-> | [-> | []%elem_of_nil]%elem_of_cons]%elem_of_cons; reflexivity.
Qed.

(** The match at an import statement. *)
Lemma match_import_statement ws1 imported ws2 ws3 q1 path q2 post :
  space_text ws1 -> space_text ws2 -> space_text ws3 ->
  imported <> [] -> chr "}" ∉ imported ->
  q1 ∈ quotes -> q2 ∈ quotes ->
  path <> [] -> Forall (fun c => c ∉ quotes) path ->
  match_at import_re
    (import_statement ws1 imported ws2 ws3 q1 path q2 ++ post)
  = Some (Match (import_statement ws1 imported ws2 ws3 q1 path q2)
            [imported; path]).
Proof.
  intros Hws1 Hws2 Hws3 Hine Himp Hq1 Hq2 Hpne Hpath.
  assert (Hilen : 1 <= length imported) by (destruct imported; [done | cbn; lia]).
  assert (Hplen : 1 <= length path) by (destruct path; [done | cbn; lia]).
  unfold match_at, import_re, cat. cbn [foldr exec].
  unfold import_statement at 1. rewrite <- !(assoc_L (++)).
  rewrite exec_lit_app. cbv beta.
  apply rep_greedy; [exact Hws1 | cbn; lia | | reflexivity].
  cbn [app txt]. change (accepts (Lit (chr "{")) (chr "{")) with true. cbv iota.
  apply rep_greedy; [| done | | reflexivity].
  { apply Forall_forall. intros c Hc. apply accepts_none_of.
    intros ->%list_elem_of_singleton. done. }
  change (accepts (Lit (chr "}")) (chr "}")) with true. cbv iota.
  apply rep_greedy; [exact Hws2 | cbn; lia | | reflexivity].
  change (chr "f" :: chr "r" :: chr "o" :: chr "m" :: ws3 ++ q1 :: path
          ++ q2 :: post)
    with (txt "from" ++ ws3 ++ q1 :: path ++ q2 :: post).
  rewrite exec_lit_app. cbv beta.
  apply rep_greedy; [exact Hws3 | cbn; lia | | by apply quote_no_space].
  rewrite (proj2 (accepts_one_of _ q1)) by exact Hq1.
  apply rep_greedy; [| done | |].
  { eapply Forall_impl; [exact Hpath |]. intros c Hc. by apply accepts_none_of. }
  2:{ apply not_true_is_false. by intros H%accepts_none_of. }
  rewrite (proj2 (accepts_one_of _ q2)) by exact Hq2.
  f_equal. f_equal; [|cbn [fmap list_fmap app fst snd]; f_equal; [|f_equal]].
  - apply take_prefix. unfold import_statement. rewrite !length_app. cbn. lia.
  - replace (import_statement ws1 imported ws2 ws3 q1 path q2 ++ post)
      with ((txt "import" ++ ws1 ++ txt "{") ++ imported
            ++ (txt "}" ++ ws2 ++ txt "from" ++ ws3 ++ [q1] ++ path ++ [q2]
                ++ post))
      by (unfold import_statement; by rewrite <- !(assoc_L (++))).
    apply slice_at; rewrite !length_app; cbn; lia.
  - replace (import_statement ws1 imported ws2 ws3 q1 path q2 ++ post)
      with ((txt "import" ++ ws1 ++ txt "{" ++ imported ++ txt "}" ++ ws2
             ++ txt "from" ++ ws3 ++ [q1]) ++ path ++ ([q2] ++ post))
      by (unfold import_statement; by rewrite <- !(assoc_L (++))).
    apply slice_at; rewrite !length_app; cbn; lia.
Qed.

(** A match of the import pattern is an import statement. *)
Lemma match_import_shape s m :
  match_at import_re s = Some m ->
  exists ws1 imported ws2 ws3 q1 path q2 rest,
    s = import_statement ws1 imported ws2 ws3 q1 path q2 ++ rest
    /\ space_text ws1 /\ space_text ws2 /\ space_text ws3
    /\ imported <> [] /\ (chr "}" ∉ imported)
    /\ q1 ∈ quotes /\ q2 ∈ quotes
    /\ path <> [] /\ Forall (fun c => c ∉ quotes) path
    /\ m = Match (import_statement ws1 imported ws2 ws3 q1 path q2)
             [imported; path].
Proof.
  unfold match_at, import_re, cat. cbn [foldr exec]. intros H.
  apply exec_lit_sound in H as (r0 & Hs & H). cbv beta in H.
  apply rep_sound in H as (ws1 & r1 & -> & Hws1 & _ & H).
  destruct r1 as [|c1 r1]; [done |].
  destruct (accepts (Lit (chr "{")) c1) eqn:Hc1; [|done].
  apply accepts_lit in Hc1 as ->.
  apply rep_sound in H as (imported & r2 & -> & Himp & Hilen & H).
  destruct r2 as [|c2 r2]; [done |].
  destruct (accepts (Lit (chr "}")) c2) eqn:Hc2; [|done].
  apply accepts_lit in Hc2 as ->.
  apply rep_sound in H as (ws2 & r3 & -> & Hws2 & _ & H).
  apply exec_lit_sound in H as (r4 & -> & H). cbv beta in H.
  apply rep_sound in H as (ws3 & r5 & -> & Hws3 & _ & H).
  destruct r5 as [|q1 r5]; [done |].
  destruct (accepts (OneOf [chr "'"; dquote]) q1) eqn:Hq1; [|done].
  apply accepts_one_of in Hq1.
  apply rep_sound in H as (path & r6 & -> & Hpath & Hplen & H).
  destruct r6 as [|q2 r6]; [done |].
  destruct (accepts (OneOf [chr "'"; dquote]) q2) eqn:Hq2; [|done].
  apply accepts_one_of in Hq2.
  injection H as <-.
  exists ws1, imported, ws2, ws3, q1, path, q2, r6.
  assert (Hs' : s = import_statement ws1 imported ws2 ws3 q1 path q2 ++ r6).
  { rewrite Hs. unfold import_statement. by rewrite <- !(assoc_L (++)). }
  split; [done |]. do 3 (split; [done |]).
  split; [by (intros ->; cbn in Hilen; lia) |].
  split.
  { intros Hin. eapply Forall_forall in Himp; [|done].
    apply accepts_none_of in Himp. apply Himp. by apply list_elem_of_here. }
  do 2 (split; [done |]).
  split; [by (intros ->; cbn in Hplen; lia) |].
  split.
  { eapply Forall_impl; [exact Hpath |]. intros c Hc. by apply accepts_none_of. }
  rewrite Hs'. clear Hs Hs'.
  f_equal; [|cbn [fmap list_fmap app fst snd]; f_equal; [|f_equal]].
  - apply take_prefix. unfold import_statement. rewrite !length_app. cbn. lia.
  - replace (import_statement ws1 imported ws2 ws3 q1 path q2 ++ r6)
      with ((txt "import" ++ ws1 ++ txt "{") ++ imported
            ++ (txt "}" ++ ws2 ++ txt "from" ++ ws3 ++ [q1] ++ path ++ [q2]
                ++ r6))
      by (unfold import_statement; by rewrite <- !(assoc_L (++))).
    apply slice_at; rewrite !length_app; cbn; lia.
  - replace (import_statement ws1 imported ws2 ws3 q1 path q2 ++ r6)
      with ((txt "import" ++ ws1 ++ txt "{" ++ imported ++ txt "}" ++ ws2
             ++ txt "from" ++ ws3 ++ [q1]) ++ path ++ ([q2] ++ r6))
      by (unfold import_statement; by rewrite <- !(assoc_L (++))).
    apply slice_at; rewrite !length_app; cbn; lia.
Qed.

Lemma import_statement_keyword ws1 imported ws2 ws3 q1 path q2 post :
  startswith (import_statement ws1 imported ws2 ws3 q1 path q2 ++ post)
    (txt "import") = true.
Proof.
  unfold import_statement. rewrite <- !(assoc_L (++)). apply startswith_app.
Qed.

Lemma import_statement_not_nil ws1 imported ws2 ws3 q1 path q2 :
  import_statement ws1 imported ws2 ws3 q1 path q2 <> [].
Proof. done. Qed.

(** The pieces of a split are one more than the separators. *)
Lemma str_split_length sep s :
  length (str_split sep s) = S (length (filter (fun c => c = sep) s)).
Proof.
  induction s as [|c s IH]; [done |]. cbn [str_split].
  rewrite (filter_cons (fun c => c = sep) c s).
  destruct (decide (c = sep)) as [-> | Hc].
  - rewrite bool_decide_eq_true_2 by done. cbn [length]. by rewrite IH.
  - rewrite bool_decide_eq_false_2 by done.
    destruct (str_split sep s) as [|p ps]; [done |]. exact IH.
Qed.

(** X10.  An import statement is read in every layout the pattern
    allows: any white space, line feeds included, or none between
    [import], the braces, [from] and the path; either quote at either end
    of the path, the closing one not having to be the opening one; in the
    braces any text without a closing brace, and as path any text without
    a quote.  Such a statement before which [import] does not occur gives
    the first import record of the text, with the pieces of the text in
    the braces as items and the text between the quotes as path, and the
    import records of what follows the statement come after it. *)
Theorem import_statement_extracted
    (pre post ws1 imported ws2 ws3 path : str) (q1 q2 : char) :
  space_text ws1 -> space_text ws2 -> space_text ws3 ->
  imported <> [] -> chr "}" ∉ imported ->
  q1 ∈ quotes -> q2 ∈ quotes ->
  path <> [] -> Forall (fun c => c ∉ quotes) path ->
  ~ occurs_in (txt "import") pre ->
  import_pattern
    <$> findall2 import_re
          (pre ++ import_statement ws1 imported ws2 ws3 q1 path q2 ++ post)
  = Import (strip <$> str_split (chr ",") imported) path
    :: (import_pattern <$> findall2 import_re post)
  /\ Import (strip <$> str_split (chr ",") imported) path
     ∈ extract_code_patterns
         (pre ++ import_statement ws1 imported ws2 ws3 q1 path q2 ++ post).
Proof.
  intros Hws1 Hws2 Hws3 Hine Himp Hq1 Hq2 Hpne Hpath Hpre.
  assert (Hall :
    findall2 import_re
      (pre ++ import_statement ws1 imported ws2 ws3 q1 path q2 ++ post)
    = (imported, path) :: findall2 import_re post).
  { unfold findall2, finditer. rewrite scan_skips.
    - by rewrite (scan_match_head _ _ _ post
                    (match_import_statement ws1 imported ws2 ws3 q1 path q2
                       post Hws1 Hws2 Hws3 Hine Himp Hq1 Hq2 Hpne Hpath)).
    - intros i Hi.
      destruct (match_at import_re _) as [m|] eqn:Hm; [exfalso | done].
      apply match_import_keyword in Hm.
      rewrite keyword_not_before in Hm; [done | done | | | done].
      + apply import_statement_keyword.
      + apply import_keyword_borderless. }
  split.
  - by rewrite Hall, fmap_cons.
  - unfold extract_code_patterns. apply elem_of_app. right.
    apply elem_of_app. left. rewrite Hall, fmap_cons.
    apply list_elem_of_here.
Qed.

Lemma import_statement_extracted_witness :
  import_pattern
    <$> findall2 import_re
          (txt "// app"
           ++ import_statement [newline] (txt "A,") [] [] dquote (txt "x/y")
                (chr "'")
           ++ txt ";")
  = Import (strip <$> str_split (chr ",") (txt "A,")) (txt "x/y")
    :: (import_pattern <$> findall2 import_re (txt ";"))
  /\ Import (strip <$> str_split (chr ",") (txt "A,")) (txt "x/y")
     ∈ extract_code_patterns
         (txt "// app"
          ++ import_statement [newline] (txt "A,") [] [] dquote (txt "x/y")
               (chr "'")
          ++ txt ";").
Proof.
  apply (import_statement_extracted (txt "// app") (txt ";") [newline]
           (txt "A,") [] [] (txt "x/y") dquote (chr "'")).
  - unfold space_text. by repeat constructor.
  - unfold space_text. by repeat constructor.
  - unfold space_text. by repeat constructor.
  - done.
  - by apply not_in_by_compute.
  - unfold quotes. apply list_elem_of_further, list_elem_of_here.
  - unfold quotes. apply list_elem_of_here.
  - done.
  - repeat (apply Forall_cons_2; [by apply not_in_by_compute |]).
    apply Forall_nil_2.
  - by apply contains_occurs_false.
Defined.

(** X11.  Every import record comes from an import statement of the
    text: the statement occurs in the text, its parts are separated by
    white space only, the path stands between two quotes, is not empty and
    holds no quote, the text in the braces is not empty and holds no
    closing brace, and the items are its pieces between the commas, each
    stripped: one more than it has commas, so at least one, empty ones
    included. *)
Theorem import_records_come_from_statements
    (content : str) (items : list str) (path : str) :
  Import items path ∈ extract_code_patterns content ->
  exists ws1 imported ws2 ws3 q1 q2,
    occurs_in (import_statement ws1 imported ws2 ws3 q1 path q2) content
    /\ space_text ws1 /\ space_text ws2 /\ space_text ws3
    /\ q1 ∈ quotes /\ q2 ∈ quotes
    /\ imported <> [] /\ (chr "}" ∉ imported)
    /\ path <> [] /\ Forall (fun c => c ∉ quotes) path
    /\ items = strip <$> str_split (chr ",") imported
    /\ length items = S (length (filter (fun c => c = chr ",") imported)).
Proof.
  intros (imported & Hin & ->)%import_pattern_origin.
  unfold findall2 in Hin.
  apply list_elem_of_fmap in Hin as (m & Heq & Hm).
  apply scan_match in Hm as (pre & post & -> & Hm).
  apply match_import_shape in Hm
    as (ws1 & imported' & ws2 & ws3 & q1 & path' & q2 & rest & -> & Hws1 & Hws2
        & Hws3 & Hine & Himp & Hq1 & Hq2 & Hpne & Hpath & ->).
  unfold group in Heq.
  cbn [groups pred lookup list_lookup default from_option id] in Heq.
  injection Heq as -> ->.
  exists ws1, imported', ws2, ws3, q1, q2.
  split; [by exists pre, rest |]. do 9 (split; [done |]).
  split; [done |]. by rewrite length_fmap, str_split_length.
Qed.

Lemma import_records_come_from_statements_witness :
  exists ws1 imported ws2 ws3 q1 q2,
    occurs_in (import_statement ws1 imported ws2 ws3 q1 (txt "x/y") q2)
      (txt "// app" ++ import_line)
    /\ space_text ws1 /\ space_text ws2 /\ space_text ws3
    /\ q1 ∈ quotes /\ q2 ∈ quotes
    /\ imported <> [] /\ (chr "}" ∉ imported)
    /\ txt "x/y" <> [] /\ Forall (fun c => c ∉ quotes) (txt "x/y")
    /\ [txt "A"; txt "B"] = strip <$> str_split (chr ",") imported
    /\ length [txt "A"; txt "B"]
       = S (length (filter (fun c => c = chr ",") imported)).
Proof.
  apply (import_records_come_from_statements (txt "// app" ++ import_line)
           [txt "A"; txt "B"] (txt "x/y")).
  vm_compute. apply list_elem_of_here.
Defined.


(* ===================================================================== *)
(** * Running the hook on its own result *)
(* ===================================================================== *)

(** The three ways of a call of [main], for all logs at once. *)
Lemma main_cases_all e hook_data :
  (forall log, main e hook_data log = (Return hook_data, log))
  \/ (exists x, forall log, main e hook_data log = (Raise x, log))
  \/ (exists content, validates hook_data content).
Proof.
  destruct (value_in (dict_get hook_data (txt "tool_name") (VStr []))
              write_tools) eqn:Htool.
  2:{ left. intros log. by apply main_gated_tool. }
  destruct (dict_get hook_data (txt "params") (VDict ∅)) as [| | | | |l|params]
    eqn:Hparams.
  1-6: right; left; exists AttributeError; intros log; unfold main;
       rewrite Htool, Hparams; reflexivity.
  destruct (dict_get params (txt "file_path") (VStr [])) as [| | | |file_path| |]
    eqn:Hpath.
  1-4, 6-7: right; left; exists AttributeError; intros log; unfold main;
       rewrite Htool, Hparams; cbn [negb get]; unfold bind at 1, ret at 1;
       rewrite Hpath; reflexivity.
  destruct (endswith_any file_path ts_suffixes) eqn:Hts.
  2:{ left. intros log. by eapply main_gated_file. }
  pose proof (effect_free_resolve_content
                (dict_get hook_data (txt "tool_name") (VStr []))
                (VDict params)) as Hfree.
  destruct (resolve_content (dict_get hook_data (txt "tool_name") (VStr []))
              (VDict params) []) as [[content|x] log0] eqn:Hres.
  2:{ right; left. exists x. intros log. erewrite main_past_gates by done.
      unfold bind. rewrite Hfree, Hres. reflexivity. }
  assert (Hcontent : forall log,
             resolve_content (dict_get hook_data (txt "tool_name") (VStr []))
               (VDict params) log = (Return content, log)).
  { intros log1. by rewrite Hfree, Hres. }
  destruct (truthy content) eqn:Htruthy.
  2:{ left. intros log. by eapply main_gated_content. }
  destruct content as [| | | |c| |].
  1-4, 6-7: right; left; exists TypeError; intros log;
       erewrite main_past_gates by done; unfold bind at 1;
       rewrite Hcontent; unfold validate; rewrite Htruthy; reflexivity.
  right; right. exists c. exists params, file_path. repeat split; try done.
  intros ->. done.
Qed.

(** In a world without a history the checks of the patterns give the same
    issues and add the same events wherever they start. *)
Lemma check_pattern_steady e p :
  history_free e ->
  exists found added,
    forall log, check_pattern e p log = (Return found, log ++ added).
Proof.
  intros [Hpath Hrun].
  destruct p as [service method full | items path | iss code];
    cbn [check_pattern].
  - unfold validate_with_antihall, bind, exists_, run, ret.
    destruct (path_exists e [] antihall_dir) eqn:Hdir.
    + destruct (subprocess_run e []
                  [txt "npm"; txt "run"; txt "check"; full] antihall_dir 10)
        as [stdout stderr | description] eqn:Hres.
      * destruct (negb (bool_decide (stdout = []))
                  && contains stdout (txt "does not exist")) eqn:Hout.
        -- eexists _, [_]. intros log. rewrite Hpath, Hdir. cbn [negb].
           cbv beta iota. by rewrite Hrun, Hres, Hout.
        -- eexists [], [_]. intros log. rewrite Hpath, Hdir. cbn [negb].
           cbv beta iota. by rewrite Hrun, Hres, Hout.
      * eexists [], [_]. intros log. rewrite Hpath, Hdir. cbn [negb].
        cbv beta iota. by rewrite Hrun, Hres.
    + exists [], []. intros log. by rewrite Hpath, Hdir, app_nil_r.
  - exists [], []. intros log. unfold ret. by rewrite app_nil_r.
  - destruct (str_eqb iss (txt "missing_standalone")).
    + eexists _, []. intros log. unfold ret. by rewrite app_nil_r.
    + exists [], []. intros log. unfold ret. by rewrite app_nil_r.
Qed.

Lemma collect_issues_steady e patterns :
  history_free e ->
  exists issues added,
    forall log,
      collect_issues e patterns log = (Return issues, log ++ added).
Proof.
  intros He. unfold collect_issues.
  assert (H : exists found added,
             forall log, for_each (check_pattern e) patterns log
                         = (Return found, log ++ added)).
  { induction patterns as [|p ps (rest & added2 & Hps)].
    - exists [], []. intros log. cbn [for_each]. unfold ret.
      by rewrite app_nil_r.
    - destruct (check_pattern_steady e p He) as (found & added1 & Hp).
      exists (found :: rest), (added1 ++ added2). intros log.
      cbn [for_each]. rewrite (bind_return _ _ _ _ _ (Hp log)).
      rewrite (bind_return _ _ _ _ _ (Hps _)). unfold ret.
      by rewrite <- (assoc_L (++)). }
  destruct H as (found & added & H). exists (concat found), added.
  intros log. by rewrite (bind_return _ _ _ _ _ (H log)).
Qed.

(** The warnings attached do not change what [main] reads. *)
Lemma validates_attach_warnings issues hook_data content :
  validates hook_data content ->
  validates (attach_warnings issues hook_data) content.
Proof.
  destruct issues as [|i issues]; [done |]. cbn [attach_warnings].
  intros (params & file_path & Htool & Hparams & Hrest).
  exists params, file_path. unfold dict_get in *.
  rewrite !lookup_insert_ne by done. done.
Qed.

Lemma attach_warnings_twice issues hook_data :
  attach_warnings issues (attach_warnings issues hook_data)
  = attach_warnings issues hook_data.
Proof.
  destruct issues as [|i issues]; [done |]. cbn [attach_warnings].
  apply insert_insert_eq.
Qed.

(** X12.  In a world whose answers do not depend on what happened
    before, the hook run on its own result returns that result and does to
    the world what the first run did: the warnings that the first run
    attached are not read by the second, which validates the same text,
    collects the same issues, launches and prints the same, and sets
    [validation_warnings] to what it holds already. *)
Theorem main_on_its_own_result
    (e : env) (hook_data r : dict) (log log1 log2 : list event) :
  history_free e ->
  main e hook_data log = (Return r, log1) ->
  exists added,
    log1 = log ++ added
    /\ main e r log2 = (Return r, log2 ++ added).
Proof.
  intros He Hmain.
  destruct (main_cases_all e hook_data) as [H | [(x & H) | (content & Hv)]].
  - rewrite H in Hmain. injection Hmain as <- <-. exists [].
    by rewrite H, !app_nil_r.
  - rewrite H in Hmain. done.
  - destruct (collect_issues_steady e (extract_code_patterns content) He)
      as (issues & added & Hc).
    assert (Hne : content <> [])
      by (by destruct Hv as (? & ? & ? & ? & ? & ? & ? & ?)).
    rewrite (main_of_validates _ _ _ _ Hv) in Hmain.
    rewrite (validate_attach _ _ _ _ _ _ Hne (Hc log)) in Hmain.
    injection Hmain as <- <-. exists (added ++ printed_for issues).
    split; [by rewrite (assoc_L (++)) |].
    rewrite (main_of_validates _ _ content)
      by (by apply validates_attach_warnings).
    rewrite (validate_attach _ _ _ _ _ _ Hne (Hc log2)).
    by rewrite attach_warnings_twice, (assoc_L (++)).
Qed.

Lemma scenario_run_reported :
  main (tool_answers (txt "Method loginWithMagicLink does not exist"))
    scenario_record []
  = (Return (attach_warnings
               [hallucination (txt "authService") (txt "loginWithMagicLink")]
               scenario_record),
     [] ++ [launch (txt "this.authService.loginWithMagicLink()")]
     ++ printed_for
          [hallucination (txt "authService") (txt "loginWithMagicLink")]).
Proof.
  rewrite (main_of_validates _ _ _ _ scenario_validates).
  rewrite (assoc_L (++)). apply validate_attach; [done |].
  rewrite extract_scenario. vm_compute. reflexivity.
Qed.

Lemma main_on_its_own_result_witness :
  exists added,
    [] ++ [launch (txt "this.authService.loginWithMagicLink()")]
    ++ printed_for
         [hallucination (txt "authService") (txt "loginWithMagicLink")]
    = [] ++ added
    /\ main (tool_answers (txt "Method loginWithMagicLink does not exist"))
         (attach_warnings
            [hallucination (txt "authService") (txt "loginWithMagicLink")]
            scenario_record) []
       = (Return (attach_warnings
                    [hallucination (txt "authService")
                       (txt "loginWithMagicLink")]
                    scenario_record),
          [] ++ added).
Proof.
  apply (main_on_its_own_result
           (tool_answers (txt "Method loginWithMagicLink does not exist"))
           scenario_record _ [] _ []).
  - split; reflexivity.
  - apply scenario_run_reported.
Defined.


(* ===================================================================== *)
(** * The imports in main *)
(* ===================================================================== *)

(** X14.  The imports are extracted and then left alone: [main] has no
    branch for an import record.  A text in which neither [this.] nor
    [@Component({] occurs, whatever it imports, is let through in every
    world: [main] returns the record as it was, launches nothing and
    prints nothing. *)
Theorem imports_are_not_checked
    (e : env) (hook_data : dict) (content : str) (log : list event) :
  validates hook_data content ->
  ~ occurs_in (txt "this.") content ->
  ~ occurs_in (txt "@Component({") content ->
  main e hook_data log = (Return hook_data, log).
Proof.
  intros Hv Hthis Hcomp. rewrite (main_of_validates _ _ _ _ Hv).
  destruct Hv as (_ & _ & _ & _ & _ & _ & _ & Hne).
  assert (Hextract :
    extract_code_patterns content
    = import_pattern <$> findall2 import_re content).
  { unfold extract_code_patterns, findall2 at 1, findall0.
    rewrite (finditer_without_keyword _ _ _ match_service_keyword Hthis).
    rewrite (finditer_without_keyword _ _ _ match_component_keyword Hcomp).
    cbn [fmap list_fmap app]. csimpl. by rewrite app_nil_r. }
  rewrite (validate_attach e hook_data content log [] log Hne).
  - cbn [attach_warnings printed_for]. by rewrite app_nil_r.
  - rewrite Hextract, collect_issues_no_service.
    + by rewrite violations_imports.
    + apply Forall_fmap, Forall_forall. by intros [imported path] _.
Qed.

Lemma import_edit_validates : validates import_edit_record import_line.
Proof.
  exists (<[txt "file_path" := VStr (txt "app.ts")]>
          (<[txt "old_string" := VStr (txt "// imports")]>
           (<[txt "new_string" := VStr import_line]> ∅))),
         (txt "app.ts").
  do 4 (split; [vm_compute; reflexivity |]). split; [|done].
  intros log. rewrite effect_free_resolve_content. vm_compute. reflexivity.
Qed.

Lemma imports_are_not_checked_witness :
  main (tool_answers (txt "Method x does not exist")) import_edit_record []
  = (Return import_edit_record, []).
Proof.
  apply (imports_are_not_checked _ import_edit_record import_line []).
  - apply import_edit_validates.
  - by apply contains_occurs_false.
  - by apply contains_occurs_false.
Defined.

(* ===================================================================== *)
(** * The hook in a world with faults *)
(* ===================================================================== *)

Lemma for_each_ext {A B} (f g : A -> io B) (l : list A) log :
  (forall x log, f x log = g x log) ->
  for_each f l log = for_each g l log.
Proof.
  intros Hfg. revert log. induction l as [|x l IH]; intros log; [done |].
  cbn [for_each]. unfold bind. rewrite Hfg.
  destruct (g x log) as [[y|exc] log1]; [|done]. by rewrite IH.
Qed.

(** In a world where the test of the directory and [print] do not raise,
    the hook is the one of the first part: what is proved of [main] there
    holds of [Faulty.main] in such a world. *)
Section without_faults.

Variable w : world.
Hypothesis exists_returns : forall log, exists_fault w log antihall_dir = None.
Hypothesis print_returns_ : forall log line, print_fault w log line = None.

Lemma calm_check_pattern p log :
  Faulty.check_pattern w p log = check_pattern (answers w) p log.
Proof.
  destruct p as [service method full | items path | iss code]; [|done..].
  cbn [Faulty.check_pattern check_pattern].
  unfold Faulty.validate_with_antihall, validate_with_antihall, bind,
    Faulty.exists_, exists_.
  by rewrite exists_returns.
Qed.

Lemma calm_collect_issues patterns log :
  Faulty.collect_issues w patterns log
  = collect_issues (answers w) patterns log.
Proof.
  unfold Faulty.collect_issues, collect_issues, bind.
  by rewrite (for_each_ext _ (check_pattern (answers w)))
    by (intros; apply calm_check_pattern).
Qed.

Lemma calm_print line log : Faulty.print w line log = print line log.
Proof. unfold Faulty.print. by rewrite print_returns_. Qed.

Lemma calm_log_warnings issues log :
  Faulty.log_warnings w issues log = log_warnings issues log.
Proof.
  unfold Faulty.log_warnings, log_warnings, bind. rewrite calm_print.
  destruct (print _ log) as [[[]|x] log1]; [|done].
  rewrite (for_each_ext _ print_issue).
  - destruct (for_each print_issue issues log1) as [[units|x] log2]; [|done].
    apply calm_print.
  - intros i l. unfold Faulty.print_issue, print_issue, bind.
    rewrite calm_print. destruct (print _ l) as [[[]|x] l1]; [|done].
    destruct (negb _); [apply calm_print | done].
Qed.

Lemma calm_validate hook_data content log :
  Faulty.validate w hook_data content log
  = (left_by hook_data (validate (answers w) hook_data content log).1,
     (validate (answers w) hook_data content log).2).
Proof.
  unfold Faulty.validate, validate.
  destruct (negb (truthy content)); [done |].
  destruct content as [| | | |c| |]; try done.
  rewrite bind_ret. unfold Faulty.step at 1, ret at 1.
  unfold Faulty.step at 1. rewrite calm_collect_issues.
  destruct (collect_issues (answers w) (extract_code_patterns c) log)
    as [[issues|x] log1] eqn:Hc.
  - rewrite (bind_return _ _ _ _ _ Hc). destruct issues as [|i issues]; [done |].
    cbv zeta. unfold Faulty.step.
    rewrite calm_log_warnings, log_warnings_block.
    by rewrite (bind_return _ _ _ _ _ (log_warnings_block _ _)).
  - unfold bind. by rewrite Hc.
Qed.

Lemma calm_main hook_data log :
  Faulty.main w hook_data log
  = (left_by hook_data (main (answers w) hook_data log).1,
     (main (answers w) hook_data log).2).
Proof.
  unfold Faulty.main, main.
  destruct (negb (value_in _ _)); [done |].
  unfold Faulty.step at 1, bind at 1 4.
  destruct (get _ _ _ log) as [[file_path|x] l1]; [|done].
  unfold Faulty.step at 1, bind at 1 3.
  destruct (value_endswith _ _ l1) as [[is_ts|x] l2]; [|done].
  destruct (negb is_ts); [done |].
  unfold Faulty.step, bind.
  destruct (resolve_content _ _ l2) as [[content|x] l3]; [|done].
  apply calm_validate.
Qed.

End without_faults.

Lemma step_return {A} hook_data (m : io A) k log a log' :
  m log = (Return a, log') -> Faulty.step hook_data m k log = k a log'.
Proof. unfold Faulty.step. by intros ->. Qed.

Lemma step_raise {A} hook_data (m : io A) k log x log' :
  m log = (Raise x, log') ->
  Faulty.step hook_data m k log = (Faulty.Raised x hook_data, log').
Proof. unfold Faulty.step. by intros ->. Qed.

(** The gates in a world with faults: the faults play no part before the
    text is validated. *)
Lemma faulty_main_cases w hook_data log :
  Faulty.main w hook_data log = (Faulty.Returned hook_data, log)
  \/ (exists x,
        Faulty.main w hook_data log = (Faulty.Raised x hook_data, log)
        /\ main (answers w) hook_data log = (Raise x, log))
  \/ (exists content,
        validates hook_data content
        /\ Faulty.main w hook_data log
           = Faulty.validate w hook_data (VStr content) log).
Proof.
  unfold Faulty.main.
  destruct (value_in (dict_get hook_data (txt "tool_name") (VStr []))
              write_tools) eqn:Htool; [|by left].
  cbn [negb].
  destruct (dict_get hook_data (txt "params") (VDict ∅)) as [| | | | |l|params]
    eqn:Hparams.
  1-6: right; left; exists AttributeError; split;
       [by apply step_raise |]; unfold main;
       rewrite Htool, Hparams; reflexivity.
  rewrite (step_return _ _ _ log
             (dict_get params (txt "file_path") (VStr [])) log) by done.
  destruct (dict_get params (txt "file_path") (VStr [])) as [| | | |file_path| |]
    eqn:Hpath.
  1-4, 6-7: right; left; exists AttributeError; split;
       [by apply step_raise |]; unfold main;
       rewrite Htool, Hparams; cbn [negb get]; unfold bind at 1, ret at 1;
       rewrite Hpath; reflexivity.
  rewrite (step_return _ _ _ log (endswith_any file_path ts_suffixes) log)
    by done.
  destruct (endswith_any file_path ts_suffixes) eqn:Hts; [|by left].
  cbn [negb].
  pose proof (effect_free_resolve_content
                (dict_get hook_data (txt "tool_name") (VStr []))
                (VDict params)) as Hfree.
  destruct (resolve_content (dict_get hook_data (txt "tool_name") (VStr []))
              (VDict params) []) as [[content|x] log0] eqn:Hres.
  2:{ right; left. exists x. split.
      - apply step_raise. by rewrite Hfree, Hres.
      - erewrite main_past_gates by done. unfold bind. by rewrite Hfree, Hres. }
  assert (Hcontent : forall log,
             resolve_content (dict_get hook_data (txt "tool_name") (VStr []))
               (VDict params) log = (Return content, log)).
  { intros log1. by rewrite Hfree, Hres. }
  rewrite (step_return _ _ _ _ _ _ (Hcontent log)).
  destruct (truthy content) eqn:Htruthy.
  2:{ left. unfold Faulty.validate. by rewrite Htruthy. }
  destruct content as [| | | |c| |].
  1-4, 6-7: right; left; exists TypeError; split;
       [unfold Faulty.validate; rewrite Htruthy; reflexivity |];
       erewrite main_past_gates by done; unfold bind at 1;
       rewrite Hcontent; unfold validate; rewrite Htruthy; reflexivity.
  right; right. exists c. split; [|done].
  exists params, file_path. repeat split; try done. intros ->. done.
Qed.

(** What a loop adds to the log, and where it raises. *)
Lemma for_each_trace {A B} (P : event -> Prop) (Q : exn -> list event -> Prop)
    (f : A -> io B) (l : list A) log o log' :
  (forall a log o log',
     f a log = (o, log') ->
     exists added, log' = log ++ added /\ Forall P added
                   /\ forall x, o = Raise x -> Q x log') ->
  for_each f l log = (o, log') ->
  exists added, log' = log ++ added /\ Forall P added
                /\ forall x, o = Raise x -> Q x log'.
Proof.
  intros Hf. revert log o log'. induction l as [|a l IH]; intros log o log'.
  - intros [= <- <-]. exists []. by rewrite app_nil_r.
  - cbn [for_each]. unfold bind at 1.
    destruct (f a log) as [[b|x] log1] eqn:Ha.
    + apply Hf in Ha as (added1 & -> & Hadded1 & _).
      unfold bind.
      destruct (for_each f l (log ++ added1)) as [[bs|x] log2] eqn:Hl.
      * apply IH in Hl as (added2 & -> & Hadded2 & _).
        intros [= <- <-]. exists (added1 ++ added2).
        split; [by rewrite (assoc_L (++)) |].
        split; [by apply Forall_app |]. done.
      * apply IH in Hl as (added2 & -> & Hadded2 & Hx).
        intros [= <- <-]. exists (added1 ++ added2).
        split; [by rewrite (assoc_L (++)) |].
        split; [by apply Forall_app |]. intros ? [= <-]. by apply Hx.
    + apply Hf in Ha as (added1 & -> & Hadded1 & Hx).
      intros [= <- <-]. exists added1. split; [done |]. split; [done |].
      intros ? [= <-]. by apply Hx.
Qed.

(** The checks launch and print nothing, and raise what the test of the
    directory raises. *)
Lemma faulty_check_pattern_trace w p log o log' :
  Faulty.check_pattern w p log = (o, log') ->
  exists added,
    log' = log ++ added
    /\ Forall (fun ev => exists full, ev = launch full) added
    /\ forall x, o = Raise x -> exists_fault w log' antihall_dir = Some x.
Proof.
  destruct p as [service method full | items path | iss code];
    cbn [Faulty.check_pattern].
  - unfold Faulty.validate_with_antihall, bind, Faulty.exists_, run, ret.
    destruct (exists_fault w log antihall_dir) as [y|] eqn:Hfault.
    { intros [= <- <-]. exists []. rewrite app_nil_r.
      split; [done |]. split; [done |]. by intros ? [= <-]. }
    destruct (path_exists (answers w) log antihall_dir); cbn [negb].
    + intros H. exists [launch full]. split; [|split].
      * destruct (subprocess_run _ _ _ _ _) as [out err | d];
          [destruct (_ && _) |]; by injection H as _ <-.
      * apply Forall_cons_2; [by eauto | done].
      * intros x ->.
        destruct (subprocess_run _ _ _ _ _) as [out err | d];
          [destruct (_ && _) |]; done.
    + intros [= <- <-]. exists []. by rewrite app_nil_r.
  - intros [= <- <-]. exists []. by rewrite app_nil_r.
  - destruct (str_eqb _ _); intros [= <- <-]; exists [];
      by rewrite app_nil_r.
Qed.

Lemma faulty_collect_issues_trace w patterns log o log' :
  Faulty.collect_issues w patterns log = (o, log') ->
  exists added,
    log' = log ++ added
    /\ Forall (fun ev => exists full, ev = launch full) added
    /\ forall x, o = Raise x -> exists_fault w log' antihall_dir = Some x.
Proof.
  unfold Faulty.collect_issues, bind.
  destruct (for_each _ patterns log) as [[found|x] log1] eqn:Hl;
    intros [= <- <-];
    apply (for_each_trace (fun ev => exists full, ev = launch full)
             (fun x l => exists_fault w l antihall_dir = Some x)) in Hl
      as (added & -> & Hadded & Hx);
    try (intros; by eapply faulty_check_pattern_trace).
  - exists added. by repeat split.
  - exists added. split; [done |]. split; [done |]. intros ? [= <-].
    by apply Hx.
Qed.

(** The warning block adds lines, and raises what a [print] raises. *)
Lemma faulty_print_trace w line log o log' :
  Faulty.print w line log = (o, log') ->
  exists added,
    log' = log ++ added
    /\ Forall (fun ev => exists l, ev = Printed l) added
    /\ forall x, o = Raise x -> exists l, print_fault w log' l = Some x.
Proof.
  unfold Faulty.print. destruct (print_fault w log line) as [y|] eqn:Hfault.
  - intros [= <- <-]. exists []. rewrite app_nil_r. split; [done |].
    split; [done |]. intros ? [= <-]. by exists line.
  - intros [= <- <-]. exists [Printed line]. split; [done |].
    split; [apply Forall_cons_2; [by eauto | done] | done].
Qed.

Lemma faulty_print_issue_trace w i log o log' :
  Faulty.print_issue w i log = (o, log') ->
  exists added,
    log' = log ++ added
    /\ Forall (fun ev => exists l, ev = Printed l) added
    /\ forall x, o = Raise x -> exists l, print_fault w log' l = Some x.
Proof.
  unfold Faulty.print_issue, bind.
  destruct (Faulty.print w _ log) as [[[]|x] log1] eqn:H1.
  - apply faulty_print_trace in H1 as (added1 & -> & Hadded1 & _).
    destruct (negb _).
    + intros (added2 & -> & Hadded2 & Hx)%faulty_print_trace.
      exists (added1 ++ added2). split; [by rewrite (assoc_L (++)) |].
      split; [by apply Forall_app | done].
    + intros [= <- <-]. exists added1. by repeat split.
  - apply faulty_print_trace in H1 as (added1 & -> & Hadded1 & Hx).
    intros [= <- <-]. exists added1. split; [done |]. split; [done |].
    intros ? [= <-]. by apply Hx.
Qed.

Lemma faulty_log_warnings_trace w issues log o log' :
  Faulty.log_warnings w issues log = (o, log') ->
  exists added,
    log' = log ++ added
    /\ Forall (fun ev => exists l, ev = Printed l) added
    /\ forall x, o = Raise x -> exists l, print_fault w log' l = Some x.
Proof.
  unfold Faulty.log_warnings, bind.
  destruct (Faulty.print w _ log) as [[[]|x] log1] eqn:H1.
  2:{ apply faulty_print_trace in H1 as (added1 & -> & Hadded1 & Hx).
      intros [= <- <-]. exists added1. split; [done |]. split; [done |].
      intros ? [= <-]. by apply Hx. }
  apply faulty_print_trace in H1 as (added1 & -> & Hadded1 & _).
  destruct (for_each _ issues _) as [[units|x] log2] eqn:H2;
    apply (for_each_trace (fun ev => exists l, ev = Printed l)
             (fun x l => exists line, print_fault w l line = Some x)) in H2
      as (added2 & -> & Hadded2 & Hx2);
    try (intros; by eapply faulty_print_issue_trace).
  - intros (added3 & -> & Hadded3 & Hx3)%faulty_print_trace.
    exists (added1 ++ added2 ++ added3).
    split; [by rewrite !(assoc_L (++)) |].
    split; [by repeat apply Forall_app_2 | done].
  - intros [= <- <-]. exists (added1 ++ added2).
    split; [by rewrite (assoc_L (++)) |].
    split; [by apply Forall_app_2 |]. intros ? [= <-]. by apply Hx2.
Qed.

(** X1.  [main] raises in three ways, told apart by what the call leaves.
    On a record that is not of the shape of an invocation record it raises
    while it reads the record, before any effect: the log of events and
    the record are as they were.  What the test of the directory raises
    leaves [main] between the launches: the events added are launches
    only, nothing is printed and the record is as it was.  What a [print]
    raises leaves [main] after the launches, with the warnings set in the
    record of the caller: line 126 has changed it before line 129
    prints. *)
Theorem main_raises_in_three_ways
    (w : world) (hook_data record : dict) (log log' : list event) (x : exn) :
  Faulty.main w hook_data log = (Faulty.Raised x record, log') ->
  (record = hook_data /\ log' = log /\ ~ well_shaped hook_data)
  \/ (record = hook_data
      /\ exists_fault w log' antihall_dir = Some x
      /\ exists launches,
           log' = log ++ launches
           /\ Forall (fun ev => exists full, ev = launch full) launches)
  \/ (exists issues line launches printed,
        issues <> []
        /\ record = attach_warnings issues hook_data
        /\ print_fault w log' line = Some x
        /\ log' = log ++ launches ++ printed
        /\ Forall (fun ev => exists full, ev = launch full) launches
        /\ Forall (fun ev => exists l, ev = Printed l) printed).
Proof.
  intros Hraise.
  destruct (faulty_main_cases w hook_data log)
    as [Hm | [(y & Hm & Hold) | (content & Hv & Hm)]].
  - congruence.
  - left. rewrite Hm in Hraise. injection Hraise as <- <- <-.
    split; [done |]. split; [done |].
    intros (r & l & Hret)%(main_returns (answers w) hook_data log).
    congruence.
  - right. rewrite Hm in Hraise. clear Hm.
    destruct Hv as (_ & _ & _ & _ & _ & _ & _ & Hne).
    unfold Faulty.validate in Hraise. cbn [truthy] in Hraise.
    rewrite bool_decide_eq_false_2 in Hraise by done. cbn [negb] in Hraise.
    rewrite (step_return _ _ _ log (extract_code_patterns content) log)
      in Hraise by done.
    destruct (Faulty.collect_issues w (extract_code_patterns content) log)
      as [[issues|y] log1] eqn:Hc.
    + rewrite (step_return _ _ _ _ _ _ Hc) in Hraise.
      apply faulty_collect_issues_trace in Hc as (launches & -> & Hl & _).
      destruct issues as [|i issues]; [done |]. cbv zeta in Hraise.
      destruct (Faulty.log_warnings w (i :: issues) (log ++ launches))
        as [[[]|y] log2] eqn:Hw.
      * by rewrite (step_return _ _ _ _ _ _ Hw) in Hraise.
      * rewrite (step_raise _ _ _ _ _ _ Hw) in Hraise.
        injection Hraise as <- <- <-.
        apply faulty_log_warnings_trace in Hw as (printed & -> & Hp & Hx).
        destruct (Hx y eq_refl) as (line & Hline).
        right. exists (i :: issues), line, launches, printed.
        split; [done |]. split; [done |]. split; [done |].
        split; [by rewrite (assoc_L (++)) | done].
    + rewrite (step_raise _ _ _ _ _ _ Hc) in Hraise.
      injection Hraise as <- <- <-.
      apply faulty_collect_issues_trace in Hc as (launches & -> & Hl & Hx).
      left. split; [done |]. split; [by apply Hx |]. by exists launches.
Qed.

Lemma faulty_main_of_validates w hook_data content log :
  validates hook_data content ->
  Faulty.main w hook_data log
  = Faulty.validate w hook_data (VStr content) log.
Proof.
  intros (params & file_path & Htool & Hparams & Hpath & Hts & Hres & _).
  unfold Faulty.main. rewrite Htool, Hparams. cbn [negb].
  rewrite (step_return _ _ _ log (VStr file_path) log)
    by (cbn [get]; by rewrite Hpath).
  rewrite (step_return _ _ _ log true log)
    by (cbn [value_endswith]; by rewrite Hts).
  cbn [negb]. by rewrite (step_return _ _ _ _ _ _ (Hres log)).
Qed.

(** The scenario of the specification on a stdout that takes ASCII only:
    the call is launched, the warnings are set, and the first line of the
    warning block, which holds the marker, is refused. *)
Lemma scenario_run_refused :
  Faulty.main
    (ascii_stdout (tool_answers (txt "Method loginWithMagicLink does not exist")))
    scenario_record []
  = (Faulty.Raised UnicodeEncodeError
       (attach_warnings
          [hallucination (txt "authService") (txt "loginWithMagicLink")]
          scenario_record),
     [launch (txt "this.authService.loginWithMagicLink()")]).
Proof.
  rewrite (faulty_main_of_validates _ _ _ _ scenario_validates).
  unfold Faulty.validate. cbn [truthy].
  rewrite bool_decide_eq_false_2 by done. cbn [negb].
  rewrite (step_return _ _ _ []
             (extract_code_patterns
                (txt "this.authService.loginWithMagicLink()")) [])
    by done.
  rewrite extract_scenario.
  rewrite (step_return _ _ _ []
             [hallucination (txt "authService") (txt "loginWithMagicLink")]
             [launch (txt "this.authService.loginWithMagicLink()")])
    by (vm_compute; reflexivity).
  cbv zeta. by apply step_raise.
Qed.

Lemma main_raises_in_three_ways_witness :
  (attach_warnings
     [hallucination (txt "authService") (txt "loginWithMagicLink")]
     scenario_record = scenario_record
   /\ [launch (txt "this.authService.loginWithMagicLink()")] = []
   /\ ~ well_shaped scenario_record)
  \/ (attach_warnings
        [hallucination (txt "authService") (txt "loginWithMagicLink")]
        scenario_record = scenario_record
      /\ exists_fault
           (ascii_stdout
              (tool_answers (txt "Method loginWithMagicLink does not exist")))
           [launch (txt "this.authService.loginWithMagicLink()")] antihall_dir
         = Some UnicodeEncodeError
      /\ exists launches,
           [launch (txt "this.authService.loginWithMagicLink()")]
           = [] ++ launches
           /\ Forall (fun ev => exists full, ev = launch full) launches)
  \/ (exists issues line launches printed,
        issues <> []
        /\ attach_warnings
             [hallucination (txt "authService") (txt "loginWithMagicLink")]
             scenario_record
           = attach_warnings issues scenario_record
        /\ print_fault
             (ascii_stdout
                (tool_answers
                   (txt "Method loginWithMagicLink does not exist")))
             [launch (txt "this.authService.loginWithMagicLink()")] line
           = Some UnicodeEncodeError
        /\ [launch (txt "this.authService.loginWithMagicLink()")]
           = [] ++ launches ++ printed
        /\ Forall (fun ev => exists full, ev = launch full) launches
        /\ Forall (fun ev => exists l, ev = Printed l) printed).
Proof.
  apply (main_raises_in_three_ways
           (ascii_stdout
              (tool_answers (txt "Method loginWithMagicLink does not exist")))
           scenario_record _ [] _ UnicodeEncodeError).
  apply scenario_run_refused.
Defined.

Lemma faulty_check_pattern_hears w1 w2 p log :
  (forall l, exists_fault w1 l antihall_dir = exists_fault w2 l antihall_dir) ->
  (forall l, path_exists (answers w1) l antihall_dir
             = path_exists (answers w2) l antihall_dir) ->
  (forall l full,
     reports_missing
       (subprocess_run (answers w1) l
          [txt "npm"; txt "run"; txt "check"; full] antihall_dir 10)
     = reports_missing
         (subprocess_run (answers w2) l
            [txt "npm"; txt "run"; txt "check"; full] antihall_dir 10)) ->
  Faulty.check_pattern w1 p log = Faulty.check_pattern w2 p log.
Proof.
  intros Hfault Hpath Hrun.
  destruct p as [service method full | items path | iss code];
    cbn [Faulty.check_pattern]; [|done..].
  unfold Faulty.validate_with_antihall, bind, Faulty.exists_, run, ret.
  rewrite Hfault, Hpath.
  destruct (exists_fault w2 log antihall_dir); [done |].
  destruct (path_exists (answers w2) log antihall_dir); [|done].
  cbn [negb]. cbv beta iota. specialize (Hrun log full).
  assert (Hand : forall out,
            negb (bool_decide (out = [])) && contains out (txt "does not exist")
            = contains out (txt "does not exist")).
  { intros out. destruct (contains out _) eqn:Hc; [|by rewrite andb_false_r].
    by rewrite bool_decide_eq_false_2
      by (by apply (contains_nonempty _ (txt "does not exist"))). }
  destruct (subprocess_run (answers w1) _ _ _ _) as [out1 err1 | d1];
    destruct (subprocess_run (answers w2) _ _ _ _) as [out2 err2 | d2];
    cbn [reports_missing] in Hrun; rewrite ?Hand.
  - rewrite Hrun. by destruct (contains out2 _).
  - by rewrite Hrun.
  - by rewrite <- Hrun.
  - done.
Qed.

Lemma faulty_log_warnings_hears w1 w2 issues log :
  (forall l line, print_fault w1 l line = print_fault w2 l line) ->
  Faulty.log_warnings w1 issues log = Faulty.log_warnings w2 issues log.
Proof.
  intros Hfault.
  assert (Hprint : forall line l, Faulty.print w1 line l = Faulty.print w2 line l).
  { intros line l. unfold Faulty.print. by rewrite Hfault. }
  assert (Hissue : forall i l,
            Faulty.print_issue w1 i l = Faulty.print_issue w2 i l).
  { intros i l. unfold Faulty.print_issue, bind. rewrite Hprint.
    destruct (Faulty.print w2 _ l) as [[[]|x] l1]; [|done].
    by destruct (negb _). }
  unfold Faulty.log_warnings, bind. rewrite Hprint.
  destruct (Faulty.print w2 _ log) as [[[]|x] l1]; [|done].
  rewrite (for_each_ext _ (Faulty.print_issue w2)) by done.
  by destruct (for_each _ issues l1) as [[units|x] l2].
Qed.

(** X13.  Of the world [main] hears four things: whether the test of the
    directory raises, and what; whether the directory exists; whether the
    stdout of a launch holds [does not exist]; and whether a [print]
    raises, and what.  In two worlds that agree on these, [main] leaves
    the same record, returns or raises the same exception and adds the
    same events: the stderr of the checker, the rest of its stdout and
    the reason of a launch that failed (a timeout, [npm] missing) change
    nothing, a failed launch being the same as a silent one. *)
Theorem main_hears_of_the_world
    (w1 w2 : world) (hook_data : dict) (log : list event) :
  (forall l, exists_fault w1 l antihall_dir = exists_fault w2 l antihall_dir) ->
  (forall l line, print_fault w1 l line = print_fault w2 l line) ->
  (forall l, path_exists (answers w1) l antihall_dir
             = path_exists (answers w2) l antihall_dir) ->
  (forall l full,
     reports_missing
       (subprocess_run (answers w1) l
          [txt "npm"; txt "run"; txt "check"; full] antihall_dir 10)
     = reports_missing
         (subprocess_run (answers w2) l
            [txt "npm"; txt "run"; txt "check"; full] antihall_dir 10)) ->
  Faulty.main w1 hook_data log = Faulty.main w2 hook_data log.
Proof.
  intros Hexists Hprint Hpath Hrun.
  assert (Hcollect : forall patterns l,
            Faulty.collect_issues w1 patterns l
            = Faulty.collect_issues w2 patterns l).
  { intros patterns l. unfold Faulty.collect_issues, bind.
    rewrite (for_each_ext _ (Faulty.check_pattern w2)); [done |].
    intros p l'. by apply faulty_check_pattern_hears. }
  assert (Hvalidate : forall content l,
            Faulty.validate w1 hook_data content l
            = Faulty.validate w2 hook_data content l).
  { intros content l. unfold Faulty.validate.
    destruct (negb (truthy content)); [done |].
    destruct content as [| | | |c| |]; try done.
    rewrite !(step_return _ _ _ l (extract_code_patterns c) l) by done.
    unfold Faulty.step at 1 3. rewrite Hcollect.
    destruct (Faulty.collect_issues w2 _ l) as [[[|i issues]|x] l1];
      [done | | done].
    cbv zeta. unfold Faulty.step. by rewrite (faulty_log_warnings_hears w1 w2). }
  unfold Faulty.main. destruct (negb (value_in _ _)); [done |].
  unfold Faulty.step at 1 4.
  destruct (get _ _ _ log) as [[file_path|x] l1]; [|done].
  unfold Faulty.step at 1 3.
  destruct (value_endswith _ _ l1) as [[is_ts|x] l2]; [|done].
  destruct (negb is_ts); [done |].
  unfold Faulty.step.
  destruct (resolve_content _ _ l2) as [[content|x] l3]; [|done].
  apply Hvalidate.
Qed.

Lemma main_hears_of_the_world_witness :
  Faulty.main (ascii_stdout (tool_answers (txt "ok"))) scenario_record []
  = Faulty.main (ascii_stdout (tool_fails (txt "timed out"))) scenario_record [].
Proof.
  apply (main_hears_of_the_world (ascii_stdout (tool_answers (txt "ok")))
           (ascii_stdout (tool_fails (txt "timed out"))) scenario_record []).
  - intros l. reflexivity.
  - intros l line. reflexivity.
  - intros l. reflexivity.
  - intros l full. reflexivity.
Defined.
